(** * Travelling-Salesperson solvers of [src/utils/tsp-algorithms.ts]

    A shallow embedding of the three solvers ([greedyTSP], [heldKarpTSP],
    [christofidesTSP]), of their helpers ([primMST],
    [minimumWeightMatching], [findEulerianCircuit]) and of their callers
    ([utils/graph-generator.ts], [App.tsx] and the components), followed
    by the properties the specification states about them and by further
    properties of the code.

    Conventions of the embedding.
    - A JavaScript array is a [list] in the same order: [a.push(x)] is
      [a ++ [x]], [a.pop()] removes the last element, [a[i] = x] is
      [<[i:=x]> a].
    - A [Set<number>] is a [gset nat].
    - A variable that holds an index or the sentinel [-1] is an
      [option nat], [None] standing for [-1].
    - A function that can throw a [TypeError] (a property read on
      [undefined]) returns an [option]; [None] is the exception.
    - [performance.now()] is an input: the two readings of a call are the
      pair [clk]. *)

From stdpp Require Import base option list gmap strings.
From Stdlib Require Import ZArith Lia.
From Equations Require Import Equations.

Local Open Scope Z_scope.
Local Open Scope nat_scope.

(** ** Numbers

    The distances are JavaScript numbers.  The solvers only add them and
    compare them with [<], so the embedding keeps exact values: a finite
    number is an integer (any finite set of rationals scales to integers
    without changing a sum comparison), [Infinity] is [Inf], and [NaN] is
    what arithmetic makes of an [undefined] array read.  Rounding of
    IEEE doubles is not modelled. *)

Inductive num : Type :=
| Fin (z : Z)
| Inf
| NaN.

#[global] Instance num_eq_dec : EqDecision num.
Proof. solve_decision. Defined.

(** [a + b] on numbers. *)
Definition num_add (a b : num) : num :=
  match a, b with
  | NaN, _ | _, NaN => NaN
  | Inf, _ | _, Inf => Inf
  | Fin x, Fin y => Fin (x + y)
  end.

(** [a < b]; false as soon as one side is [NaN]. *)
Definition num_ltb (a b : num) : bool :=
  match a, b with
  | NaN, _ | _, NaN => false
  | Inf, _ => false
  | Fin _, Inf => true
  | Fin x, Fin y => (x <? y)%Z
  end.

(** [a <= b]; false as soon as one side is [NaN]. *)
Definition num_leb (a b : num) : bool :=
  match a, b with
  | NaN, _ | _, NaN => false
  | _, Inf => true
  | Inf, Fin _ => false
  | Fin x, Fin y => (x <=? y)%Z
  end.

(** [a - b], used for the elapsed time only. *)
Definition num_sub (a b : num) : num :=
  match a, b with
  | Fin x, Fin y => Fin (x - y)
  | Inf, Fin _ => Inf
  | _, _ => NaN
  end.

(** A finite, non-negative number: what a valid matrix holds. *)
Definition is_dist (a : num) : bool :=
  match a with
  | Fin z => (0 <=? z)%Z
  | _ => false
  end.

(** ** Result model *)

(** A template literal: its fixed pieces and its interpolated values. *)
Inductive piece : Type :=
| Str (s : string)
| Node (v : nat)              (* ${v} of an index or a length *)
| Fixed2 (x : num)            (* ${x.toFixed(2)} *)
| Joined (l : list nat).      (* ${l.join(', ')} *)

Definition text : Type := list piece.

Record edge : Type := mkEdge { from : nat; to : nat }.

(** [stepCost] is the field [cost] of an [AlgorithmStep]. *)
Record AlgorithmStep : Type := mkStep {
  description : text;
  currentNode : option nat;
  visitedNodes : list nat;
  currentPath : list nat;
  exploringEdges : option (list edge);
  highlightEdge : option edge;
  stepCost : option num;
  additionalInfo : option text
}.

Record TSPResult : Type := mkResult {
  path : list nat;
  cost : num;
  executionTime : num;
  steps : list AlgorithmStep
}.

(** The two readings of [performance.now()] during one call. *)
Definition clock : Type := (num * num)%type.

Definition elapsed (clk : clock) : num := num_sub (snd clk) (fst clk).

(** ** The distance matrix *)

Abbreviation matrix := (list (list num)).

(** [m[i][j]] read as a number.  A column that is missing reads
    [undefined], which [<] and [+] turn into [NaN].  A missing row would
    throw; the solvers read row [i] only for [i < m.length], except
    [greedyTSP] on the empty matrix, which is modelled where it happens. *)
Definition entry (m : matrix) (i j : nat) : num :=
  match m !! i with
  | Some row => default NaN (row !! j)
  | None => NaN
  end.

(** [a[a.length - 1]] of a non-empty array of indices. *)
Definition last_node (p : list nat) : nat := default 0 (last p).

(** [for (let j = lo; j < lo + k; j++) s = body(j, s)]. *)
Fixpoint for_loop {St : Type} (k lo : nat) (body : nat → St → St) (s : St) : St :=
  match k with
  | 0 => s
  | S k' => for_loop k' (S lo) body (body lo s)
  end.

(** [!a[j]] on an array of booleans ([undefined] is falsy). *)
Definition flag (a : list bool) (j : nat) : bool := default false (a !! j).

(** ** Greedy solver (nearest neighbour) *)
Module Greedy.

(** Loop state of [greedyTSP]: [visited], [path], [totalCost], [steps]. *)
Record state : Type := mkState {
  visited : list bool;
  gpath : list nat;
  totalCost : num;
  gsteps : list AlgorithmStep
}.

(** Lines 45-49: the candidate edges from [current]. *)
Definition exploring (vis : list bool) (current n : nat) : list edge :=
  for_loop n 0
    (λ j acc, if negb (flag vis j) then acc ++ [mkEdge current j] else acc) [].

(** Lines 61-66: the scan for the nearest unvisited node; the state is
    [(nearest, minDistance)]. *)
Definition scan_body (d : matrix) (vis : list bool) (current : nat)
    (j : nat) (s : option nat * num) : option nat * num :=
  if negb (flag vis j) && num_ltb (entry d current j) (snd s)
  then (Some j, entry d current j)
  else s.

Definition scan (d : matrix) (vis : list bool) (current n : nat)
    : option nat * num :=
  for_loop n 0 (scan_body d vis current) (None, Inf).

(** Lines 39-82: one iteration of the outer loop. *)
Definition iteration (d : matrix) (n : nat) (s : state) : state :=
  let current := last_node (gpath s) in
  let explore := mkStep
    [Str "At node "; Node current; Str ", exploring unvisited neighbors"]
    (Some current) (gpath s) (gpath s)
    (Some (exploring (visited s) current n)) None (Some (totalCost s))
    (Some [Str "Looking for the nearest unvisited node from "; Node current]) in
  match scan d (visited s) current n with
  | (Some nearest, minDistance) =>
      let path' := gpath s ++ [nearest] in
      let cost' := num_add (totalCost s) minDistance in
      mkState (<[nearest := true]> (visited s)) path' cost'
        (gsteps s ++ [explore;
           mkStep
             [Str "Move to nearest node "; Node nearest; Str " (distance: ";
              Fixed2 minDistance; Str ")"]
             (Some nearest) path' path' None
             (Some (mkEdge current nearest)) (Some cost')
             (Some [Str "Added edge "; Node current; Str " → "; Node nearest;
                    Str " with cost "; Fixed2 minDistance])])
  | (None, _) =>
      mkState (visited s) (gpath s) (totalCost s) (gsteps s ++ [explore])
  end.

(** Lines 23-36: the state before the loop.  [visited[0] = true] on an
    empty array extends it. *)
Definition init (n : nat) : state :=
  mkState
    (match n with 0 => [true] | S _ => <[0 := true]> (replicate n false) end)
    [0] (Fin 0)
    [mkStep [Str "Start at node 0"] (Some 0) [0] [0] None None (Some (Fin 0))
       (Some [Str "Greedy algorithm always starts at node 0"])].

(** The state after [i] iterations of the outer loop. *)
Definition after (d : matrix) (i : nat) : state :=
  for_loop i 0 (λ _, iteration d (length d)) (init (length d)).

(** [greedyTSP].  The closing edge is read at lines 86-90: a missing row
    throws at [distanceMatrix[...][...]], a missing column makes
    [finalCost] undefined and [finalCost.toFixed] throws. *)
Definition greedyTSP (clk : clock) (d : matrix) : option TSPResult :=
  let n := length d in
  let s := after d (n - 1) in
  let p := gpath s in
  row ← d !! last_node p;
  finalCost ← row !! default 0 (head p);
  let total := num_add (totalCost s) finalCost in
  Some (mkResult p total (elapsed clk)
    (gsteps s ++
      [mkStep
         [Str "Return to start node 0 (distance: "; Fixed2 finalCost; Str ")"]
         (Some 0) (p ++ [0]) (p ++ [0]) None
         (Some (mkEdge (last_node p) 0)) (Some total)
         (Some [Str "Complete the tour. Total cost: "; Fixed2 total])])).

End Greedy.

(** ** Held-Karp solver (bitmask dynamic programming) *)

(** *** 32-bit integer operators

    [<<], [&], [|] and [^] convert their operands to signed 32-bit
    integers; the shift count is taken modulo 32. *)

Definition to_int32 (z : Z) : Z := ((z + 2 ^ 31) mod 2 ^ 32 - 2 ^ 31)%Z.
Definition shl32 (a b : Z) : Z := to_int32 (Z.shiftl (to_int32 a) (b mod 32)).
Definition and32 (a b : Z) : Z := Z.land (to_int32 a) (to_int32 b).
Definition or32 (a b : Z) : Z := Z.lor (to_int32 a) (to_int32 b).
Definition xor32 (a b : Z) : Z := Z.lxor (to_int32 a) (to_int32 b).

(** [1 << i] for a node index [i]. *)
Definition bit (i : nat) : Z := shl32 1 (Z.of_nat i).

Module HeldKarp.

(** The tables [dp] and [parent], indexed by [mask] then by node. *)
Abbreviation dp_table := (list (list num)).
Abbreviation parent_table := (list (list (option nat))).

(** [t[mask][i] = v]. *)
Definition tset {A : Type} (t : list (list A)) (mask : Z) (i : nat) (v : A)
    : list (list A) :=
  alter (λ row, <[i := v]> row) (Z.to_nat mask) t.

(** [dp[mask][i]]; every read of the solver is inside the table. *)
Definition dp_at (dp : dp_table) (mask : Z) (i : nat) : num :=
  entry dp (Z.to_nat mask) i.

(** [parent[mask][i]]; every read of the solver is inside the table. *)
Definition parent_at (parent : parent_table) (mask : Z) (i : nat) : option nat :=
  match parent !! Z.to_nat mask with
  | Some row => default None (row !! i)
  | None => None
  end.

Abbreviation tables := (dp_table * parent_table)%type.

(** Lines 155-163: try to extend the subset [mask], ending at [last],
    by [next]. *)
Definition relax (d : matrix) (mask : Z) (last next : nat) (t : tables)
    : tables :=
  if decide (and32 mask (bit next) ≠ 0%Z) then t
  else
    let newMask := or32 mask (bit next) in
    let newCost := num_add (dp_at t.1 mask last) (entry d last next) in
    if num_ltb newCost (dp_at t.1 newMask next)
    then (tset t.1 newMask next newCost, tset t.2 newMask next (Some last))
    else t.

(** Lines 148-165: the body of the loop over [last]. *)
Definition extend (d : matrix) (n : nat) (mask : Z) (last : nat) (t : tables)
    : tables :=
  if decide (and32 mask (bit last) = 0%Z) then t
  else if decide (dp_at t.1 mask last = Inf) then t
  else for_loop n 0 (relax d mask last) t.

(** Lines 147-166: the sweep over all subsets, in increasing order. *)
Definition sweep (d : matrix) (n : nat) (t : tables) : tables :=
  for_loop (Z.to_nat (bit n - 1)) 1
    (λ mask, for_loop n 0 (extend d n (Z.of_nat mask))) t.

(** Lines 173-180: the best last node; the state is
    [(minCost, lastNode)]. *)
Definition best_body (d : matrix) (dp : dp_table) (fullMask : Z) (i : nat)
    (s : num * option nat) : num * option nat :=
  if decide (i = 0) then s
  else
    let c := num_add (dp_at dp fullMask i) (entry d i 0) in
    if num_ltb c s.1 then (c, Some i) else s.

Definition best (d : matrix) (n : nat) (dp : dp_table) (fullMask : Z)
    : num * option nat :=
  for_loop n 0 (best_body d dp fullMask) (Inf, None).

(** Lines 187-192: [while (curr !== -1)].  The loop is not structural;
    [fuel] bounds its iterations and [None] means the bound was hit. *)
Fixpoint walk (fuel : nat) (parent : parent_table) (mask : Z)
    (curr : option nat) (p : list nat) : option (list nat) :=
  match curr with
  | None => Some p
  | Some c =>
      match fuel with
      | 0 => None
      | S fuel' =>
          walk fuel' parent (xor32 mask (bit c)) (parent_at parent mask c)
            (p ++ [c])
      end
  end.

Definition too_large (clk : clock) (n : nat) : TSPResult :=
  mkResult [] Inf (elapsed clk)
    [mkStep [Str "Graph too large for Held-Karp"] None [] [] None None None
       (Some [Str "Held-Karp has O(n² 2ⁿ) complexity. For "; Node n;
              Str " nodes, this is too expensive."])].

Definition step_init : AlgorithmStep :=
  mkStep [Str "Initialize: Calculate distances from node 0 to all other nodes"]
    (Some 0) [0] [0] None None None
    (Some [Str "Dynamic programming approach: build solutions for subsets"]).

Definition step_build : AlgorithmStep :=
  mkStep [Str "Build solutions for all subsets of nodes"]
    None [0] [0] None None None
    (Some [Str "Computing optimal paths for each subset using dynamic programming"]).

(** Lines 133-137: the tables before the sweep.  [dp[1][0] = 0] throws
    when [dp] has a single row, that is for the empty matrix. *)
Definition init (n : nat) : option tables :=
  let size := Z.to_nat (bit n) in
  let dp := replicate size (replicate n Inf) in
  let parent := replicate size (replicate n None) in
  _ ← dp !! 1;
  Some (tset dp 1 0 (Fin 0), parent).

(** Lines 196-205: the last step and the result. *)
Definition report (clk : clock) (p : list nat) (minCost : num) : TSPResult :=
  mkResult p minCost (elapsed clk)
    [step_init; step_build;
     mkStep [Str "Reconstructed optimal path"] None p p None None
       (Some minCost)
       (Some [Str "Found optimal tour with cost "; Fixed2 minCost])].

(** [heldKarpTSP].  The walk along [parent] visits at most [n] nodes
    (lemma [walk_terminates] below), so [n] is fuel enough. *)
Definition heldKarpTSP (clk : clock) (d : matrix) : option TSPResult :=
  let n := length d in
  if 15 <? n then Some (too_large clk n)
  else
    t0 ← init n;
    let t := sweep d n t0 in
    let fullMask := (bit n - 1)%Z in
    let '(minCost, lastNode) := best d n t.1 fullMask in
    p ← walk n t.2 fullMask lastNode [];
    Some (report clk (reverse p) minCost).

End HeldKarp.

(** ** Christofides solver and its helpers *)

(** An edge of the spanning tree: [{from, to, weight}]. *)
Record wedge : Type := mkWedge { wfrom : nat; wto : nat; weight : num }.

Module Prim.

(** Lines 339-345: the scan over [k] for a visited [j]; the state is
    [(minWeight, (minFrom, minTo))]. *)
Definition scan_to (d : matrix) (vis : list bool) (j k : nat)
    (s : num * option (nat * nat)) : num * option (nat * nat) :=
  if negb (flag vis k) && num_ltb (entry d j k) s.1
  then (entry d j k, Some (j, k))
  else s.

(** Lines 336-346: the scan over [j]. *)
Definition scan_from (d : matrix) (vis : list bool) (n j : nat)
    (s : num * option (nat * nat)) : num * option (nat * nat) :=
  if negb (flag vis j) then s
  else for_loop n 0 (scan_to d vis j) s.

Definition lightest (d : matrix) (vis : list bool) (n : nat)
    : num * option (nat * nat) :=
  for_loop n 0 (scan_from d vis n) (Inf, None).

(** Lines 331-352: one iteration; the state is [(visited, mst)]. *)
Definition grow (d : matrix) (n : nat) (s : list bool * list wedge)
    : list bool * list wedge :=
  match lightest d s.1 n with
  | (minWeight, Some (minFrom, minTo)) =>
      (<[minTo := true]> s.1, s.2 ++ [mkWedge minFrom minTo minWeight])
  | (_, None) => s
  end.

Definition init (n : nat) : list bool * list wedge :=
  (match n with 0 => [true] | S _ => <[0 := true]> (replicate n false) end, []).

(** The state after [i] iterations. *)
Definition after (d : matrix) (i : nat) : list bool * list wedge :=
  for_loop i 0 (λ _, grow d (length d)) (init (length d)).

Definition primMST (d : matrix) : list wedge :=
  (after d (length d - 1)).2.

End Prim.

Module Matching.

(** Lines 371-379: the scan for the partner of [vertices[i]]; the state
    is [(minDist, bestMatch)]. *)
Definition partner_body (d : matrix) (vertices : list nat) (used : gset nat)
    (i j : nat) (s : num * option nat) : num * option nat :=
  if decide (vertices !!! j ∈ used) then s
  else
    let dist := entry d (vertices !!! i) (vertices !!! j) in
    if num_ltb dist s.1 then (dist, Some j) else s.

Definition partner (d : matrix) (vertices : list nat) (used : gset nat)
    (i : nat) : num * option nat :=
  for_loop (length vertices - (i + 1)) (i + 1)
    (partner_body d vertices used i) (Inf, None).

(** Lines 365-386: one iteration; the state is [(matching, used)]. *)
Definition pair_up (d : matrix) (vertices : list nat) (i : nat)
    (s : list edge * gset nat) : list edge * gset nat :=
  if decide (vertices !!! i ∈ s.2) then s
  else
    match (partner d vertices s.2 i).2 with
    | Some bestMatch =>
        (s.1 ++ [mkEdge (vertices !!! i) (vertices !!! bestMatch)],
         {[vertices !!! bestMatch]} ∪ ({[vertices !!! i]} ∪ s.2))
    | None => s
    end.

(** The state after the iterations [0 .. i-1]. *)
Definition after (d : matrix) (vertices : list nat) (i : nat)
    : list edge * gset nat :=
  for_loop i 0 (pair_up d vertices) ([], ∅).

Definition minimumWeightMatching (vertices : list nat) (d : matrix)
    : list edge :=
  (after d vertices (length vertices)).1.

End Matching.

Module Euler.

(** Loop state of [findEulerianCircuit]. *)
Record state : Type := mkState {
  adjList : list (list nat);
  stack : list nat;
  circuit : list nat
}.

(** [a.splice(a.indexOf(v), 1)] when [v] occurs in [a], else nothing. *)
Fixpoint remove_first (v : nat) (a : list nat) : list nat :=
  match a with
  | [] => []
  | x :: a' => if decide (x = v) then a' else x :: remove_first v a'
  end.

Inductive outcome : Type :=
| Finished                (* the stack is empty *)
| Thrown                  (* [adjList[x]] is undefined *)
| Continue (st : state).

(** Lines 397-409: one iteration of the [while] loop. *)
Definition step (st : state) : outcome :=
  match last (stack st) with
  | None => Finished
  | Some v =>
      match adjList st !! v with
      | None => Thrown
      | Some nv =>
          match last nv with
          | Some u =>
              let adj1 := <[v := removelast nv]> (adjList st) in
              match adj1 !! u with
              | None => Thrown
              | Some nu =>
                  Continue (mkState (<[u := remove_first v nu]> adj1)
                              (stack st ++ [u]) (circuit st))
              end
          | None =>
              Continue (mkState (adjList st) (removelast (stack st))
                          (circuit st ++ [v]))
          end
      end
  end.

(** Number of entries in all adjacency lists. *)
Definition entries (adj : list (list nat)) : nat := sum_list (length <$> adj).

Definition measure (st : state) : nat * nat :=
  (entries (adjList st), length (stack st)).

(** The order in which every iteration goes down: fewer adjacency
    entries, or as many and a shorter stack. *)
Definition lex : nat * nat → nat * nat → Prop := lexprod nat nat lt lt.

Lemma entries_insert (adj : list (list nat)) (i : nat) (old new : list nat) :
  adj !! i = Some old →
  entries (<[i := new]> adj) + length old = entries adj + length new.
Proof.
  unfold entries. revert i. induction adj as [|a adj IH]; intros [|i] H;
    simplify_eq/=; [lia|].
  specialize (IH _ H). lia.
Qed.

Lemma length_remove_first (v : nat) (a : list nat) :
  length (remove_first v a) ≤ length a.
Proof. induction a as [|x a IH]; simpl; [lia|]. case_decide; simpl; lia. Qed.

Lemma length_removelast {A : Type} (a : list A) (x : A) :
  last a = Some x → S (length (removelast a)) = length a.
Proof.
  intros H. destruct (last_Some a x) as [[a' ->] _]; [done|].
  rewrite removelast_last, length_app. simpl. lia.
Qed.

(** Every iteration that continues goes down in [lex]. *)
Lemma step_decreases (st st' : state) :
  step st = Continue st' → lex (measure st') (measure st).
Proof.
  unfold step, measure, lex. intros H.
  destruct (last (stack st)) as [v|] eqn:Hv; [|done].
  destruct (adjList st !! v) as [nv|] eqn:Hnv; [|done].
  destruct (last nv) as [u|] eqn:Hu.
  - destruct (<[v:=removelast nv]> (adjList st) !! u) as [nu|] eqn:Hnu; [|done].
    simplify_eq/=. apply left_lex.
    pose proof (entries_insert _ _ _ (removelast nv) Hnv) as E1.
    pose proof (entries_insert _ _ _ (remove_first v nu) Hnu) as E2.
    pose proof (length_removelast _ _ Hu).
    pose proof (length_remove_first v nu). lia.
  - simplify_eq/=. apply right_lex.
    pose proof (length_removelast _ _ Hv). lia.
Qed.

(** [lex] is well founded.  The guard of [Acc_intro] layers lets closed
    calls of the loop evaluate without unfolding the proofs. *)
#[local] Instance lex_wf : WellFounded lex :=
  Acc_intro_generator 32 (wf_lexprod nat nat lt lt lt_wf lt_wf).
#[local] Opaque lex_wf.

(** A value together with the equation that it is the value. *)
Definition inspect {A : Type} (x : A) : {y : A | x = y} := exist _ x eq_refl.

(** Lines 396-410: the [while] loop, by well-founded recursion on
    [lex]; the result is [circuit] when the stack is empty. *)
Equations? loop (st : state) : option (list nat)
    by wf (measure st) lex :=
  loop st with inspect (step st) := {
    | exist _ Finished _ => Some (circuit st)
    | exist _ Thrown _ => None
    | exist _ (Continue st') H => loop st' }.
Proof. by apply step_decreases. Qed.
#[local] Transparent lex_wf.

(** [findEulerianCircuit]. *)
Definition findEulerianCircuit (graph : list (list nat)) (start : nat)
    : option (list nat) :=
  reverse <$> loop (mkState graph [start] []).

End Euler.

Module Christofides.

Definition plain (e : wedge) : edge := mkEdge (wfrom e) (wto e).

(** Lines 234-238: [degree[i]++] for both ends of every tree edge.  The
    ends of the edges of [primMST] are indices of the matrix. *)
Definition degrees (n : nat) (mst : list wedge) : list nat :=
  foldl (λ degree e, alter S (wto e) (alter S (wfrom e) degree))
    (replicate n 0) mst.

(** Lines 240-245. *)
Definition oddVertices (n : nat) (degree : list nat) : list nat :=
  for_loop n 0
    (λ i acc, if decide (degree !!! i mod 2 = 1) then acc ++ [i] else acc) [].

(** Lines 269-270 and 273-274: both directions of one edge. *)
Definition add_edge (g : list (list nat)) (e : edge) : list (list nat) :=
  alter (λ l, l ++ [from e]) (to e) (alter (λ l, l ++ [to e]) (from e) g).

(** Lines 267-275. *)
Definition eulerianGraph (n : nat) (mst : list wedge) (matching : list edge)
    : list (list nat) :=
  foldl add_edge (foldl add_edge (replicate n []) (plain <$> mst)) matching.

(** Lines 296-303: keep the first occurrence of every vertex; the state
    is [(visited, path)]. *)
Definition shortcut (circuit : list nat) : list nat :=
  (foldl (λ (s : gset nat * list nat) vertex,
            if decide (vertex ∈ s.1) then s
            else ({[vertex]} ∪ s.1, s.2 ++ [vertex]))
     (∅, []) circuit).2.

(** Lines 306-310. *)
Definition tourCost (d : matrix) (p : list nat) : num :=
  num_add
    (for_loop (length p - 1) 0
       (λ i c, num_add c (entry d (p !!! i) (p !!! (i + 1)))) (Fin 0))
    (entry d (last_node p) (p !!! 0)).

(** [christofidesTSP]. *)
Definition christofidesTSP (clk : clock) (d : matrix) : option TSPResult :=
  let n := length d in
  let mst := Prim.primMST d in
  let mstEdges := plain <$> mst in
  let odd := oddVertices n (degrees n mst) in
  let matching := Matching.minimumWeightMatching odd d in
  let graph := eulerianGraph n mst matching in
  circuit ← Euler.findEulerianCircuit graph 0;
  let p := shortcut circuit in
  let total := tourCost d p in
  Some (mkResult p total (elapsed clk)
    [mkStep [Str "Step 1: Find Minimum Spanning Tree (MST)"] None [] []
       None None None (Some [Str "Using Prim's algorithm to find MST"]);
     mkStep [Str "MST computed"] None [] [] (Some mstEdges) None None
       (Some [Str "MST has "; Node (length mst); Str " edges"]);
     mkStep [Str "Step 2: Find vertices with odd degree"] None odd []
       None None None
       (Some [Str "Found "; Node (length odd);
              Str " vertices with odd degree: ["; Joined odd; Str "]"]);
     mkStep [Str "Step 3: Find minimum weight perfect matching"] None odd []
       (Some matching) None None
       (Some [Str "Created "; Node (length matching); Str " matching pairs"]);
     mkStep [Str "Step 4: Combine MST and matching to form Eulerian graph"]
       None [] [] (Some (mstEdges ++ matching)) None None
       (Some [Str "All vertices now have even degree"]);
     mkStep [Str "Step 5: Find Eulerian circuit"] None circuit circuit
       None None None
       (Some [Str "Eulerian circuit visits "; Node (length circuit);
              Str " vertices (with repetitions)"]);
     mkStep [Str "Step 6: Create Hamiltonian circuit by removing duplicates"]
       None p p None None (Some total)
       (Some [Str "Final tour with "; Node (length p);
              Str " unique vertices. Total cost: "; Fixed2 total])]).

End Christofides.

(** * The callers of the solvers

    [App.tsx] builds the matrix, runs the three solvers and hands their
    results to the components.  Of the components the embedding keeps what
    they compute from a result: the step that is shown, the texts, the
    list of edges.  React's rendering and timers are not modelled: a
    handler is a function from the state it reads to the state it sets. *)

(** ** [src/utils/graph-generator.ts]

    Listed after [components/ReactFlowGraph.tsx], lines 182-236.

    The caller builds the distance matrix with [createDistanceMatrix] and
    has [calculatePathCost] to price a tour on its own.
    [calculateDistance] takes a square root of doubles, which the number
    model does not have: it is a parameter of [createDistanceMatrix].
    [generateRandomPoints] draws from [Math.random] and is not modelled. *)
Module GraphGenerator.

Record Point : Type := mkPoint { x : num; y : num; id : nat }.

#[global] Instance Point_inhabited : Inhabited Point :=
  populate (mkPoint NaN NaN 0).

Section Distances.
Variable calculateDistance : Point → Point → num.

(** Lines 213-226: [n] rows of [n] zeros, then every entry off the
    diagonal is overwritten. *)
Definition createDistanceMatrix (points : list Point) : matrix :=
  let n := length points in
  for_loop n 0
    (λ i m, for_loop n 0
       (λ j m, if decide (i ≠ j)
               then alter (λ row, <[j := calculateDistance (points !!! i)
                                           (points !!! j)]> row) i m
               else m) m)
    (replicate n (replicate n (Fin 0))).

End Distances.

(** Lines 230-232: one round of the loop; [None] is the exception.  A
    row of the matrix that is missing throws (a property read on
    [undefined]); a column that is missing adds [undefined], which makes
    the sum [NaN]. *)
Definition leg (d : matrix) (p : list nat) (i : nat) (cost : option num)
    : option num :=
  c ← cost;
  row ← d !! (p !!! i);
  Some (num_add c (default NaN (row !! (p !!! (i + 1))))).

(** [calculatePathCost].  On the empty path [path[path.length - 1]] is
    [undefined] and so is the row read with it: the closing read throws. *)
Definition calculatePathCost (p : list nat) (d : matrix) : option num :=
  c ← for_loop (length p - 1) 0 (leg d p) (Some (Fin 0));
  l ← last p;
  row ← d !! l;
  Some (num_add c (default NaN (row !! (p !!! 0)))).

End GraphGenerator.

(** ** [components/AlgorithmStepper.tsx] *)
Module AlgorithmStepper.

(** Line 28: [steps[currentStep] || steps[0]]; [None] is [undefined], on
    which the read of [step.description] throws. *)
Definition shown (steps : list AlgorithmStep) (currentStep : nat)
    : option AlgorithmStep :=
  match steps !! currentStep with
  | Some s => Some s
  | None => steps !! 0
  end.

(** Lines 30-44: the value passed to [onStepChange], or the current step
    when the handler does not call it. *)
Definition handlePrevious (currentStep : nat) : nat :=
  if 0 <? currentStep then currentStep - 1 else currentStep.

Definition handleNext (steps : list AlgorithmStep) (currentStep : nat) : nat :=
  if (Z.of_nat currentStep <? Z.of_nat (length steps) - 1)%Z
  then currentStep + 1 else currentStep.

Definition handleReset : nat := 0.

(** Lines 65-70: the cost line, absent when the step has no cost. *)
Definition costLine (s : AlgorithmStep) : option piece :=
  Fixed2 <$> stepCost s.

(** Lines 72-80: the nodes of the path line in the order shown, each
    followed by an arrow but the last; absent when the path is empty. *)
Definition pathLine (s : AlgorithmStep) : option (list nat) :=
  match currentPath s with
  | [] => None
  | [a] => Some [a]
  | a :: _ => Some (currentPath s ++ [a])
  end.

End AlgorithmStepper.

(** ** [components/AlgorithmResults.tsx] *)
Module AlgorithmResults.

(** What a field of the card shows. *)
Inductive shown : Type :=
| Words (s : string)
| Amount (x : num)            (* x.toFixed(2) *)
| Route (l : list nat).       (* the nodes of l joined by arrows *)


(** Line 44: [path.join(' → ') + ' → ' + path[0]]. *)
Definition pathText (path : list nat) : shown :=
  match path with
  | [] => Words "N/A"
  | a :: _ => Route (path ++ [a])
  end.

End AlgorithmResults.

(** ** [components/ReactFlowGraph.tsx]: the list of edges *)
Module ReactFlowGraph.

(** The four loops that push edges, told apart by their stroke. *)
Inductive stroke : Type := Background | Exploring | CurrentHighlight | Solution.

(** An edge of the drawing.  [source] and [target] are [String(i)] of a
    node index, kept as the index. *)
Record Edge : Type := mkFlowEdge {
  id : text;
  source : nat;
  target : nat;
  style : stroke;
  label : option nat
}.

(** [path.indexOf(x)]: the first index, or [-1]. *)
Fixpoint indexOf (l : list nat) (x : nat) : Z :=
  match l with
  | [] => (-1)%Z
  | y :: l' =>
      if decide (y = x) then 0%Z
      else let k := indexOf l' x in
           if (k <? 0)%Z then (-1)%Z else (k + 1)%Z
  end.

(** Lines 65-70. *)
Definition isInPath (path : list nat) (i j : nat) : bool :=
  (0 <? length path) &&
  (bool_decide (i ∈ path) && bool_decide (j ∈ path) &&
   (Z.abs (indexOf path i - indexOf path j) =? 1)%Z
   || bool_decide (path !! 0 = Some i) && bool_decide (last path = Some j)
   || bool_decide (path !! 0 = Some j) && bool_decide (last path = Some i)).

Definition joined (e : edge) (i j : nat) : bool :=
  bool_decide (from e = i) && bool_decide (to e = j)
  || bool_decide (from e = j) && bool_decide (to e = i).

(** Lines 72-74. *)
Definition isHighlighted (highlightEdges : list edge) (i j : nat) : bool :=
  existsb (λ e, joined e i j) highlightEdges.

(** Lines 76-79. *)
Definition isCurrentHighlight (highlightEdge : option edge) (i j : nat) : bool :=
  match highlightEdge with
  | Some e => joined e i j
  | None => false
  end.

(** Lines 63-91: a gray edge for every pair that no other loop draws. *)
Definition background (n : nat) (path : list nat) (highlightEdges : list edge)
    (highlightEdge : option edge) : list Edge :=
  for_loop n 0
    (λ i edges,
       for_loop (n - (i + 1)) (i + 1)
         (λ j edges,
            if negb (isInPath path i j) && negb (isHighlighted highlightEdges i j)
               && negb (isCurrentHighlight highlightEdge i j)
            then edges ++ [mkFlowEdge [Str "e"; Node i; Str "-"; Node j]
                             i j Background None]
            else edges)
         edges)
    [].

(** Lines 94-102. *)
Definition exploring (highlightEdges : list edge) : list Edge :=
  imap (λ idx e, mkFlowEdge [Str "highlight-"; Node idx]
                   (from e) (to e) Exploring None) highlightEdges.

(** Lines 105-117. *)
Definition current (highlightEdge : option edge) : list Edge :=
  match highlightEdge with
  | Some e => [mkFlowEdge [Str "current-highlight"] (from e) (to e)
                 CurrentHighlight None]
  | None => []
  end.

(** Lines 120-139: the path with arrows, closed by an edge back to its
    first node. *)
Definition solution (path : list nat) : list Edge :=
  for_loop (length path) 0
    (λ i edges,
       edges ++
       [mkFlowEdge [Str "path-"; Node i] (path !!! i)
          (if i <? length path - 1 then path !!! (i + 1) else path !!! 0)
          Solution (Some (i + 1))])
    [].

(** Lines 59-142: [initialEdges] for [points.length = n]. *)
Definition initialEdges (n : nat) (path : list nat) (highlightEdges : list edge)
    (highlightEdge : option edge) : list Edge :=
  background n path highlightEdges highlightEdge
  ++ exploring highlightEdges ++ current highlightEdge ++ solution path.

End ReactFlowGraph.

(** ** [App.tsx]

    Listed after [src/utils/tsp-algorithms.ts], lines 414-775. *)
Module App.

(** Lines 458-479: [runAlgorithms].  Each solver reads the clock on its
    own.  An exception of a solver leaves the callback and no result is
    set. *)
Inductive outcome : Type :=
| Skipped                     (* the guard of line 459 returned *)
| Threw
| Ran (greedy heldKarp christofides : TSPResult).

Definition runAlgorithms (clkG clkH clkC : clock) (distanceMatrix : matrix)
    : outcome :=
  if decide (length distanceMatrix = 0) then Skipped
  else
    match Greedy.greedyTSP clkG distanceMatrix with
    | None => Threw
    | Some greedy =>
        match HeldKarp.heldKarpTSP clkH distanceMatrix with
        | None => Threw
        | Some heldKarp =>
            match Christofides.christofidesTSP clkC distanceMatrix with
            | None => Threw
            | Some christofides => Ran greedy heldKarp christofides
            end
        end
    end.

(** The step index and the play flag that [App] keeps for one solver. *)
Record player : Type := mkPlayer { stepIndex : nat; isPlaying : bool }.

(** Lines 482-496 (and the two copies below them): the update that the
    interval runs while [isPlaying] is set. *)
Definition tick (steps : list AlgorithmStep) (p : player) : player :=
  if negb (isPlaying p) then p
  else if (Z.of_nat (length steps) - 1 <=? Z.of_nat (stepIndex p))%Z
       then mkPlayer (stepIndex p) false
       else mkPlayer (stepIndex p + 1) (isPlaying p).

(** What the user or the interval does to the player of one solver. *)
Inductive event : Type :=
| Previous | Next | Reset
| Slide (v : nat)             (* the slider, line 87 *)
| PlayPause                   (* line 728 *)
| Tick.

Definition react (steps : list AlgorithmStep) (p : player) (e : event)
    : player :=
  match e with
  | Previous =>
      mkPlayer (AlgorithmStepper.handlePrevious (stepIndex p)) (isPlaying p)
  | Next =>
      mkPlayer (AlgorithmStepper.handleNext steps (stepIndex p)) (isPlaying p)
  | Reset => mkPlayer AlgorithmStepper.handleReset (isPlaying p)
  | Slide v => mkPlayer v (isPlaying p)
  | PlayPause => mkPlayer (stepIndex p) (negb (isPlaying p))
  | Tick => tick steps p
  end.


End App.

(** ** Example inputs *)

Definition clk0 : clock := (Fin 0, Fin 1).

(** Four points on a square, distances scaled to integers. *)
Definition square4 : matrix :=
  [[Fin 0; Fin 10; Fin 14; Fin 10];
   [Fin 10; Fin 0; Fin 10; Fin 14];
   [Fin 14; Fin 10; Fin 0; Fin 10];
   [Fin 10; Fin 14; Fin 10; Fin 0]].

(** The single-node matrix. *)
Definition single_node : matrix := [[Fin 0]].

(** Sixteen nodes, all at distance 0. *)
Definition zero16 : matrix := replicate 16 (replicate 16 (Fin 0)).

(** * Properties *)

(** ** Valid distance matrices *)

(** Square, at least one node, finite non-negative entries. *)
Definition square_nonnegb (d : matrix) : bool :=
  (1 <=? length d)
  && forallb (λ row, length row =? length d) d
  && forallb (forallb is_dist) d.

Definition square_nonneg (d : matrix) : Prop := square_nonnegb d = true.

(** A valid distance matrix: moreover zero on the diagonal and symmetric. *)
Definition valid_matrixb (d : matrix) : bool :=
  square_nonnegb d
  && forallb (λ i, bool_decide (entry d i i = Fin 0)) (seq 0 (length d))
  && forallb (λ i, forallb (λ j, bool_decide (entry d i j = entry d j i))
                     (seq 0 (length d))) (seq 0 (length d)).

Definition valid_matrix (d : matrix) : Prop := valid_matrixb d = true.

(** The part of validity the solvers rely on: every entry is a finite
    number. *)
Definition finite_matrix (d : matrix) : Prop :=
  ∀ i j, i < length d → j < length d → ∃ z, d !! i ≫= (.!! j) = Some (Fin z).

Lemma forallb_lookup {A : Type} (f : A → bool) (l : list A) (i : nat) (x : A) :
  forallb f l = true → l !! i = Some x → f x = true.
Proof.
  rewrite forallb_forall. intros H Hx. apply H, list_elem_of_In.
  by eapply list_elem_of_lookup_2.
Qed.

Lemma square_nonneg_finite (d : matrix) : square_nonneg d → finite_matrix d.
Proof.
  unfold square_nonneg, square_nonnegb. rewrite !andb_true_iff.
  intros [[_ Hsq] Hfin] i j Hi Hj.
  destruct (lookup_lt_is_Some_2 d i Hi) as [row Hrow]. rewrite Hrow. simpl.
  pose proof (forallb_lookup _ _ _ _ Hsq Hrow) as Hlen.
  apply Nat.eqb_eq in Hlen.
  destruct (lookup_lt_is_Some_2 row j ltac:(lia)) as [x Hx]. rewrite Hx.
  pose proof (forallb_lookup _ _ _ _ (forallb_lookup _ _ _ _ Hfin Hrow) Hx) as Hd.
  destruct x; try done. by exists z.
Qed.

Lemma square_nonneg_nonempty (d : matrix) : square_nonneg d → 1 ≤ length d.
Proof.
  unfold square_nonneg, square_nonnegb. rewrite !andb_true_iff.
  intros [[H _] _]. by apply Nat.leb_le.
Qed.

Lemma valid_square (d : matrix) : valid_matrix d → square_nonneg d.
Proof.
  unfold valid_matrix, valid_matrixb. rewrite !andb_true_iff. by intros [[? _] _].
Qed.

Lemma valid_finite (d : matrix) : valid_matrix d → finite_matrix d.
Proof. intros H. by apply square_nonneg_finite, valid_square. Qed.

Lemma valid_nonempty (d : matrix) : valid_matrix d → 1 ≤ length d.
Proof. intros H. by apply square_nonneg_nonempty, valid_square. Qed.

Lemma finite_entry (d : matrix) (i j : nat) :
  finite_matrix d → i < length d → j < length d → ∃ z, entry d i j = Fin z.
Proof.
  intros H Hi Hj. destruct (H i j Hi Hj) as [z Hz]. exists z.
  unfold entry. destruct (d !! i) as [row|]; [|done]. simpl in Hz. by rewrite Hz.
Qed.

(** ** Loops *)

Lemma for_loop_snoc {St : Type} (body : nat → St → St) (k lo : nat) (s : St) :
  for_loop (S k) lo body s = body (lo + k) (for_loop k lo body s).
Proof.
  revert lo s. induction k as [|k IH]; intros lo s.
  - simpl. by rewrite Nat.add_0_r.
  - change (for_loop (S (S k)) lo body s)
      with (for_loop (S k) (S lo) body (body lo s)).
    rewrite IH. simpl. do 2 f_equal. lia.
Qed.

(** Invariant rule for a counted loop. *)
Lemma for_loop_ind {St : Type} (P : nat → St → Prop) (body : nat → St → St)
    (k lo : nat) (s : St) :
  P 0 s →
  (∀ i t, i < k → P i t → P (S i) (body (lo + i) t)) →
  P k (for_loop k lo body s).
Proof.
  intros H0 Hstep. induction k as [|k IH]; [done|].
  rewrite for_loop_snoc. apply Hstep; [lia|]. apply IH.
  intros i t Hi. apply Hstep. lia.
Qed.

(** ** Arithmetic of [num] *)

Ltac num_cases :=
  repeat match goal with
         | x : num |- _ => destruct x
         end;
  simpl in *; try done;
  repeat match goal with
         | H : (_ <? _)%Z = true |- _ => apply Z.ltb_lt in H
         | H : (_ <? _)%Z = false |- _ => apply Z.ltb_ge in H
         | H : (_ <=? _)%Z = true |- _ => apply Z.leb_le in H
         | H : (_ <=? _)%Z = false |- _ => apply Z.leb_gt in H
         | |- (_ <? _)%Z = true => apply Z.ltb_lt
         | |- (_ <? _)%Z = false => apply Z.ltb_ge
         | |- (_ <=? _)%Z = true => apply Z.leb_le
         | |- (_ <=? _)%Z = false => apply Z.leb_gt
         end;
  try lia.

Lemma num_ltb_Inf_l (a : num) : num_ltb Inf a = false.
Proof. by destruct a. Qed.

Lemma num_ltb_fin (a b : num) : num_ltb a b = true → ∃ z, a = Fin z.
Proof. destruct a as [z| |]; [by exists z|by destruct b|done]. Qed.

Lemma num_leb_fin (a : num) (z : Z) :
  num_leb a (Fin z) = true → ∃ y, a = Fin y ∧ (y ≤ z)%Z.
Proof. destruct a as [y| |]; try done. simpl. intros H. exists y. split; [done|]. by apply Z.leb_le. Qed.

Lemma num_ltb_leb_trans (a b c : num) :
  num_ltb a b = true → num_leb b c = true → num_ltb a c = true.
Proof. intros. num_cases. Qed.

Lemma num_ltb_leb (a b : num) : num_ltb a b = true → num_leb a b = true.
Proof. intros. num_cases. Qed.

(** ** Greedy: the scan for the nearest unvisited node *)

(** [m] is the unvisited node nearest to [cur] among the nodes below [k],
    the lowest index among those at minimal distance. *)
Definition nearest_of (d : matrix) (unvisited : nat → Prop) (cur k m : nat)
    : Prop :=
  m < k ∧ unvisited m ∧
  ∀ j, j < k → unvisited j →
    num_leb (entry d cur m) (entry d cur j) = true ∧
    (j < m → num_ltb (entry d cur m) (entry d cur j) = true).

Lemma greedy_scan_spec (d : matrix) (vis : list bool) (cur n k : nat) :
  (∀ j, j < n → ∃ z, entry d cur j = Fin z) →
  k ≤ n →
  match for_loop k 0 (Greedy.scan_body d vis cur) (None, Inf) with
  | (None, minDistance) => minDistance = Inf ∧ ∀ j, j < k → flag vis j = true
  | (Some m, minDistance) =>
      minDistance = entry d cur m ∧
      nearest_of d (λ j, flag vis j = false) cur k m
  end.
Proof.
  intros Hfin Hk.
  apply (for_loop_ind (λ i (s : option nat * num),
    i ≤ n →
    match s with
    | (None, minDistance) => minDistance = Inf ∧ ∀ j, j < i → flag vis j = true
    | (Some m, minDistance) =>
        minDistance = entry d cur m ∧
        nearest_of d (λ j, flag vis j = false) cur i m
    end)); [| |done].
  - intros _. split; [done|]. intros j Hj. lia.
  - intros i [nearest minDistance] Hi IH Hle. specialize (IH ltac:(lia)).
    unfold Greedy.scan_body. simpl.
    destruct (Hfin i ltac:(lia)) as [zi Hzi].
    destruct (flag vis i) eqn:Hvis; simpl.
    + (* already visited: the state is kept *)
      destruct nearest as [m|].
      * destruct IH as [-> (Hm & Hum & Hmin)]. split; [done|].
        split; [lia|]. split; [done|]. intros j Hj Huj.
        destruct (decide (j = i)) as [->|]; [congruence|].
        apply Hmin; [lia|done].
      * destruct IH as [-> Hall]. split; [done|]. intros j Hj.
        destruct (decide (j = i)) as [->|]; [done|]. apply Hall. lia.
    + destruct (num_ltb (entry d cur i) minDistance) eqn:Hlt.
      * (* a strictly nearer node *)
        split; [done|]. split; [lia|]. split; [done|]. intros j Hj Huj.
        destruct (decide (j = i)) as [->|Hne].
        { split; [|lia]. rewrite Hzi. simpl. by apply Z.leb_le. }
        destruct nearest as [m|].
        -- destruct IH as [-> (Hm & Hum & Hmin)].
           destruct (Hmin j ltac:(lia) Huj) as [Hmj _].
           pose proof (num_ltb_leb_trans _ _ _ Hlt Hmj) as Hij.
           split; [by apply num_ltb_leb|done].
        -- destruct IH as [-> Hall]. rewrite Hall in Huj by lia. done.
      * destruct nearest as [m|].
        -- destruct IH as [-> (Hm & Hum & Hmin)]. split; [done|].
           split; [lia|]. split; [done|]. intros j Hj Huj.
           destruct (decide (j = i)) as [->|Hne]; [|apply Hmin; [lia|done]].
           destruct (Hfin m ltac:(lia)) as [zm Hzm].
           rewrite Hzi, Hzm in *. simpl in *. apply Z.ltb_ge in Hlt.
           split; [apply Z.leb_le; lia|lia].
        -- destruct IH as [-> Hall]. rewrite Hzi in Hlt. done.
Qed.

(** ** Greedy: the invariant of the outer loop *)

(** The distances between consecutive nodes of [p]. *)
Fixpoint legs (d : matrix) (p : list nat) : list num :=
  match p with
  | a :: (b :: _) as rest => entry d a b :: legs d rest
  | _ => []
  end.

(** The cost of the closed tour [p], recomputed from the matrix: the legs
    summed from left to right, then the edge from the last node back to the
    first. *)
Definition tour_cost (d : matrix) (p : list nat) : num :=
  num_add (foldl num_add (Fin 0) (legs d p))
          (entry d (last_node p) (default 0 (head p))).

(** Every node of [p] after the first is the nearest unvisited node of its
    predecessor, lowest index first. *)
Definition choices_ok (d : matrix) (n : nat) (p : list nat) : Prop :=
  ∀ k cur nxt, p !! k = Some cur → p !! S k = Some nxt →
    nearest_of d (λ j, j ∉ take (S k) p) cur n nxt.

Definition greedy_start : AlgorithmStep :=
  mkStep [Str "Start at node 0"] (Some 0) [0] [0] None None (Some (Fin 0))
    (Some [Str "Greedy algorithm always starts at node 0"]).

Record greedy_inv (d : matrix) (n i : nat) (s : Greedy.state) : Prop := {
  gi_vis_len : length (Greedy.visited s) = n;
  gi_len : length (Greedy.gpath s) = S i;
  gi_head : head (Greedy.gpath s) = Some 0;
  gi_nodup : NoDup (Greedy.gpath s);
  gi_range : ∀ x, x ∈ Greedy.gpath s → x < n;
  gi_vis : ∀ j, j < n → flag (Greedy.visited s) j = true ↔ j ∈ Greedy.gpath s;
  gi_cost : Greedy.totalCost s = foldl num_add (Fin 0) (legs d (Greedy.gpath s));
  gi_choice : choices_ok d n (Greedy.gpath s);
  gi_steps : head (Greedy.gsteps s) = Some greedy_start
}.

Lemma last_node_snoc (p : list nat) (x : nat) : last_node (p ++ [x]) = x.
Proof. unfold last_node. by rewrite last_snoc. Qed.

Lemma last_node_elem (p : list nat) : p ≠ [] → last_node p ∈ p.
Proof.
  intros H. destruct p as [|a p] using rev_ind; [done|].
  rewrite last_node_snoc. apply elem_of_app. right. by left.
Qed.

Lemma legs_snoc (d : matrix) (p : list nat) (x : nat) :
  p ≠ [] → legs d (p ++ [x]) = legs d p ++ [entry d (last_node p) x].
Proof.
  induction p as [|a p IH]; [done|]. intros _.
  destruct p as [|b p]; [done|].
  change (legs d ((a :: b :: p) ++ [x]))
    with (entry d a b :: legs d ((b :: p) ++ [x])).
  rewrite IH by done.
  replace (last_node (a :: b :: p)) with (last_node (b :: p)); [done|].
  unfold last_node. done.
Qed.

Lemma nearest_of_ext (d : matrix) (P Q : nat → Prop) (cur k m : nat) :
  (∀ j, j < k → P j ↔ Q j) → nearest_of d P cur k m → nearest_of d Q cur k m.
Proof.
  intros HPQ (Hm & HP & Hmin). split; [done|]. split; [by apply HPQ|].
  intros j Hj HQ. apply Hmin; [done|]. by apply HPQ.
Qed.

Lemma flag_false_iff (vis : list bool) (p : list nat) (j : nat) :
  (flag vis j = true ↔ j ∈ p) → (flag vis j = false ↔ j ∉ p).
Proof.
  intros H. destruct (flag vis j); split; intros H'; try done.
  - exfalso. apply H'. by apply H.
  - intros Hin. by apply H in Hin.
Qed.

(** Fewer than [n] distinct nodes below [n] leave one of them out. *)
Lemma missing_node (p : list nat) (n : nat) :
  NoDup p → length p < n → ∃ j, j < n ∧ j ∉ p.
Proof.
  intros Hnd Hlen.
  destruct (decide (Forall (λ j, j ∈ p) (seq 0 n))) as [Hall|Hex].
  - assert (seq 0 n ⊆+ p) as Hsub.
    { apply NoDup_submseteq; [apply NoDup_seq|].
      intros x Hx. by eapply Forall_forall in Hall. }
    apply submseteq_length in Hsub. rewrite length_seq in Hsub. lia.
  - apply not_Forall_Exists in Hex; [|intros x; apply _].
    apply Exists_exists in Hex as (j & Hj & Hnot).
    apply elem_of_seq in Hj. exists j. split; [lia|done].
Qed.

Lemma greedy_init_inv (d : matrix) (n : nat) :
  1 ≤ n → greedy_inv d n 0 (Greedy.init n).
Proof.
  intros Hn. destruct n as [|n]; [lia|].
  split; simpl; try done.
  - by rewrite length_replicate.
  - apply NoDup_singleton.
  - intros x Hx. apply list_elem_of_singleton in Hx. lia.
  - intros j Hj. unfold flag. destruct j as [|j]; simpl.
    + split; [intros _; by left|done].
    + rewrite lookup_replicate_2 by lia. simpl.
      split; [done|]. intros Hx. apply list_elem_of_singleton in Hx. lia.
Qed.


Lemma greedy_after_succ (d : matrix) (i : nat) :
  Greedy.after d (S i) = Greedy.iteration d (length d) (Greedy.after d i).
Proof. unfold Greedy.after. by rewrite for_loop_snoc. Qed.

(** While fewer than [n] nodes are on the path, the scan finds the nearest
    unvisited node: the branch [nearest === -1] is not taken. *)
Lemma greedy_scan_finds (d : matrix) (i : nat) (s : Greedy.state) :
  finite_matrix d → greedy_inv d (length d) i s → S i < length d →
  ∃ m, Greedy.scan d (Greedy.visited s) (last_node (Greedy.gpath s)) (length d)
         = (Some m, entry d (last_node (Greedy.gpath s)) m) ∧
       nearest_of d (λ j, j ∉ Greedy.gpath s)
         (last_node (Greedy.gpath s)) (length d) m.
Proof.
  intros Hfin Hinv Hi. destruct Hinv.
  set (cur := last_node (Greedy.gpath s)).
  assert (cur < length d) as Hcur.
  { apply gi_range0, last_node_elem. intros E. by rewrite E in gi_len0. }
  pose proof (greedy_scan_spec d (Greedy.visited s) cur (length d) (length d)
    (λ j Hj, finite_entry d cur j Hfin Hcur Hj) (le_n _)) as Hscan.
  unfold Greedy.scan.
  destruct (for_loop _ _ _ _) as [[m|] minDistance].
  - destruct Hscan as [-> Hnear]. exists m. split; [done|].
    eapply nearest_of_ext; [|exact Hnear].
    intros j Hj. apply flag_false_iff. by apply gi_vis0.
  - destruct Hscan as [_ Hall].
    destruct (missing_node (Greedy.gpath s) (length d) gi_nodup0 ltac:(lia))
      as (j & Hj & Hnot).
    exfalso. apply Hnot. apply gi_vis0; [done|]. by apply Hall.
Qed.

Lemma greedy_step_inv (d : matrix) (i : nat) (s : Greedy.state) :
  finite_matrix d → greedy_inv d (length d) i s → S i < length d →
  greedy_inv d (length d) (S i) (Greedy.iteration d (length d) s).
Proof.
  intros Hfin Hinv Hi.
  destruct (greedy_scan_finds d i s Hfin Hinv Hi) as (m & Hscan & Hnear).
  destruct Hinv. unfold Greedy.iteration. rewrite Hscan. clear Hscan.
  destruct Hnear as (Hm & Hnew & Hmin).
  assert (Greedy.gpath s ≠ []) as Hne.
  { intros E. by rewrite E in gi_len0. }
  split; simpl.
  - by rewrite length_insert.
  - rewrite length_app. simpl. lia.
  - destruct (Greedy.gpath s); done.
  - apply NoDup_app. split; [done|]. split; [|apply NoDup_singleton].
    intros x Hx Hx'. apply list_elem_of_singleton in Hx'. by subst.
  - intros x Hx. apply elem_of_app in Hx as [Hx|Hx]; [by apply gi_range0|].
    apply list_elem_of_singleton in Hx. by subst.
  - intros j Hj. unfold flag. rewrite elem_of_app, list_elem_of_singleton.
    destruct (decide (j = m)) as [->|Hjm].
    + rewrite list_lookup_insert_eq by lia. simpl. tauto.
    + rewrite list_lookup_insert_ne by done.
      specialize (gi_vis0 j Hj). unfold flag in gi_vis0.
      split; [tauto|]. intros [?|?]; [tauto|done].
  - rewrite legs_snoc by done. rewrite foldl_app. simpl. by rewrite gi_cost0.
  - intros k cur nxt Hcur Hnxt.
    destruct (decide (S k < length (Greedy.gpath s))) as [Hk|Hk].
    + rewrite lookup_app_l in Hcur by lia. rewrite lookup_app_l in Hnxt by lia.
      rewrite take_app_le by lia. by apply gi_choice0.
    + assert (S k = length (Greedy.gpath s)) as Hk'.
      { apply lookup_lt_Some in Hnxt. rewrite length_app in Hnxt.
        simpl in Hnxt. lia. }
      rewrite lookup_app_l in Hcur by lia.
      rewrite Hk', list_lookup_middle in Hnxt by done.
      rewrite Hk', take_app_length. injection Hnxt as <-. clear Hk.
      replace cur with (last_node (Greedy.gpath s)); [done|].
      unfold last_node. rewrite last_lookup.
      replace (pred (length (Greedy.gpath s))) with k by lia.
      by rewrite Hcur.
  - destruct (Greedy.gsteps s); done.
Qed.

Lemma greedy_after_inv (d : matrix) (i : nat) :
  finite_matrix d → S i ≤ length d →
  greedy_inv d (length d) i (Greedy.after d i).
Proof.
  intros Hfin. induction i as [|i IH]; intros Hi.
  - apply greedy_init_inv. lia.
  - rewrite greedy_after_succ. apply greedy_step_inv; [done| |lia].
    apply IH. lia.
Qed.

Lemma filter_ext_elem {A : Type} (P Q : A → Prop) `{∀ x, Decision (P x)}
    `{∀ x, Decision (Q x)} (l : list A) :
  (∀ x, x ∈ l → P x ↔ Q x) → filter P l = filter Q l.
Proof.
  induction l as [|x l IH]; intros Hext; [done|].
  rewrite !filter_cons, IH.
  - pose proof (Hext x ltac:(by left)). repeat case_decide; tauto || done.
  - intros y Hy. apply Hext. by right.
Qed.

(** After [i] iterations, [n - 1 - i] nodes are unvisited. *)
Lemma greedy_unvisited_count (d : matrix) (i : nat) (s : Greedy.state) :
  greedy_inv d (length d) i s →
  length (filter (λ k, flag (Greedy.visited s) k = false) (seq 0 (length d)))
  = length d - 1 - i.
Proof.
  intros [].
  rewrite (filter_ext_elem _ (λ k, ¬ k ∈ Greedy.gpath s)).
  2:{ intros k Hk. apply elem_of_seq in Hk. apply flag_false_iff, gi_vis0. lia. }
  pose proof (filter_app_complement (λ k, k ∈ Greedy.gpath s) (seq 0 (length d)))
    as Hsplit.
  apply Permutation_length in Hsplit. rewrite length_app, length_seq in Hsplit.
  assert (filter (λ k, k ∈ Greedy.gpath s) (seq 0 (length d)) ≡ₚ Greedy.gpath s)
    as Hperm.
  { apply NoDup_Permutation; [apply NoDup_filter, NoDup_seq|done|].
    intros k. rewrite list_elem_of_filter, elem_of_seq. split; [tauto|].
    intros Hk. split; [done|]. specialize (gi_range0 k Hk). lia. }
  rewrite Hperm, gi_len0 in Hsplit. lia.
Qed.

(** [greedyTSP] returns on a finite matrix; the shape of what it returns. *)
Lemma greedy_result (clk : clock) (d : matrix) :
  finite_matrix d → 1 ≤ length d →
  ∃ r, Greedy.greedyTSP clk d = Some r ∧
       path r = Greedy.gpath (Greedy.after d (length d - 1)) ∧
       cost r = tour_cost d (path r) ∧
       head (steps r) = Some greedy_start ∧
       ∃ st, last (steps r) = Some st ∧
             currentPath st = path r ++ [0] ∧ stepCost st = Some (cost r).
Proof.
  intros Hfin Hn.
  pose proof (greedy_after_inv d (length d - 1) Hfin ltac:(lia)) as Hinv.
  destruct Hinv. unfold Greedy.greedyTSP.
  set (s := Greedy.after d (length d - 1)) in *.
  assert (Greedy.gpath s ≠ []) as Hne.
  { intros E. by rewrite E in gi_len0. }
  assert (last_node (Greedy.gpath s) < length d) as Hlast.
  { by apply gi_range0, last_node_elem. }
  destruct (Hfin _ 0 Hlast ltac:(lia)) as [z Hz].
  rewrite gi_head0. simpl.
  destruct (d !! last_node (Greedy.gpath s)) as [row|] eqn:Hrow; [|done].
  simpl in Hz. simpl. rewrite Hz. simpl.
  eexists. split; [done|]. simpl. split; [done|]. split.
  - unfold tour_cost, entry. rewrite gi_head0, <- gi_cost0, Hrow. simpl.
    by rewrite Hz.
  - split.
    + destruct (Greedy.gsteps s); done.
    + eexists. split; [apply last_snoc|]. done.
Qed.

Lemma greedy_path_perm (d : matrix) :
  finite_matrix d → 1 ≤ length d →
  Greedy.gpath (Greedy.after d (length d - 1)) ≡ₚ seq 0 (length d).
Proof.
  intros Hfin Hn.
  destruct (greedy_after_inv d (length d - 1) Hfin ltac:(lia)).
  apply submseteq_length_Permutation.
  - apply NoDup_submseteq; [done|]. intros x Hx. apply elem_of_seq.
    specialize (gi_range0 x Hx). lia.
  - rewrite length_seq. lia.
Qed.

(** ** 32-bit operators on small masks *)

Lemma to_int32_small (z : Z) : (- 2 ^ 31 ≤ z < 2 ^ 31)%Z → to_int32 z = z.
Proof.
  intros H. unfold to_int32.
  rewrite Z.mod_small by lia. lia.
Qed.

Lemma bit_pow (i : nat) : i ≤ 30 → bit i = (2 ^ Z.of_nat i)%Z.
Proof.
  intros Hi. unfold bit, shl32.
  rewrite (to_int32_small 1) by lia.
  rewrite Z.mod_small by lia.
  rewrite Z.shiftl_1_l.
  apply to_int32_small.
  assert (2 ^ Z.of_nat i ≤ 2 ^ 30)%Z by (apply Z.pow_le_mono_r; lia).
  lia.
Qed.

(** A mask over [n] nodes: a number below [2^n]. *)
Definition is_mask (n : nat) (m : Z) : Prop := (0 ≤ m < 2 ^ Z.of_nat n)%Z.

(** Node [i] is in the subset [m]. *)
Definition has (m : Z) (i : nat) : bool := Z.testbit m (Z.of_nat i).

Lemma is_mask_int32 (n : nat) (m : Z) :
  n ≤ 30 → is_mask n m → (- 2 ^ 31 ≤ m < 2 ^ 31)%Z.
Proof.
  intros Hn [H0 H1].
  assert (2 ^ Z.of_nat n ≤ 2 ^ 30)%Z by (apply Z.pow_le_mono_r; lia).
  lia.
Qed.

Lemma is_mask_bits (n : nat) (m : Z) :
  is_mask n m ↔ (0 ≤ m)%Z ∧ ∀ i, n ≤ i → has m i = false.
Proof.
  unfold is_mask, has. split.
  - intros [H0 H1]. split; [done|]. intros i Hi.
    destruct (decide (m = 0%Z)) as [->|Hm]; [apply Z.testbit_0_l|].
    apply Z.bits_above_log2; [done|].
    assert (Z.log2 m < Z.of_nat n)%Z by (apply Z.log2_lt_pow2; lia). lia.
  - intros [H0 Hhigh]. split; [done|].
    destruct (decide (m = 0%Z)) as [->|Hm]; [apply Z.pow_pos_nonneg; lia|].
    apply Z.log2_lt_pow2; [lia|].
    destruct (decide (Z.log2 m < Z.of_nat n)%Z) as [|Hge]; [done|].
    pose proof (Z.bit_log2 m ltac:(lia)) as Hbit.
    pose proof (Z.log2_nonneg m).
    specialize (Hhigh (Z.to_nat (Z.log2 m)) ltac:(lia)).
    rewrite Z2Nat.id in Hhigh by lia. congruence.
Qed.

Lemma and32_has (n : nat) (m : Z) (i : nat) :
  n ≤ 30 → is_mask n m → i ≤ 30 →
  and32 m (bit i) ≠ 0%Z ↔ has m i = true.
Proof.
  intros Hn Hm Hi. unfold and32, has.
  rewrite (to_int32_small m) by (apply (is_mask_int32 n); done).
  rewrite bit_pow by done.
  rewrite (to_int32_small (2 ^ _)).
  2:{ assert (2 ^ Z.of_nat i ≤ 2 ^ 30)%Z by (apply Z.pow_le_mono_r; lia). lia. }
  split.
  - intros Hne. destruct (Z.testbit m (Z.of_nat i)) eqn:Hb; [done|].
    exfalso. apply Hne. apply Z.bits_inj'. intros k Hk.
    rewrite Z.land_spec, Z.bits_0, Z.pow2_bits_eqb by lia.
    destruct (Z.eqb_spec (Z.of_nat i) k) as [<-|]; [by rewrite Hb|].
    apply andb_false_r.
  - intros Hb E.
    assert (Z.testbit (Z.land m (2 ^ Z.of_nat i)) (Z.of_nat i) = true) as Hc.
    { rewrite Z.land_spec, Hb, Z.pow2_bits_true by lia. done. }
    rewrite E, Z.bits_0 in Hc. done.
Qed.

Lemma or32_setbit (n : nat) (m : Z) (i : nat) :
  n ≤ 30 → is_mask n m → i ≤ 30 →
  or32 m (bit i) = Z.setbit m (Z.of_nat i).
Proof.
  intros Hn Hm Hi. unfold or32.
  rewrite (to_int32_small m) by (apply (is_mask_int32 n); done).
  rewrite bit_pow by done.
  rewrite (to_int32_small (2 ^ _)).
  2:{ assert (2 ^ Z.of_nat i ≤ 2 ^ 30)%Z by (apply Z.pow_le_mono_r; lia). lia. }
  unfold Z.setbit. by rewrite Z.shiftl_1_l.
Qed.

Lemma xor32_clearbit (n : nat) (m : Z) (i : nat) :
  n ≤ 30 → is_mask n m → i ≤ 30 → has m i = true →
  xor32 m (bit i) = Z.clearbit m (Z.of_nat i).
Proof.
  intros Hn Hm Hi Hb. unfold xor32.
  rewrite (to_int32_small m) by (apply (is_mask_int32 n); done).
  rewrite bit_pow by done.
  rewrite (to_int32_small (2 ^ _)).
  2:{ assert (2 ^ Z.of_nat i ≤ 2 ^ 30)%Z by (apply Z.pow_le_mono_r; lia). lia. }
  apply Z.bits_inj'. intros k Hk.
  rewrite Z.lxor_spec, Z.clearbit_eqb, Z.pow2_bits_eqb by lia.
  destruct (Z.eqb_spec (Z.of_nat i) k) as [<-|].
  - unfold has in Hb. by rewrite Hb.
  - simpl. by rewrite xorb_false_r, andb_true_r.
Qed.

Lemma has_setbit (m : Z) (i j : nat) :
  has (Z.setbit m (Z.of_nat i)) j = bool_decide (i = j) || has m j.
Proof.
  unfold has. rewrite Z.setbit_eqb by lia.
  destruct (Z.eqb_spec (Z.of_nat i) (Z.of_nat j)) as [E|E];
    case_bool_decide; try done; lia.
Qed.

Lemma has_clearbit (m : Z) (i j : nat) :
  has (Z.clearbit m (Z.of_nat i)) j = has m j && negb (bool_decide (i = j)).
Proof.
  unfold has. rewrite Z.clearbit_eqb by lia.
  destruct (Z.eqb_spec (Z.of_nat i) (Z.of_nat j)) as [E|E];
    case_bool_decide; try done; lia.
Qed.

Lemma is_mask_setbit (n : nat) (m : Z) (i : nat) :
  is_mask n m → i < n → is_mask n (Z.setbit m (Z.of_nat i)).
Proof.
  rewrite !is_mask_bits. intros [H0 Hhigh] Hi. split.
  - unfold Z.setbit. apply Z.lor_nonneg. split; [done|].
    rewrite Z.shiftl_1_l. apply Z.pow_nonneg. lia.
  - intros j Hj. rewrite has_setbit, Hhigh by done.
    case_bool_decide; [lia|done].
Qed.

Lemma is_mask_clearbit (n : nat) (m : Z) (i : nat) :
  is_mask n m → is_mask n (Z.clearbit m (Z.of_nat i)).
Proof.
  rewrite !is_mask_bits. intros [H0 Hhigh]. split.
  - unfold Z.clearbit. by apply Z.ldiff_nonneg; left.
  - intros j Hj. by rewrite has_clearbit, Hhigh.
Qed.

Lemma setbit_fresh (m : Z) (i : nat) :
  (0 ≤ m)%Z → has m i = false →
  Z.setbit m (Z.of_nat i) = (m + 2 ^ Z.of_nat i)%Z.
Proof.
  intros H0 Hb. unfold Z.setbit. rewrite Z.shiftl_1_l.
  rewrite <- Z.lxor_lor, <- Z.add_nocarry_lxor; [done| |];
    apply Z.bits_inj'; intros k Hk;
    rewrite Z.land_spec, Z.bits_0, Z.pow2_bits_eqb by lia;
    (destruct (Z.eqb_spec (Z.of_nat i) k) as [<-|];
      [unfold has in Hb; by rewrite Hb|apply andb_false_r]).
Qed.

Lemma clearbit_set (m : Z) (i : nat) :
  (0 ≤ m)%Z → has m i = true →
  Z.clearbit m (Z.of_nat i) = (m - 2 ^ Z.of_nat i)%Z.
Proof.
  intros H0 Hb.
  assert (0 ≤ Z.clearbit m (Z.of_nat i))%Z as H0'.
  { unfold Z.clearbit. by apply Z.ldiff_nonneg; left. }
  pose proof (setbit_fresh (Z.clearbit m (Z.of_nat i)) i H0') as E.
  rewrite has_clearbit, bool_decide_eq_true_2, andb_false_r in E by done.
  specialize (E eq_refl).
  assert (Z.setbit (Z.clearbit m (Z.of_nat i)) (Z.of_nat i) = m) as E'.
  { apply Z.bits_inj'. intros k Hk.
    rewrite Z.setbit_eqb, Z.clearbit_eqb by lia.
    destruct (Z.eqb_spec (Z.of_nat i) k) as [<-|]; simpl.
    - unfold has in Hb. by rewrite Hb.
    - by rewrite andb_true_r. }
  lia.
Qed.

(** ** Held-Karp: reading and writing the tables *)

(** The tables have [2^n] rows of [n] cells. *)
Definition table_shape {A : Type} (n : nat) (t : list (list A)) : Prop :=
  length t = Z.to_nat (2 ^ Z.of_nat n) ∧ Forall (λ row, length row = n) t.

Lemma table_shape_tset {A : Type} (n : nat) (t : list (list A)) (m : Z)
    (i : nat) (v : A) :
  table_shape n t → table_shape n (HeldKarp.tset t m i v).
Proof.
  intros [Hlen Hrows]. unfold HeldKarp.tset. split.
  - by rewrite length_alter.
  - apply Forall_lookup. intros k row Hrow.
    destruct (decide (Z.to_nat m = k)) as [<-|Hne].
    + rewrite list_lookup_alter_eq in Hrow.
      destruct (t !! Z.to_nat m) as [row'|] eqn:E; [|done].
      simpl in Hrow. injection Hrow as <-. rewrite length_insert.
      by eapply Forall_lookup in Hrows.
    + rewrite list_lookup_alter_ne in Hrow by done.
      by eapply Forall_lookup in Hrows.
Qed.

Lemma table_row {A : Type} (n : nat) (t : list (list A)) (m : Z) :
  table_shape n t → is_mask n m →
  ∃ row, t !! Z.to_nat m = Some row ∧ length row = n.
Proof.
  intros [Hlen Hrows] [H0 H1].
  destruct (lookup_lt_is_Some_2 t (Z.to_nat m)) as [row Hrow]; [lia|].
  exists row. split; [done|]. by eapply Forall_lookup in Hrows.
Qed.

Lemma dp_at_tset_eq (n : nat) (dp : list (list num)) (m : Z) (i : nat) (v : num) :
  table_shape n dp → is_mask n m → i < n →
  HeldKarp.dp_at (HeldKarp.tset dp m i v) m i = v.
Proof.
  intros Hs Hm Hi. destruct (table_row n dp m Hs Hm) as (row & Hrow & Hlen).
  unfold HeldKarp.dp_at, HeldKarp.tset, entry.
  rewrite list_lookup_alter_eq, Hrow. simpl.
  by rewrite list_lookup_insert_eq by lia.
Qed.

Lemma dp_at_tset_ne (dp : list (list num)) (m m' : Z) (i i' : nat) (v : num) :
  (0 ≤ m)%Z → (0 ≤ m')%Z → m ≠ m' ∨ i ≠ i' →
  HeldKarp.dp_at (HeldKarp.tset dp m i v) m' i' = HeldKarp.dp_at dp m' i'.
Proof.
  intros H0 H0' Hne. unfold HeldKarp.dp_at, HeldKarp.tset, entry.
  destruct (decide (Z.to_nat m = Z.to_nat m')) as [E|E].
  - rewrite E, list_lookup_alter_eq.
    destruct (dp !! Z.to_nat m') as [row|]; [|done]. simpl.
    rewrite list_lookup_insert_ne; [done|]. destruct Hne; [lia|done].
  - by rewrite list_lookup_alter_ne.
Qed.

Lemma parent_at_tset_eq (n : nat) (parent : list (list (option nat))) (m : Z)
    (i : nat) (v : option nat) :
  table_shape n parent → is_mask n m → i < n →
  HeldKarp.parent_at (HeldKarp.tset parent m i v) m i = v.
Proof.
  intros Hs Hm Hi. destruct (table_row n parent m Hs Hm) as (row & Hrow & Hlen).
  unfold HeldKarp.parent_at, HeldKarp.tset.
  rewrite list_lookup_alter_eq, Hrow. simpl.
  by rewrite list_lookup_insert_eq by lia.
Qed.

Lemma parent_at_tset_ne (parent : list (list (option nat))) (m m' : Z)
    (i i' : nat) (v : option nat) :
  (0 ≤ m)%Z → (0 ≤ m')%Z → m ≠ m' ∨ i ≠ i' →
  HeldKarp.parent_at (HeldKarp.tset parent m i v) m' i'
  = HeldKarp.parent_at parent m' i'.
Proof.
  intros H0 H0' Hne. unfold HeldKarp.parent_at, HeldKarp.tset.
  destruct (decide (Z.to_nat m = Z.to_nat m')) as [E|E].
  - rewrite E, list_lookup_alter_eq.
    destruct (parent !! Z.to_nat m') as [row|]; [|done]. simpl.
    rewrite list_lookup_insert_ne; [done|]. destruct Hne; [lia|done].
  - by rewrite list_lookup_alter_ne.
Qed.

(** ** Held-Karp: the invariant of the tables

    A finite cell [dp[m][l]] belongs to a subset [m] that holds [l] and
    node 0, and [parent[m][l]] leads to a finite cell of the subset without
    [l]; the only finite cell that ends at node 0 is [dp[1][0]]. *)
Record hk_wf (n : nat) (t : list (list num) * list (list (option nat))) : Prop := {
  wf_dp : table_shape n t.1;
  wf_parent : table_shape n t.2;
  wf_root : HeldKarp.dp_at t.1 1 0 = Fin 0;
  wf_num : ∀ m l, is_mask n m → l < n → HeldKarp.dp_at t.1 m l ≠ NaN;
  wf_chain : ∀ m l z, is_mask n m → l < n → HeldKarp.dp_at t.1 m l = Fin z →
    has m l = true ∧ has m 0 = true ∧
    ((l = 0 ∧ m = 1%Z ∧ HeldKarp.parent_at t.2 m l = None) ∨
     (l ≠ 0 ∧ ∃ l' z', HeldKarp.parent_at t.2 m l = Some l' ∧ l' < n ∧
        HeldKarp.dp_at t.1 (Z.clearbit m (Z.of_nat l)) l' = Fin z'))
}.

(** What one relaxation does. *)
Lemma relax_cases (d : matrix) (n : nat) (mask : Z) (last next : nat)
    (t : list (list num) * list (list (option nat))) :
  n ≤ 15 → is_mask n mask → next < n →
  let newMask := Z.setbit mask (Z.of_nat next) in
  let newCost := num_add (HeldKarp.dp_at t.1 mask last) (entry d last next) in
  (has mask next = true ∧ HeldKarp.relax d mask last next t = t) ∨
  (has mask next = false ∧
   num_ltb newCost (HeldKarp.dp_at t.1 newMask next) = false ∧
   HeldKarp.relax d mask last next t = t) ∨
  (has mask next = false ∧
   num_ltb newCost (HeldKarp.dp_at t.1 newMask next) = true ∧
   HeldKarp.relax d mask last next t =
     (HeldKarp.tset t.1 newMask next newCost,
      HeldKarp.tset t.2 newMask next (Some last))).
Proof.
  intros Hn Hm Hnext. simpl. unfold HeldKarp.relax.
  pose proof (and32_has n mask next ltac:(lia) Hm ltac:(lia)) as Hand.
  rewrite (or32_setbit n) by (done || lia).
  case_decide as Hc.
  - left. split; [by apply Hand|done].
  - assert (has mask next = false) as Hb.
    { destruct (has mask next); [|done]. exfalso. by apply (proj2 Hand). }
    right. destruct (num_ltb _ _) eqn:Hlt; [right|left]; done.
Qed.

Lemma clearbit_setbit_fresh (m : Z) (i : nat) :
  has m i = false → Z.clearbit (Z.setbit m (Z.of_nat i)) (Z.of_nat i) = m.
Proof.
  intros Hb. apply Z.bits_inj'. intros k Hk.
  rewrite Z.clearbit_eqb, Z.setbit_eqb by lia.
  destruct (Z.eqb_spec (Z.of_nat i) k) as [<-|]; simpl.
  - unfold has in Hb. by rewrite Hb.
  - by rewrite andb_true_r.
Qed.

Lemma setbit_fresh_gt (m : Z) (i : nat) :
  (0 ≤ m)%Z → has m i = false → (m < Z.setbit m (Z.of_nat i))%Z.
Proof.
  intros H0 Hb. rewrite setbit_fresh by done.
  assert (0 < 2 ^ Z.of_nat i)%Z by (apply Z.pow_pos_nonneg; lia). lia.
Qed.

Lemma cell_differs (a b : Z) (i j : nat) : ¬ (a = b ∧ i = j) → a ≠ b ∨ i ≠ j.
Proof. intros H. destruct (decide (a = b)); [right|left]; tauto. Qed.

Section HeldKarpSweep.
Variable d : matrix.
Variable n : nat.
Hypothesis Hn : n ≤ 15.

Abbreviation tables := (list (list num) * list (list (option nat)))%type.

(** The cell [dp[m | 1<<nx][nx]] is at most [dp[m][l] + d[l][nx]]. *)
Definition cell_closed (t : tables) (m : Z) (l nx : nat) : Prop :=
  ∀ z, HeldKarp.dp_at t.1 m l = Fin z →
    num_leb (HeldKarp.dp_at t.1 (Z.setbit m (Z.of_nat nx)) nx)
            (num_add (Fin z) (entry d l nx)) = true.

(** The triple [(m, l', nx)] is relaxed before the sweep reaches
    [(k, l, j)]. *)
Definition before (k : Z) (l j : nat) (m : Z) (l' nx : nat) : Prop :=
  (m < k)%Z ∨ (m = k ∧ (l' < l ∨ (l' = l ∧ nx < j))).

Definition closed_before (k : Z) (l j : nat) (t : tables) : Prop :=
  ∀ m l' nx, is_mask n m → l' < n → nx < n → has m nx = false →
    before k l j m l' nx → cell_closed t m l' nx.

(** The invariant of the sweep at position [(k, l, j)]. *)
Definition hk_inv (k : Z) (l j : nat) (t : tables) : Prop :=
  hk_wf n t ∧ (finite_matrix d → length d = n → closed_before k l j t).

Lemma hk_update (t : tables) (mask : Z) (last next : nat) (z c : Z) :
  hk_wf n t → is_mask n mask → last < n → next < n →
  HeldKarp.dp_at t.1 mask last = Fin z → has mask next = false →
  hk_wf n (HeldKarp.tset t.1 (Z.setbit mask (Z.of_nat next)) next (Fin c),
           HeldKarp.tset t.2 (Z.setbit mask (Z.of_nat next)) next (Some last)).
Proof.
  intros Hwf Hm Hlast Hnext Hdp Hfresh.
  destruct Hwf as [Hsd Hsp Hroot Hnum Hchain].
  destruct (Hchain mask last z Hm Hlast Hdp) as (Hhl & Hh0 & _).
  assert (next ≠ 0) as Hnext0 by (intros ->; congruence).
  set (newMask := Z.setbit mask (Z.of_nat next)).
  assert (is_mask n newMask) as Hnm by (by apply is_mask_setbit).
  assert (mask < newMask)%Z as Hgt by (apply setbit_fresh_gt; [apply Hm|done]).
  pose proof (proj1 Hnm) as Hnm0. pose proof (proj1 Hm) as Hm0.
  split; simpl.
  - by apply table_shape_tset.
  - by apply table_shape_tset.
  - rewrite dp_at_tset_ne; [done|done|lia|by right].
  - intros m l Hmm Hl.
    destruct (decide (newMask = m ∧ next = l)) as [[<- <-]|Hne].
    + by rewrite (dp_at_tset_eq n).
    + rewrite dp_at_tset_ne; [by apply Hnum|done|apply Hmm|].
      by apply cell_differs.
  - intros m l z0 Hmm Hl Hz0.
    destruct (decide (newMask = m ∧ next = l)) as [[<- <-]|Hne].
    + split; [|split].
      * unfold newMask. rewrite has_setbit. by rewrite bool_decide_eq_true_2.
      * unfold newMask. rewrite has_setbit, Hh0. apply orb_true_r.
      * right. split; [done|]. exists last, z.
        rewrite (parent_at_tset_eq n) by done. split; [done|]. split; [done|].
        unfold newMask. rewrite clearbit_setbit_fresh by done.
        rewrite dp_at_tset_ne; [done|done|done|left; fold newMask; lia].
    + assert (newMask ≠ m ∨ next ≠ l) as Hne'.
      { by apply cell_differs. }
      rewrite dp_at_tset_ne in Hz0; [|done|apply Hmm|done].
      destruct (Hchain m l z0 Hmm Hl Hz0) as (H1 & H2 & Hcase).
      split; [done|]. split; [done|].
      rewrite parent_at_tset_ne; [|done|apply Hmm|done].
      destruct Hcase as [?|(Hl0 & l' & z' & Hp & Hl' & Hz')]; [by left|right].
      split; [done|].
      destruct (decide (newMask = Z.clearbit m (Z.of_nat l) ∧ next = l'))
        as [[E <-]|Hne2].
      * exists next, c. split; [done|]. split; [done|].
        rewrite <- E. by rewrite (dp_at_tset_eq n).
      * exists l', z'. split; [done|]. split; [done|].
        rewrite dp_at_tset_ne; [done|done| |].
        -- apply (is_mask_clearbit n m l Hmm).
        -- by apply cell_differs.
Qed.

Lemma closed_update (t : tables) (mask : Z) (last next : nat) (c : Z)
    (k : Z) (l j : nat) :
  hk_wf n t → is_mask n mask → next < n → has mask next = false →
  (k ≤ mask)%Z →
  num_ltb (Fin c) (HeldKarp.dp_at t.1 (Z.setbit mask (Z.of_nat next)) next)
    = true →
  closed_before k l j t →
  closed_before k l j
    (HeldKarp.tset t.1 (Z.setbit mask (Z.of_nat next)) next (Fin c),
     HeldKarp.tset t.2 (Z.setbit mask (Z.of_nat next)) next (Some last)).
Proof.
  intros Hwf Hm Hnext Hfresh Hk Hlt Hclosed m l' nx Hmm Hl' Hnx Hb Hbefore z0.
  simpl. intros Hz0.
  set (newMask := Z.setbit mask (Z.of_nat next)) in *.
  assert (is_mask n newMask) as Hnm by (by apply is_mask_setbit).
  assert (mask < newMask)%Z as Hgt by (apply setbit_fresh_gt; [apply Hm|done]).
  assert (m < newMask)%Z as Hmlt by (destruct Hbefore as [?|[? _]]; lia).
  rewrite dp_at_tset_ne in Hz0; [|apply Hnm|apply Hmm|left; lia].
  pose proof (Hclosed m l' nx Hmm Hl' Hnx Hb Hbefore z0 Hz0) as Hold.
  destruct (decide (newMask = Z.setbit m (Z.of_nat nx) ∧ next = nx))
    as [[E <-]|Hne].
  - rewrite <- E, (dp_at_tset_eq n) by (done || apply (wf_dp n t Hwf)).
    rewrite <- E in Hold.
    apply num_ltb_leb. by eapply num_ltb_leb_trans.
  - rewrite dp_at_tset_ne; [done|apply Hnm| |].
    + apply (is_mask_setbit n m nx Hmm Hnx).
    + by apply cell_differs.
Qed.

Lemma relax_inv (t : tables) (mask : Z) (last j : nat) (z : Z) :
  is_mask n mask → last < n → j < n →
  HeldKarp.dp_at t.1 mask last = Fin z →
  hk_inv mask last j t →
  hk_inv mask last (S j) (HeldKarp.relax d mask last j t) ∧
  HeldKarp.dp_at (HeldKarp.relax d mask last j t).1 mask last = Fin z.
Proof.
  intros Hm Hlast Hj Hdp [Hwf Hclosed].
  set (newMask := Z.setbit mask (Z.of_nat j)).
  assert (is_mask n newMask) as Hnm by (by apply is_mask_setbit).
  (* the cells relaxed so far, and the one relaxed now *)
  assert (∀ t' : tables,
    (finite_matrix d → length d = n → closed_before mask last j t') →
    (finite_matrix d → length d = n → has mask j = false →
       cell_closed t' mask last j) →
    finite_matrix d → length d = n → closed_before mask last (S j) t') as Hext.
  { intros t' Hold Hnew Hfin Hlen m l' nx Hmm Hl' Hnx Hb Hbefore.
    destruct (decide (m = mask ∧ l' = last ∧ nx = j)) as [(-> & -> & ->)|Hne].
    - by apply Hnew.
    - apply Hold; try done. unfold before in *. lia. }
  destruct (relax_cases d n mask last j t Hn Hm Hj)
    as [[Hb ->]|[(Hb & Hlt & ->)|(Hb & Hlt & ->)]].
  - split; [|done]. split; [done|]. apply Hext; [done|]. intros; congruence.
  - split; [|done]. split; [done|]. apply Hext; [done|].
    intros Hfin Hlen _ z0 Hz0. rewrite Hdp in Hz0. injection Hz0 as <-.
    rewrite Hdp in Hlt.
    destruct (finite_entry d last j Hfin ltac:(lia) ltac:(lia)) as [e He].
    rewrite He in *.
    pose proof (wf_num n t Hwf newMask j Hnm Hj) as Hnn. fold newMask in Hlt |- *.
    destruct (HeldKarp.dp_at t.1 newMask j); simpl in *; try done.
    apply Z.ltb_ge in Hlt. apply Z.leb_le. lia.
  - rewrite Hdp in Hlt |- *.
    destruct (num_add (Fin z) (entry d last j)) as [c| |] eqn:Hc;
      [|by rewrite num_ltb_Inf_l in Hlt|done].
    assert (mask < newMask)%Z as Hgt by (apply setbit_fresh_gt; [apply Hm|done]).
    split.
    + split; [by eapply hk_update|]. apply Hext.
      * intros Hfin Hlen. apply closed_update; try done. by apply Hclosed.
      * intros Hfin Hlen _ z0. cbn [fst]. fold newMask.
        rewrite dp_at_tset_ne; [|apply Hnm|apply Hm|left; lia].
        rewrite Hdp. intros [= <-].
        rewrite (dp_at_tset_eq n) by (done || apply (wf_dp n t Hwf)).
        rewrite Hc. simpl. apply Z.leb_le. lia.
    + simpl. fold newMask.
      rewrite dp_at_tset_ne; [done|apply Hnm|apply Hm|left; lia].
Qed.

Lemma extend_inv (t : tables) (mask : Z) (last : nat) :
  is_mask n mask → last < n →
  hk_inv mask last 0 t → hk_inv mask (S last) 0 (HeldKarp.extend d n mask last t).
Proof.
  intros Hm Hlast [Hwf Hclosed].
  (* a last node that is skipped has no finite cell to close *)
  assert ((∀ z, HeldKarp.dp_at t.1 mask last ≠ Fin z) →
          hk_inv mask (S last) 0 t) as Hskip.
  { intros Hnone. split; [done|]. intros Hfin Hlen m l' nx Hmm Hl' Hnx Hb Hbefore.
    destruct (decide (m = mask ∧ l' = last)) as [[-> ->]|Hne].
    - intros z0 Hz0. by destruct (Hnone z0).
    - apply Hclosed; try done. unfold before in *. lia. }
  unfold HeldKarp.extend.
  pose proof (and32_has n mask last ltac:(lia) Hm ltac:(lia)) as Hand.
  case_decide as Hc.
  { apply Hskip. intros z Hz.
    destruct (wf_chain n t Hwf mask last z Hm Hlast Hz) as [Hh _].
    by apply (proj2 Hand). }
  case_decide as Hinf.
  { apply Hskip. intros z Hz. congruence. }
  pose proof (wf_num n t Hwf mask last Hm Hlast) as Hnn.
  destruct (HeldKarp.dp_at t.1 mask last) as [z| |] eqn:Hdp; try done.
  assert (hk_inv mask last n (for_loop n 0 (HeldKarp.relax d mask last) t) ∧
          HeldKarp.dp_at (for_loop n 0 (HeldKarp.relax d mask last) t).1
            mask last = Fin z) as [[Hwf' Hclosed'] _].
  { apply (for_loop_ind (λ j t', j ≤ n →
      hk_inv mask last j t' ∧ HeldKarp.dp_at t'.1 mask last = Fin z));
      [done| |done].
    intros j t' Hj IH Hle. destruct (IH ltac:(lia)) as [Hinv' Hdp'].
    simpl. by apply relax_inv. }
  split; [done|]. intros Hfin Hlen m l' nx Hmm Hl' Hnx Hb Hbefore.
  apply Hclosed'; try done. unfold before in *. lia.
Qed.

Lemma subset_inv (t : tables) (mask : Z) :
  is_mask n mask →
  hk_inv mask 0 0 t →
  hk_inv (mask + 1) 0 0 (for_loop n 0 (HeldKarp.extend d n mask) t).
Proof.
  intros Hm Hinv.
  assert (hk_inv mask n 0 (for_loop n 0 (HeldKarp.extend d n mask) t))
    as [Hwf Hclosed].
  { apply (for_loop_ind (λ l t', l ≤ n → hk_inv mask l 0 t')); [done| |done].
    intros l t' Hl IH Hle. simpl. apply extend_inv; [done|lia|]. apply IH. lia. }
  split; [done|]. intros Hfin Hlen m l' nx Hmm Hl' Hnx Hb Hbefore.
  apply Hclosed; try done. unfold before in *. lia.
Qed.

Lemma sweep_inv (t : tables) :
  1 ≤ n → hk_inv 1 0 0 t →
  hk_inv (2 ^ Z.of_nat n) 0 0 (HeldKarp.sweep d n t).
Proof.
  intros Hn1 Hinv. unfold HeldKarp.sweep.
  rewrite bit_pow by lia.
  assert (0 < 2 ^ Z.of_nat n)%Z as Hpos by (apply Z.pow_pos_nonneg; lia).
  set (K := Z.to_nat (2 ^ Z.of_nat n - 1)).
  assert (2 ^ Z.of_nat n = 1 + Z.of_nat K)%Z as -> by (subst K; lia).
  pose proof (for_loop_ind (λ i t', hk_inv (1 + Z.of_nat i) 0 0 t')
    (λ mask, for_loop n 0 (HeldKarp.extend d n (Z.of_nat mask)))
    K 1 t) as Hloop.
  simpl in Hloop.
  apply Hloop; [done|].
  intros i t' Hi IH.
  replace (1 + Z.of_nat (S i))%Z with (Z.of_nat (S i) + 1)%Z by lia.
  apply subset_inv.
  - split; lia.
  - replace (Z.of_nat (S i)) with (1 + Z.of_nat i)%Z by lia. done.
Qed.

End HeldKarpSweep.

(** ** Held-Karp: the tables before the sweep *)

Lemma table_shape_replicate {A : Type} (n : nat) (x : A) :
  table_shape n (replicate (Z.to_nat (2 ^ Z.of_nat n)) (replicate n x)).
Proof.
  split; [by rewrite length_replicate|].
  apply Forall_forall. intros row Hrow.
  apply elem_of_replicate in Hrow as [-> _]. by rewrite length_replicate.
Qed.

Lemma dp_at_replicate (k n : nat) (x : num) (m : Z) (l : nat) :
  HeldKarp.dp_at (replicate k (replicate n x)) m l = x ∨
  HeldKarp.dp_at (replicate k (replicate n x)) m l = NaN.
Proof.
  unfold HeldKarp.dp_at, entry.
  destruct (replicate k (replicate n x) !! Z.to_nat m) as [row|] eqn:Hrow;
    [|by right].
  apply lookup_replicate in Hrow as [-> _].
  destruct (replicate n x !! l) as [y|] eqn:Hy; [|by right].
  apply lookup_replicate in Hy as [-> _]. by left.
Qed.

Lemma parent_at_replicate (k n : nat) (m : Z) (l : nat) :
  HeldKarp.parent_at (replicate k (replicate n None)) m l = None.
Proof.
  unfold HeldKarp.parent_at.
  destruct (replicate k (replicate n None) !! Z.to_nat m) as [row|] eqn:Hrow;
    [|done].
  apply lookup_replicate in Hrow as [-> _].
  destruct (replicate n None !! l) as [y|] eqn:Hy; [|done].
  by apply lookup_replicate in Hy as [-> _].
Qed.

Lemma pow2_ge_2 (n : nat) : 1 ≤ n → (2 ≤ 2 ^ Z.of_nat n)%Z.
Proof.
  intros Hn. change 2%Z with (2 ^ 1)%Z at 1. apply Z.pow_le_mono_r; lia.
Qed.

Lemma hk_init_inv (d : matrix) (n : nat) :
  1 ≤ n → n ≤ 15 →
  ∃ t0, HeldKarp.init n = Some t0 ∧ hk_inv d n 1 0 0 t0.
Proof.
  intros Hn1 Hn. unfold HeldKarp.init. rewrite bit_pow by lia.
  pose proof (pow2_ge_2 n Hn1) as Hpow.
  set (size := Z.to_nat (2 ^ Z.of_nat n)).
  rewrite lookup_replicate_2 by (subst size; lia). simpl.
  eexists. split; [done|].
  assert (is_mask n 1) as Hone by (split; lia).
  pose proof (table_shape_replicate n Inf) as Hsd.
  pose proof (table_shape_replicate n (@None nat)) as Hsp.
  fold size in Hsd, Hsp.
  assert (∀ m l, is_mask n m → ¬ (m = 1%Z ∧ l = 0) →
    HeldKarp.dp_at (HeldKarp.tset (replicate size (replicate n Inf)) 1 0 (Fin 0))
      m l ≠ NaN →
    HeldKarp.dp_at (HeldKarp.tset (replicate size (replicate n Inf)) 1 0 (Fin 0))
      m l = Inf) as Hother.
  { intros m l Hm Hne. rewrite dp_at_tset_ne; [|lia|apply Hm|].
    - destruct (dp_at_replicate size n Inf m l) as [->| ->]; done.
    - apply cell_differs. intros [? ?]. by apply Hne. }
  assert (∀ m l, is_mask n m → l < n →
    HeldKarp.dp_at (HeldKarp.tset (replicate size (replicate n Inf)) 1 0 (Fin 0))
      m l ≠ NaN) as Hnum.
  { intros m l Hm Hl.
    destruct (decide (m = 1%Z ∧ l = 0)) as [[-> ->]|Hne].
    - by rewrite (dp_at_tset_eq n).
    - rewrite dp_at_tset_ne; [|lia|apply Hm|].
      + destruct (table_row n _ m Hsd Hm) as (row & Hrow & Hlen).
        unfold HeldKarp.dp_at, entry. rewrite Hrow.
        apply lookup_replicate in Hrow as [-> _].
        by rewrite lookup_replicate_2.
      + apply cell_differs. intros [? ?]. by apply Hne. }
  split; [split|]; simpl.
  - by apply table_shape_tset.
  - done.
  - by rewrite (dp_at_tset_eq n).
  - done.
  - intros m l z Hm Hl Hz.
    destruct (decide (m = 1%Z ∧ l = 0)) as [[-> ->]|Hne].
    + split; [done|]. split; [done|]. left.
      by rewrite parent_at_replicate.
    + rewrite Hother in Hz; [done|done|done|by apply Hnum].
  - intros _ _ m l' nx Hm Hl' Hnx Hb Hbefore z. simpl. intros Hz.
    rewrite Hother in Hz; [done|done| |by apply Hnum].
    unfold before in Hbefore. lia.
Qed.

(** ** Held-Karp: the walk along [parent] *)

Lemma walk_none (fuel : nat) (parent : list (list (option nat))) (m : Z)
    (p : list nat) :
  HeldKarp.walk fuel parent m None p = Some p.
Proof. by destruct fuel. Qed.

Lemma has_one (x : nat) : has 1 x = true ↔ x = 0.
Proof.
  unfold has. destruct x as [|x]; [done|].
  split; [|done]. rewrite (Z.pow2_bits_false 0); [done|lia].
Qed.

(** From a finite cell the walk ends, within as many iterations as the
    subset has nodes, and it lists each node of the subset once. *)
Lemma walk_chain (n : nat) (t : list (list num) * list (list (option nat))) :
  n ≤ 15 → hk_wf n t →
  ∀ (k : nat) (m : Z) (l : nat) (z : Z),
    Z.to_nat m < k → is_mask n m → l < n → HeldKarp.dp_at t.1 m l = Fin z →
    ∃ c, (∀ fuel acc, length c ≤ fuel →
            HeldKarp.walk fuel t.2 m (Some l) acc = Some (acc ++ c)) ∧
         NoDup c ∧ (∀ x, x ∈ c ↔ x < n ∧ has m x = true).
Proof.
  intros Hn Hwf. induction k as [|k IH]; intros m l z Hk Hm Hl Hz; [lia|].
  destruct (wf_chain n t Hwf m l z Hm Hl Hz) as (Hhl & Hh0 & Hcase).
  destruct Hcase as [(-> & -> & Hp)|(Hl0 & l' & z' & Hp & Hl' & Hz')].
  - exists [0]. split; [|split].
    + intros [|fuel] acc Hlen; simpl in *; [lia|].
      by rewrite Hp, walk_none.
    + apply NoDup_singleton.
    + intros x. rewrite list_elem_of_singleton, has_one. lia.
  - pose proof (is_mask_clearbit n m l Hm) as Hm'.
    pose proof (clearbit_set m l (proj1 Hm) Hhl) as Hsub.
    assert (0 < 2 ^ Z.of_nat l)%Z by (apply Z.pow_pos_nonneg; lia).
    assert (Z.to_nat (Z.clearbit m (Z.of_nat l)) < k) as Hless.
    { pose proof (proj1 Hm'). unfold is_mask in Hm. lia. }
    destruct (IH (Z.clearbit m (Z.of_nat l)) l' z' Hless Hm' Hl' Hz')
      as (c & Hwalk & Hnd & Hmem).
    exists (l :: c). split; [|split].
    + intros [|fuel] acc Hlen; simpl in *; [lia|].
      rewrite Hp, (xor32_clearbit n) by (done || lia).
      rewrite Hwalk by lia. by rewrite <- app_assoc.
    + apply NoDup_cons. split; [|done]. intros Hin.
      apply Hmem in Hin as [_ Hin]. rewrite has_clearbit in Hin.
      by rewrite bool_decide_eq_true_2, andb_false_r in Hin.
    + intros x. rewrite elem_of_cons, Hmem, has_clearbit.
      destruct (decide (l = x)) as [<-|Hne].
      * rewrite bool_decide_eq_true_2 by done. split; [by intros _|by left].
      * rewrite bool_decide_eq_false_2, andb_true_r by done.
        split; [intros [->|?]; [done|tauto]|tauto].
Qed.

Lemma nodup_below_length (c : list nat) (n : nat) :
  NoDup c → (∀ x, x ∈ c → x < n) → length c ≤ n.
Proof.
  intros Hnd Hlt. transitivity (length (seq 0 n)); [|by rewrite length_seq].
  apply submseteq_length.
  apply NoDup_submseteq; [done|]. intros x Hx. apply elem_of_seq.
  specialize (Hlt x Hx). lia.
Qed.

(** The full subset [(1 << n) - 1]. *)
Lemma full_mask (n : nat) :
  n ≤ 15 →
  (bit n - 1)%Z = Z.ones (Z.of_nat n) ∧ is_mask n (bit n - 1) ∧
  ∀ x, x < n → has (bit n - 1) x = true.
Proof.
  intros Hn. rewrite bit_pow by lia.
  assert (0 < 2 ^ Z.of_nat n)%Z by (apply Z.pow_pos_nonneg; lia).
  rewrite Z.ones_equiv, <- Z.sub_1_r.
  split; [done|]. split; [split; lia|].
  intros x Hx. unfold has. rewrite Z.sub_1_r, <- Z.ones_equiv.
  apply Z.ones_spec_low. lia.
Qed.

(** ** Held-Karp: the best last node *)

Lemma hk_best_spec (d : matrix) (n : nat) (dp : list (list num)) (full : Z) :
  let closing l := num_add (HeldKarp.dp_at dp full l) (entry d l 0) in
  ((HeldKarp.best d n dp full).2 = None ∧ (HeldKarp.best d n dp full).1 = Inf ∨
   ∃ l z, (HeldKarp.best d n dp full).2 = Some l ∧ 0 < l < n ∧
          (HeldKarp.best d n dp full).1 = Fin z ∧ closing l = Fin z) ∧
  ∀ l c, 0 < l < n → closing l = Fin c →
    num_leb (HeldKarp.best d n dp full).1 (Fin c) = true.
Proof.
  intros closing. unfold HeldKarp.best.
  apply (for_loop_ind (λ i (s : num * option nat),
    (s.2 = None ∧ s.1 = Inf ∨
     ∃ l z, s.2 = Some l ∧ 0 < l < i ∧ s.1 = Fin z ∧ closing l = Fin z) ∧
    ∀ l c, 0 < l < i → closing l = Fin c → num_leb s.1 (Fin c) = true)).
  - split; [by left|]. intros l c Hl. lia.
  - intros i [minCost lastNode] Hi [Hshape Hmin]. simpl in *.
    unfold HeldKarp.best_body. simpl. fold (closing i).
    case_decide as Hi0.
    { subst i. split.
      - destruct Hshape as [?|(l & z & ? & ? & ?)]; [by left|lia].
      - intros l c Hl. lia. }
    destruct (num_ltb (closing i) minCost) eqn:Hlt; simpl.
    + destruct (num_ltb_fin _ _ Hlt) as [ci Hci]. split.
      * right. exists i, ci. split; [done|]. split; [lia|]. done.
      * intros l c Hl Hc. destruct (decide (l = i)) as [->|Hne].
        -- rewrite Hci in *. injection Hc as <-. simpl. apply Z.leb_le. lia.
        -- specialize (Hmin l c ltac:(lia) Hc).
           rewrite Hci in *. apply num_ltb_leb. by eapply num_ltb_leb_trans.
    + split.
      * destruct Hshape as [?|(l & z & ? & ? & ?)]; [by left|].
        right. exists l, z. split; [done|]. split; [lia|done].
      * intros l c Hl Hc. destruct (decide (l = i)) as [->|Hne].
        -- rewrite Hc in Hlt.
           destruct Hshape as [[_ ->]|(l & z & _ & _ & -> & _)]; [done|].
           simpl in *. apply Z.ltb_ge in Hlt. apply Z.leb_le. lia.
        -- apply (Hmin l c); [lia|done].
Qed.

(** ** Held-Karp: what the solver returns *)

Lemma num_add_fin (a b : num) (z : Z) :
  num_add a b = Fin z → ∃ x y, a = Fin x ∧ b = Fin y.
Proof. destruct a as [x| |], b as [y| |]; try done. intros _. by exists x, y. Qed.

(** For one to fifteen nodes the solver returns, whatever the entries of
    the matrix: the tables keep their invariant, the walk ends within [n]
    iterations, and the path is empty with cost [Infinity] or lists every
    node once with a finite cost. *)
Lemma heldKarp_small (clk : clock) (d : matrix) :
  1 ≤ length d → length d ≤ 15 →
  ∃ t0 p minCost,
    HeldKarp.init (length d) = Some t0 ∧
    hk_inv d (length d) (2 ^ Z.of_nat (length d)) 0 0
      (HeldKarp.sweep d (length d) t0) ∧
    (HeldKarp.best d (length d) (HeldKarp.sweep d (length d) t0).1
       (bit (length d) - 1)).1 = minCost ∧
    HeldKarp.heldKarpTSP clk d = Some (HeldKarp.report clk p minCost) ∧
    (minCost = Inf ∧ p = [] ∨ (∃ z, minCost = Fin z) ∧ p ≡ₚ seq 0 (length d)).
Proof.
  intros Hn1 Hn. set (n := length d) in *.
  destruct (hk_init_inv d n Hn1 Hn) as (t0 & Hinit & Hinv0).
  pose proof (sweep_inv d n Hn t0 Hn1 Hinv0) as Hinv.
  set (t := HeldKarp.sweep d n t0) in *.
  destruct (full_mask n Hn) as (_ & Hfull & Hbits).
  pose proof (hk_best_spec d n t.1 (bit n - 1)) as [Hshape _].
  unfold HeldKarp.heldKarpTSP. fold n.
  replace (15 <? n) with false by (symmetry; apply Nat.ltb_ge; lia).
  rewrite Hinit. simpl. fold t.
  destruct (HeldKarp.best d n t.1 (bit n - 1)) as [minCost lastNode] eqn:Hbest.
  simpl in Hshape.
  destruct Hshape as [[-> ->]|(l & z & -> & Hl & -> & Hclose)].
  - exists t0, [], Inf. rewrite walk_none. simpl.
    split; [done|]. split; [done|]. split; [by fold t; rewrite Hbest|].
    split; [done|]. by left.
  - apply num_add_fin in Hclose as (x & y & Hx & _).
    pose proof Hinv as [Hwf _].
    destruct (walk_chain n t Hn Hwf (S (Z.to_nat (bit n - 1))) (bit n - 1) l x
      ltac:(lia) Hfull ltac:(lia) Hx) as (c & Hwalk & Hnd & Hmem).
    assert (length c ≤ n) as Hlen.
    { apply nodup_below_length; [done|]. intros v Hv. by apply Hmem in Hv as [? _]. }
    rewrite (Hwalk n [] Hlen). simpl.
    exists t0, (reverse c), (Fin z).
    split; [done|]. split; [done|]. split; [by fold t; rewrite Hbest|].
    split; [done|]. right. split; [by exists z|].
    rewrite reverse_Permutation.
    apply NoDup_Permutation; [done|apply NoDup_seq|].
    intros v. rewrite Hmem, elem_of_seq.
    split; [lia|]. intros Hv. split; [lia|]. apply Hbits. lia.
Qed.

(** ** Held-Karp: optimality *)

(** The subset of the nodes of [p]. *)
Definition mask_of (p : list nat) : Z :=
  foldl (λ m x, Z.setbit m (Z.of_nat x)) 0%Z p.

Lemma mask_of_snoc (q : list nat) (x : nat) :
  mask_of (q ++ [x]) = Z.setbit (mask_of q) (Z.of_nat x).
Proof. unfold mask_of. by rewrite foldl_app. Qed.

Lemma has_mask_of (p : list nat) (x : nat) : has (mask_of p) x = true ↔ x ∈ p.
Proof.
  induction p as [|y q IH] using rev_ind.
  - unfold mask_of, has. simpl. rewrite Z.bits_0. split; [done|].
    intros H. by apply elem_of_nil in H.
  - rewrite mask_of_snoc, has_setbit, elem_of_app, list_elem_of_singleton.
    rewrite orb_true_iff, bool_decide_eq_true. split; intros [H|H].
    + by right.
    + left. by apply IH.
    + right. by apply IH.
    + by left.
Qed.

Lemma is_mask_mask_of (n : nat) (p : list nat) :
  (∀ x, x ∈ p → x < n) → is_mask n (mask_of p).
Proof.
  induction p as [|y q IH] using rev_ind; intros Hlt.
  - unfold mask_of. simpl. split; [lia|]. apply Z.pow_pos_nonneg; lia.
  - rewrite mask_of_snoc. apply is_mask_setbit.
    + apply IH. intros x Hx. apply Hlt, elem_of_app. by left.
    + apply Hlt, elem_of_app. right. by apply list_elem_of_singleton.
Qed.

Lemma mask_of_perm (n : nat) (p : list nat) :
  n ≤ 15 → p ≡ₚ seq 0 n → mask_of p = (bit n - 1)%Z.
Proof.
  intros Hn Hperm. destruct (full_mask n Hn) as (Hones & Hfull & Hbits).
  assert (∀ x, x ∈ p ↔ x < n) as Hmem.
  { intros x. rewrite Hperm, elem_of_seq. lia. }
  pose proof (is_mask_mask_of n p (λ x Hx, proj1 (Hmem x) Hx)) as Hmp.
  apply is_mask_bits in Hmp as [_ Hhigh]. apply is_mask_bits in Hfull as [_ Hhigh'].
  apply Z.bits_inj'. intros k Hk.
  replace k with (Z.of_nat (Z.to_nat k)) by lia.
  fold (has (mask_of p) (Z.to_nat k)). fold (has (bit n - 1) (Z.to_nat k)).
  destruct (decide (Z.to_nat k < n)) as [Hlt|Hge].
  - rewrite Hbits by done. apply has_mask_of. by apply Hmem.
  - rewrite Hhigh, Hhigh' by lia. done.
Qed.

(** After the sweep, [dp[S][l]] is at most the cost of every path from
    node 0 through exactly the nodes of [S] that ends at [l]. *)
Lemma hk_dp_optimal (d : matrix) (t : list (list num) * list (list (option nat))) :
  length d ≤ 15 → finite_matrix d →
  hk_inv d (length d) (2 ^ Z.of_nat (length d)) 0 0 t →
  ∀ p, p ≠ [] → head p = Some 0 → NoDup p → (∀ x, x ∈ p → x < length d) →
    ∃ z c, HeldKarp.dp_at t.1 (mask_of p) (last_node p) = Fin z ∧
           foldl num_add (Fin 0) (legs d p) = Fin c ∧ (z ≤ c)%Z.
Proof.
  intros Hn Hfin [Hwf Hclosed]. specialize (Hclosed Hfin eq_refl).
  induction p as [|x q IH] using rev_ind; intros Hne Hhead Hnd Hrange; [done|].
  destruct (decide (q = [])) as [->|Hq].
  - simpl in Hhead. injection Hhead as ->. exists 0%Z, 0%Z.
    split; [|split; [done|lia]]. apply (wf_root _ _ Hwf).
  - apply NoDup_app in Hnd as (Hndq & Hfresh & _).
    assert (head q = Some 0) as Hheadq by (destruct q; done).
    assert (∀ y, y ∈ q → y < length d) as Hrangeq.
    { intros y Hy. apply Hrange, elem_of_app. by left. }
    assert (x < length d) as Hx.
    { apply Hrange, elem_of_app. right. by apply list_elem_of_singleton. }
    assert (x ∉ q) as Hxq.
    { intros Hin. apply (Hfresh x Hin). by apply list_elem_of_singleton. }
    destruct (IH Hq Hheadq Hndq Hrangeq) as (z & c & Hz & Hc & Hzc).
    pose proof (last_node_elem q Hq) as Hlast.
    pose proof (is_mask_mask_of _ q Hrangeq) as Hmq.
    assert (has (mask_of q) x = false) as Hb.
    { destruct (has (mask_of q) x) eqn:E; [|done]. by apply has_mask_of in E. }
    pose proof (Hclosed (mask_of q) (last_node q) x Hmq (Hrangeq _ Hlast) Hx Hb
      ltac:(left; apply Hmq) z Hz) as Hcell.
    destruct (finite_entry d (last_node q) x Hfin (Hrangeq _ Hlast) Hx) as [e He].
    rewrite He in Hcell. simpl in Hcell.
    apply num_leb_fin in Hcell as (y & Hy & Hye).
    exists y, (c + e)%Z. rewrite mask_of_snoc, last_node_snoc.
    split; [done|]. split; [|lia].
    rewrite legs_snoc, foldl_app by done. simpl. by rewrite Hc, He.
Qed.

Lemma last_node_not_head (p : list nat) :
  NoDup p → head p = Some 0 → 2 ≤ length p → last_node p ≠ 0.
Proof.
  intros Hnd Hhead Hlen. destruct p as [|a [|b q]]; simpl in *; try lia.
  injection Hhead as ->. apply NoDup_cons in Hnd as [Hnotin _].
  intros E. apply Hnotin. rewrite <- E.
  change (last_node (0 :: b :: q)) with (last_node (b :: q)).
  by apply last_node_elem.
Qed.

(** With at least two nodes, the cost that Held-Karp returns is at most
    the cost of every tour that starts at node 0. *)
Lemma heldKarp_optimal (clk : clock) (d : matrix) (p : list nat) :
  finite_matrix d → 2 ≤ length d → length d ≤ 15 →
  p ≡ₚ seq 0 (length d) → head p = Some 0 →
  ∃ r z, HeldKarp.heldKarpTSP clk d = Some r ∧ cost r = Fin z ∧
         num_leb (cost r) (tour_cost d p) = true.
Proof.
  intros Hfin Hn2 Hn Hperm Hhead.
  destruct (heldKarp_small clk d ltac:(lia) Hn)
    as (t0 & q & minCost & Hinit & Hinv & Hbest & Hrun & _).
  assert (NoDup p) as Hnd by (rewrite Hperm; apply NoDup_seq).
  assert (∀ x, x ∈ p → x < length d) as Hrange.
  { intros x. rewrite Hperm, elem_of_seq. lia. }
  assert (length p = length d) as Hlen by (by rewrite Hperm, length_seq).
  assert (p ≠ []) as Hne by (intros ->; simpl in *; lia).
  destruct (hk_dp_optimal d _ Hn Hfin Hinv p Hne Hhead Hnd Hrange)
    as (z & c & Hz & Hc & Hzc).
  rewrite (mask_of_perm _ p Hn Hperm) in Hz.
  pose proof (last_node_elem p Hne) as Hlast.
  pose proof (last_node_not_head p Hnd Hhead ltac:(lia)) as Hl0.
  destruct (finite_entry d (last_node p) 0 Hfin (Hrange _ Hlast) ltac:(lia))
    as [e He].
  pose proof (hk_best_spec d (length d) (HeldKarp.sweep d (length d) t0).1
    (bit (length d) - 1)) as [_ Hmin].
  specialize (Hmin (last_node p) (z + e)%Z
    ltac:(split; [lia|by apply Hrange]) ltac:(by rewrite Hz, He)).
  rewrite Hbest in Hmin.
  apply num_leb_fin in Hmin as (y & -> & Hy).
  eexists _, y. split; [done|]. simpl. split; [done|].
  unfold tour_cost. rewrite Hc, Hhead. simpl. rewrite He. simpl.
  apply Z.leb_le. lia.
Qed.

Lemma heldKarp_le_greedy (clk1 clk2 : clock) (d : matrix) :
  finite_matrix d → 2 ≤ length d → length d ≤ 15 →
  ∃ hk gr, HeldKarp.heldKarpTSP clk1 d = Some hk ∧
           Greedy.greedyTSP clk2 d = Some gr ∧
           num_leb (cost hk) (cost gr) = true.
Proof.
  intros Hfin Hn2 Hn.
  destruct (greedy_result clk2 d Hfin ltac:(lia))
    as (gr & Hgr & Hpath & Hcost & _).
  pose proof (greedy_path_perm d Hfin ltac:(lia)) as Hperm.
  destruct (greedy_after_inv d (length d - 1) Hfin ltac:(lia)).
  rewrite <- Hpath in *.
  destruct (heldKarp_optimal clk1 d (path gr) Hfin Hn2 Hn Hperm gi_head0)
    as (hk & z & Hhk & _ & Hle).
  exists hk, gr. by rewrite Hcost.
Qed.

(** ** Eulerian circuit: the loop *)

(** The loop unfolds as the [while] statement does. *)
Lemma euler_loop_unfold (st : Euler.state) :
  Euler.loop st =
  match Euler.step st with
  | Euler.Finished => Some (Euler.circuit st)
  | Euler.Thrown => None
  | Euler.Continue st' => Euler.loop st'
  end.
Proof.
  funelim (Euler.loop st);
    match goal with E : Euler.step _ = _ |- _ => by rewrite E end.
Qed.

Lemma euler_step_finished (st : Euler.state) :
  Euler.step st = Euler.Finished ↔ Euler.stack st = [].
Proof.
  unfold Euler.step. rewrite <- last_None.
  destruct (last (Euler.stack st)) as [v|]; [|done].
  split; [|done].
  destruct (Euler.adjList st !! v) as [nv|]; [|done].
  destruct (last nv) as [u|]; [|done].
  by destruct (<[v:=removelast nv]> (Euler.adjList st) !! u).
Qed.

(** A loop invariant that excludes the exception holds, with an empty
    stack, in the state from which the loop returns. *)
Lemma euler_loop_inv (I : Euler.state → Prop) :
  (∀ st, I st → Euler.step st ≠ Euler.Thrown) →
  (∀ st st', I st → Euler.step st = Euler.Continue st' → I st') →
  ∀ st, I st →
    ∃ final, Euler.loop st = Some (Euler.circuit final) ∧ I final ∧
             Euler.stack final = [].
Proof.
  intros Hsafe Hpres.
  assert (∀ m, Acc Euler.lex m → ∀ st, Euler.measure st = m → I st →
    ∃ final, Euler.loop st = Some (Euler.circuit final) ∧ I final ∧
             Euler.stack final = []) as Hwf.
  { induction 1 as [m _ IH]. intros st Hm HI. rewrite euler_loop_unfold.
    destruct (Euler.step st) as [| |st'] eqn:E.
    - exists st. split; [done|]. split; [done|].
      by apply euler_step_finished.
    - by destruct (Hsafe st HI).
    - apply (IH (Euler.measure st')); [|done|by eapply Hpres].
      subst m. by apply Euler.step_decreases. }
  intros st HI. by apply (Hwf (Euler.measure st) (Euler.lex_wf _)).
Qed.

(** ** Eulerian circuit: every vertex that the start reaches is listed *)

(** [b] is a neighbour of [a] in the adjacency lists [g]. *)
Definition adjacent (g : list (list nat)) (a b : nat) : Prop :=
  ∃ ga, g !! a = Some ga ∧ b ∈ ga.

(** Every neighbour is a vertex of the graph. *)
Definition graph_bounded (g : list (list nat)) : Prop :=
  ∀ a b, adjacent g a b → b < length g.

Record euler_inv (g : list (list nat)) (start : nat) (st : Euler.state)
    : Prop := {
  ei_len : length (Euler.adjList st) = length g;
  ei_sub : ∀ a b, adjacent (Euler.adjList st) a b → adjacent g a b;
  ei_stack : ∀ v, v ∈ Euler.stack st → v < length g;
  ei_circ : ∀ v, v ∈ Euler.circuit st → Euler.adjList st !! v = Some [];
  ei_closed : ∀ a b, adjacent g a b →
    adjacent (Euler.adjList st) a b ∨
    ((a ∈ Euler.stack st ∨ a ∈ Euler.circuit st) ∧
     (b ∈ Euler.stack st ∨ b ∈ Euler.circuit st));
  ei_start : start ∈ Euler.stack st ∨ start ∈ Euler.circuit st
}.

Lemma elem_of_removelast {A : Type} (l : list A) (x : A) :
  x ∈ removelast l → x ∈ l.
Proof.
  destruct l as [|y l] using rev_ind; [done|].
  rewrite removelast_last, elem_of_app. by left.
Qed.

Lemma elem_of_removelast_or {A : Type} (l : list A) (u x : A) :
  last l = Some u → x ∈ l → x ∈ removelast l ∨ x = u.
Proof.
  destruct l as [|y l _] using rev_ind; [done|].
  rewrite last_snoc, removelast_last, elem_of_app, list_elem_of_singleton.
  intros [= ->]. tauto.
Qed.

Lemma elem_of_remove_first (v : nat) (l : list nat) (x : nat) :
  x ∈ Euler.remove_first v l → x ∈ l.
Proof.
  induction l as [|y l IH]; simpl; [done|].
  case_decide; rewrite !elem_of_cons; tauto.
Qed.

Lemma elem_of_remove_first_or (v : nat) (l : list nat) (x : nat) :
  x ∈ l → x ∈ Euler.remove_first v l ∨ x = v.
Proof.
  induction l as [|y l IH]; simpl; [by left|].
  case_decide; rewrite !elem_of_cons; [subst|]; tauto.
Qed.

Lemma euler_init_inv (g : list (list nat)) (start : nat) :
  start < length g → euler_inv g start (Euler.mkState g [start] []).
Proof.
  intros Hs. split; simpl; try done.
  - intros v Hv. apply list_elem_of_singleton in Hv. by subst.
  - intros v Hv. by apply elem_of_nil in Hv.
  - intros a b Hab. by left.
  - left. by apply list_elem_of_singleton.
Qed.

Lemma euler_safe (g : list (list nat)) (start : nat) (st : Euler.state) :
  graph_bounded g → euler_inv g start st → Euler.step st ≠ Euler.Thrown.
Proof.
  intros Hg [Hlen Hsub Hstack _ _ _]. unfold Euler.step.
  destruct (last (Euler.stack st)) as [v|] eqn:Hv; [|done].
  assert (v ∈ Euler.stack st) as Hvin.
  { apply last_Some in Hv as [l' ->]. apply elem_of_app. right. by left. }
  destruct (lookup_lt_is_Some_2 (Euler.adjList st) v) as [nv Hnv].
  { rewrite Hlen. by apply Hstack. }
  rewrite Hnv. destruct (last nv) as [u|] eqn:Hu; [|done].
  assert (u < length g) as Hubound.
  { apply (Hg v), Hsub. exists nv. split; [done|].
    apply last_Some in Hu as [l' ->]. apply elem_of_app. right. by left. }
  destruct (lookup_lt_is_Some_2 (<[v:=removelast nv]> (Euler.adjList st)) u)
    as [nu Hnu]; [rewrite length_insert; lia|].
  by rewrite Hnu.
Qed.

Section EulerPush.
Variables (adj : list (list nat)) (v u : nat) (nv nu : list nat).
Hypothesis Hnv : adj !! v = Some nv.
Hypothesis Hu : last nv = Some u.
Hypothesis Hnu : <[v:=removelast nv]> adj !! u = Some nu.

Let adj' := <[u:=Euler.remove_first v nu]> (<[v:=removelast nv]> adj).

Lemma push_adjacent_sub (a b : nat) : adjacent adj' a b → adjacent adj a b.
Proof using Hnv Hnu.
  intros (na & Hna & Hb). subst adj'.
  assert (adjacent (<[v:=removelast nv]> adj) a b) as (na1 & Hna1 & Hb1).
  { destruct (decide (u = a)) as [<-|Hne].
    - rewrite list_lookup_insert_eq in Hna by (by eapply lookup_lt_Some).
      injection Hna as <-. exists nu. split; [done|].
      by eapply elem_of_remove_first.
    - rewrite list_lookup_insert_ne in Hna by done. by exists na. }
  destruct (decide (v = a)) as [<-|Hne].
  - rewrite list_lookup_insert_eq in Hna1 by (by eapply lookup_lt_Some).
    injection Hna1 as <-. exists nv. split; [done|].
    by apply elem_of_removelast.
  - rewrite list_lookup_insert_ne in Hna1 by done. by exists na1.
Qed.

Lemma push_adjacent_closed (a b : nat) :
  adjacent adj a b →
  adjacent adj' a b ∨ (a = v ∧ b = u) ∨ (a = u ∧ b = v).
Proof using Hnv Hu Hnu.
  intros (na & Hna & Hb). subst adj'.
  pose proof (lookup_lt_Some _ _ _ Hnv) as Hvlt.
  pose proof (lookup_lt_Some _ _ _ Hnu) as Hult.
  assert (adjacent (<[v:=removelast nv]> adj) a b ∨ (a = v ∧ b = u))
    as [(na1 & Hna1 & Hb1)|?]; [| |tauto].
  { destruct (decide (v = a)) as [<-|Hne].
    - rewrite Hnv in Hna. injection Hna as <-.
      destruct (elem_of_removelast_or nv u b Hu Hb) as [Hin|?]; [left|tauto].
      exists (removelast nv). split; [|done].
      by rewrite list_lookup_insert_eq.
    - left. exists na. split; [|done]. by rewrite list_lookup_insert_ne. }
  destruct (decide (u = a)) as [<-|Hne].
  - rewrite Hnu in Hna1. injection Hna1 as <-.
    destruct (elem_of_remove_first_or v nu b Hb1) as [Hin|?]; [left|tauto].
    exists (Euler.remove_first v nu). split; [|done].
    by rewrite list_lookup_insert_eq.
  - left. exists na1. split; [|done]. by rewrite list_lookup_insert_ne.
Qed.

End EulerPush.

Lemma euler_preserved (g : list (list nat)) (start : nat)
    (st st' : Euler.state) :
  graph_bounded g → euler_inv g start st →
  Euler.step st = Euler.Continue st' → euler_inv g start st'.
Proof.
  intros Hg [Hlen Hsub Hstack Hcirc Hclosed Hstart]. unfold Euler.step.
  destruct (last (Euler.stack st)) as [v|] eqn:Hv; [|done].
  assert (v ∈ Euler.stack st) as Hvin.
  { apply last_Some in Hv as [l' ->]. apply elem_of_app. right. by left. }
  destruct (Euler.adjList st !! v) as [nv|] eqn:Hnv; [|done].
  destruct (last nv) as [u|] eqn:Hu.
  - destruct (<[v:=removelast nv]> (Euler.adjList st) !! u) as [nu|] eqn:Hnu;
      [|done].
    intros [= <-].
    assert (u < length g) as Hubound.
    { apply (Hg v), Hsub. exists nv. split; [done|].
      apply last_Some in Hu as [l' ->]. apply elem_of_app. right. by left. }
    split; simpl.
    + by rewrite !length_insert.
    + intros a b Hab. apply Hsub. by eapply push_adjacent_sub.
    + intros x Hx. apply elem_of_app in Hx as [Hx|Hx]; [by apply Hstack|].
      apply list_elem_of_singleton in Hx. by subst.
    + intros x Hx. specialize (Hcirc x Hx).
      destruct (lookup_lt_is_Some_2
        (<[u:=Euler.remove_first v nu]>
           (<[v:=removelast nv]> (Euler.adjList st))) x) as [nx Hnx].
      { rewrite !length_insert. by eapply lookup_lt_Some. }
      rewrite Hnx. f_equal. destruct nx as [|b nx]; [done|].
      destruct (push_adjacent_sub _ v u nv nu Hnv Hnu x b) as (na & Hna & Hb).
      { exists (b :: nx). split; [done|]. by left. }
      rewrite Hcirc in Hna. injection Hna as <-. by apply elem_of_nil in Hb.
    + intros a b Hab. rewrite !elem_of_app, !list_elem_of_singleton.
      destruct (Hclosed a b Hab) as [Hold|[Ha Hb]]; [|tauto].
      destruct (push_adjacent_closed _ v u nv nu Hnv Hu Hnu a b Hold)
        as [?|[[-> ->]|[-> ->]]]; [by left|right..]; tauto.
    + rewrite elem_of_app. tauto.
  - intros [= <-]. apply last_None in Hu as ->.
    assert (∀ x, x ∈ Euler.stack st →
      x ∈ removelast (Euler.stack st) ∨ x ∈ Euler.circuit st ++ [v]) as Hseen.
    { intros x Hx. rewrite elem_of_app, list_elem_of_singleton.
      destruct (elem_of_removelast_or _ v x Hv Hx); tauto. }
    split; simpl.
    + done.
    + done.
    + intros x Hx. by apply Hstack, elem_of_removelast.
    + intros x Hx. apply elem_of_app in Hx as [Hx|Hx]; [by apply Hcirc|].
      apply list_elem_of_singleton in Hx. by subst.
    + intros a b Hab. destruct (Hclosed a b Hab) as [?|[Ha Hb]]; [by left|].
      right. rewrite !elem_of_app in *.
      split; [destruct Ha as [Ha|Ha]|destruct Hb as [Hb|Hb]];
        try tauto; apply Hseen in Ha || apply Hseen in Hb;
        rewrite elem_of_app in *; tauto.
    + destruct Hstart as [Hs|Hs]; [apply Hseen in Hs|]; rewrite elem_of_app in *;
        tauto.
Qed.

(** On a graph whose neighbours are vertices, [findEulerianCircuit] returns
    a list of vertices that holds every vertex reachable from the start. *)
Lemma euler_circuit_covers (g : list (list nat)) (start : nat) :
  graph_bounded g → start < length g →
  ∃ c, Euler.findEulerianCircuit g start = Some c ∧
       (∀ x, rtc (adjacent g) start x → x ∈ c) ∧
       (∀ x, x ∈ c → x < length g).
Proof.
  intros Hg Hs.
  destruct (euler_loop_inv (euler_inv g start)
              (λ st, euler_safe g start st Hg)
              (λ st st', euler_preserved g start st st' Hg)
              _ (euler_init_inv g start Hs))
    as (final & Hloop & [Hlen Hsub Hstack Hcirc Hclosed Hstart] & Hempty).
  unfold Euler.findEulerianCircuit. rewrite Hloop. simpl.
  eexists. split; [done|]. rewrite Hempty in *.
  assert (∀ x, x ∈ [] ∨ x ∈ Euler.circuit final → x ∈ Euler.circuit final)
    as Hin.
  { intros x [Hx|Hx]; [by apply elem_of_nil in Hx|done]. }
  split.
  - intros x Hreach. rewrite elem_of_reverse. revert x Hreach.
    apply rtc_ind_r; [by apply Hin|]. intros y z Hyz Hstep IH.
    destruct (Hclosed y z Hstep) as [(nz & Hnz & Hz)|[_ Hz]]; [|by apply Hin].
    rewrite (Hcirc y IH) in Hnz. injection Hnz as <-.
    by apply elem_of_nil in Hz.
  - intros x Hx. rewrite elem_of_reverse in Hx. rewrite <- Hlen.
    eapply lookup_lt_Some. by apply Hcirc.
Qed.

(** ** Shortcutting *)

Lemma shortcut_spec (c : list nat) :
  NoDup (Christofides.shortcut c) ∧
  ∀ x, x ∈ Christofides.shortcut c ↔ x ∈ c.
Proof.
  unfold Christofides.shortcut.
  assert (∀ (s : gset nat * list nat),
    NoDup s.2 → (∀ x, x ∈ s.1 ↔ x ∈ s.2) →
    let s' := foldl (λ (s : gset nat * list nat) vertex,
                if decide (vertex ∈ s.1) then s
                else ({[vertex]} ∪ s.1, s.2 ++ [vertex])) s c in
    NoDup s'.2 ∧ ∀ x, x ∈ s'.2 ↔ x ∈ s.2 ∨ x ∈ c) as Hgen.
  { induction c as [|v c IH]; intros s Hnd Hset; simpl.
    - split; [done|]. intros x. rewrite elem_of_nil. tauto.
    - case_decide as Hv.
      + destruct (IH s Hnd Hset) as [Hnd' Hmem]. split; [done|].
        intros x. rewrite Hmem, elem_of_cons.
        split; [tauto|]. intros [?|[->|?]]; [tauto| |tauto].
        left. by apply Hset.
      + destruct (IH ({[v]} ∪ s.1, s.2 ++ [v])) as [Hnd' Hmem]; simpl.
        * apply NoDup_app. split; [done|]. split; [|apply NoDup_singleton].
          intros x Hx Hx'. apply list_elem_of_singleton in Hx' as ->.
          by apply Hv, Hset.
        * intros x. rewrite elem_of_union, elem_of_singleton, elem_of_app,
            list_elem_of_singleton, Hset. tauto.
        * split; [done|]. intros x. simpl in Hmem.
          rewrite Hmem, elem_of_app, list_elem_of_singleton, elem_of_cons. tauto. }
  destruct (Hgen (∅, [])) as [Hnd Hmem]; simpl.
  - apply NoDup_nil_2.
  - intros x. by rewrite elem_of_nil, elem_of_empty.
  - split; [done|]. intros x. rewrite Hmem, elem_of_nil. tauto.
Qed.

(** ** Prim: the scan for the lightest edge *)

(** The edge found so far joins a visited node to an unvisited one; with
    no edge yet, the weight is still [Infinity]. *)
Definition prim_found (vis : list bool) (n : nat)
    (s : num * option (nat * nat)) : Prop :=
  match s.2 with
  | Some (a, b) => flag vis a = true ∧ flag vis b = false ∧ a < n ∧ b < n
  | None => s.1 = Inf
  end.

Lemma prim_scan_to_step (d : matrix) (vis : list bool) (j k : nat)
    (s : num * option (nat * nat)) :
  finite_matrix d → j < length d → k < length d → flag vis j = true →
  prim_found vis (length d) s →
  prim_found vis (length d) (Prim.scan_to d vis j k s) ∧
  (is_Some s.2 → is_Some (Prim.scan_to d vis j k s).2) ∧
  (flag vis k = false → is_Some (Prim.scan_to d vis j k s).2).
Proof.
  intros Hfin Hj Hk Hvj Hs. unfold Prim.scan_to.
  destruct (finite_entry d j k Hfin Hj Hk) as [e He]. rewrite He.
  destruct (flag vis k) eqn:Hvk; cbn [negb andb].
  { split; [done|]. split; [done|]. done. }
  destruct (num_ltb (Fin e) s.1) eqn:Hlt.
  - split; [by unfold prim_found|]. split; [by eexists|by eexists].
  - split; [done|]. split; [done|]. intros _.
    unfold prim_found in Hs. destruct s as [w [[a b]|]]; simpl in *.
    + by eexists.
    + by subst.
Qed.

Lemma prim_scan_from_step (d : matrix) (vis : list bool) (j : nat)
    (s : num * option (nat * nat)) :
  finite_matrix d → j < length d →
  prim_found vis (length d) s →
  prim_found vis (length d) (Prim.scan_from d vis (length d) j s) ∧
  (is_Some s.2 → is_Some (Prim.scan_from d vis (length d) j s).2) ∧
  (flag vis j = true → (∃ k, k < length d ∧ flag vis k = false) →
     is_Some (Prim.scan_from d vis (length d) j s).2).
Proof.
  intros Hfin Hj Hs. unfold Prim.scan_from.
  destruct (flag vis j) eqn:Hvj; simpl.
  2:{ split; [done|]. split; [done|]. done. }
  pose proof (for_loop_ind (λ k (s' : num * option (nat * nat)),
    k ≤ length d →
    prim_found vis (length d) s' ∧ (is_Some s.2 → is_Some s'.2) ∧
    ((∃ b, b < k ∧ flag vis b = false) → is_Some s'.2))
    (Prim.scan_to d vis j) (length d) 0 s) as Hloop.
  destruct Hloop as (H1 & H2 & H3); [| |done|].
  - intros _. split; [done|]. split; [done|]. intros (b & Hb & _). lia.
  - intros k s' Hk IH Hle. destruct (IH ltac:(lia)) as (I1 & I2 & I3).
    destruct (prim_scan_to_step d vis j k s' Hfin Hj Hk Hvj I1) as (S1 & S2 & S3).
    simpl. split; [done|]. split; [by intros; apply S2, I2|].
    intros (b & Hb & Hvb). destruct (decide (b = k)) as [->|Hne].
    + by apply S3.
    + apply S2, I3. exists b. split; [lia|done].
  - split; [done|]. split; [done|]. intros _ (k & Hk & Hvk). apply H3. by exists k.
Qed.

Lemma prim_lightest_spec (d : matrix) (vis : list bool) :
  finite_matrix d →
  prim_found vis (length d) (Prim.lightest d vis (length d)) ∧
  ((∃ a b, a < length d ∧ b < length d ∧
           flag vis a = true ∧ flag vis b = false) →
   is_Some (Prim.lightest d vis (length d)).2).
Proof.
  intros Hfin. unfold Prim.lightest.
  pose proof (for_loop_ind (λ j (s : num * option (nat * nat)),
    j ≤ length d →
    prim_found vis (length d) s ∧
    ((∃ a b, a < j ∧ b < length d ∧ flag vis a = true ∧ flag vis b = false) →
     is_Some s.2))
    (Prim.scan_from d vis (length d)) (length d) 0 (Inf, None)) as Hloop.
  destruct Hloop as (H1 & H2); [| |done|].
  - intros _. split; [done|]. intros (a & b & Ha & _). lia.
  - intros j s Hj IH Hle. destruct (IH ltac:(lia)) as (I1 & I2).
    destruct (prim_scan_from_step d vis j s Hfin Hj I1) as (S1 & S2 & S3).
    simpl. split; [done|].
    intros (a & b & Ha & Hb & Hva & Hvb). destruct (decide (a = j)) as [->|Hne].
    + apply S3; [done|]. by exists b.
    + apply S2, I2. exists a, b. split; [lia|done].
  - split; [done|]. intros (a & b & Ha & Hb & Hva & Hvb). apply H2.
    by exists a, b.
Qed.

(** ** Prim: the invariant of the outer loop *)

(** The nodes of the tree built so far: node 0 and the end of every edge. *)
Definition tree_nodes (mst : list wedge) : list nat := 0 :: (wto <$> mst).

Record prim_inv (n i : nat) (s : list bool * list wedge) : Prop := {
  pi_len : length s.1 = n;
  pi_size : length s.2 = i;
  pi_nodup : NoDup (tree_nodes s.2);
  pi_vis : ∀ j, j < n → flag s.1 j = true ↔ j ∈ tree_nodes s.2;
  pi_range : ∀ x, x ∈ tree_nodes s.2 → x < n;
  pi_from : ∀ k e, s.2 !! k = Some e → wfrom e ∈ tree_nodes (take k s.2)
}.

Lemma prim_init_inv (n : nat) : 1 ≤ n → prim_inv n 0 (Prim.init n).
Proof.
  intros Hn. destruct n as [|n]; [lia|].
  split; simpl; try done.
  - by rewrite length_replicate.
  - apply NoDup_singleton.
  - intros j Hj. unfold flag, tree_nodes. destruct j as [|j]; simpl.
    + split; [intros _; by left|done].
    + rewrite lookup_replicate_2 by lia. simpl.
      split; [done|]. intros Hx. apply list_elem_of_singleton in Hx. lia.
  - intros x Hx. apply list_elem_of_singleton in Hx. lia.
Qed.

Lemma prim_after_succ (d : matrix) (i : nat) :
  Prim.after d (S i) = Prim.grow d (length d) (Prim.after d i).
Proof. unfold Prim.after. by rewrite for_loop_snoc. Qed.

Lemma prim_step_inv (d : matrix) (i : nat) (s : list bool * list wedge) :
  finite_matrix d → prim_inv (length d) i s → S i < length d →
  prim_inv (length d) (S i) (Prim.grow d (length d) s).
Proof.
  intros Hfin Hinv Hi. destruct Hinv.
  destruct (prim_lightest_spec d s.1 Hfin) as [Hfound Hsome].
  destruct Hsome as [[a b] Hab].
  { destruct (missing_node (tree_nodes s.2) (length d) pi_nodup0) as (b & Hb & Hnb).
    { unfold tree_nodes. simpl. rewrite length_fmap. lia. }
    exists 0, b. split; [lia|]. split; [done|]. split.
    - apply pi_vis0; [lia|]. by left.
    - apply (flag_false_iff _ (tree_nodes s.2)); [by apply pi_vis0|done]. }
  unfold Prim.grow. unfold prim_found in Hfound.
  destruct (Prim.lightest d s.1 (length d)) as [w r]. simpl in *. subst r.
  destruct Hfound as (Hva & Hvb & Ha & Hb).
  assert (b ∉ tree_nodes s.2) as Hfresh.
  { apply (flag_false_iff s.1); [by apply pi_vis0|done]. }
  assert (tree_nodes (s.2 ++ [mkWedge a b w]) = tree_nodes s.2 ++ [b]) as Hnodes.
  { unfold tree_nodes. by rewrite fmap_app. }
  split; simpl.
  - by rewrite length_insert.
  - rewrite length_app. simpl. lia.
  - rewrite Hnodes. apply NoDup_app. split; [done|].
    split; [|apply NoDup_singleton].
    intros x Hx Hx'. apply list_elem_of_singleton in Hx'. by subst.
  - intros j Hj. rewrite Hnodes, elem_of_app, list_elem_of_singleton.
    unfold flag. destruct (decide (j = b)) as [->|Hne].
    + rewrite list_lookup_insert_eq by lia. simpl. tauto.
    + rewrite list_lookup_insert_ne by done.
      specialize (pi_vis0 j Hj). unfold flag in pi_vis0.
      split; [tauto|]. intros [?|?]; [tauto|done].
  - intros x. rewrite Hnodes, elem_of_app, list_elem_of_singleton.
    intros [Hx| ->]; [by apply pi_range0|done].
  - intros k e Hk.
    destruct (decide (k < length s.2)) as [Hlt|Hge].
    + rewrite lookup_app_l in Hk by done. rewrite take_app_le by lia.
      by apply pi_from0.
    + assert (k = length s.2) as ->.
      { apply lookup_lt_Some in Hk. rewrite length_app in Hk. simpl in Hk. lia. }
      rewrite list_lookup_middle in Hk by done. injection Hk as <-. simpl.
      rewrite take_app_length. apply pi_vis0; done.
Qed.

Lemma prim_after_inv (d : matrix) (i : nat) :
  finite_matrix d → S i ≤ length d →
  prim_inv (length d) i (Prim.after d i).
Proof.
  intros Hfin. induction i as [|i IH]; intros Hi.
  - apply prim_init_inv. lia.
  - rewrite prim_after_succ. apply prim_step_inv; [done| |lia]. apply IH. lia.
Qed.

(** The tree of [primMST] on a finite matrix: [n - 1] edges between nodes of
    the matrix, and every node is the end of a chain of edges from node 0. *)
Lemma prim_spanning (d : matrix) :
  finite_matrix d → 1 ≤ length d →
  length (Prim.primMST d) = length d - 1 ∧
  (∀ e, e ∈ Prim.primMST d → wfrom e < length d ∧ wto e < length d) ∧
  (∀ j, j < length d →
     rtc (λ a b, ∃ e, e ∈ Prim.primMST d ∧ wfrom e = a ∧ wto e = b) 0 j).
Proof.
  intros Hfin Hn. unfold Prim.primMST.
  destruct (prim_after_inv d (length d - 1) Hfin ltac:(lia)).
  set (mst := (Prim.after d (length d - 1)).2) in *.
  assert (∀ k x, x ∈ tree_nodes (take k mst) →
    rtc (λ a b, ∃ e, e ∈ mst ∧ wfrom e = a ∧ wto e = b) 0 x) as Hreach.
  { induction k as [|k IH]; intros x Hx.
    - rewrite take_0 in Hx. apply list_elem_of_singleton in Hx as ->. done.
    - destruct (mst !! k) as [e|] eqn:He.
      + rewrite (take_S_r _ _ _ He) in Hx. unfold tree_nodes in Hx.
        rewrite fmap_app, app_comm_cons, elem_of_app in Hx.
        destruct Hx as [Hx|Hx]; [by apply IH|].
        apply list_elem_of_singleton in Hx as ->.
        eapply rtc_r; [apply IH, (pi_from0 k e He)|].
        exists e. split; [|done]. by eapply list_elem_of_lookup_2.
      + apply lookup_ge_None in He. rewrite take_ge in Hx by lia.
        rewrite <- (take_ge mst k) in Hx by lia. by apply IH. }
  split; [done|]. split.
  - intros e He. apply list_elem_of_lookup_1 in He as [k Hk]. split.
    + apply pi_range0. pose proof (pi_from0 k e Hk) as Hin.
      unfold tree_nodes in *. apply elem_of_cons in Hin as [->|Hin]; [by left|].
      right. apply list_elem_of_fmap in Hin as (e' & -> & Hin).
      apply list_elem_of_fmap. exists e'. split; [done|].
      by eapply elem_of_take in Hin as (k' & Hk' & _);
        eapply list_elem_of_lookup_2.
    + apply pi_range0. right. apply list_elem_of_fmap. exists e.
      split; [done|]. by eapply list_elem_of_lookup_2.
  - intros j Hj. apply (Hreach (length mst)). rewrite take_ge by done.
    assert (tree_nodes mst ≡ₚ seq 0 (length d)) as Hperm.
    { apply submseteq_length_Permutation.
      - apply NoDup_submseteq; [done|]. intros x Hx. apply elem_of_seq.
        specialize (pi_range0 x Hx). lia.
      - rewrite length_seq. unfold tree_nodes. simpl. rewrite length_fmap. lia. }
    rewrite Hperm. apply elem_of_seq. lia.
Qed.

(** ** Degrees and the handshake argument *)

(** The two ends of every edge, in order. *)
Fixpoint endpoints (E : list edge) : list nat :=
  match E with
  | [] => []
  | e :: E' => from e :: to e :: endpoints E'
  end.

(** Number of occurrences of [v] in [l]. *)
Definition occ (v : nat) (l : list nat) : nat := length (filter (λ x, x = v) l).

Lemma endpoints_app (E F : list edge) :
  endpoints (E ++ F) = endpoints E ++ endpoints F.
Proof. induction E as [|e E IH]; simpl; [done|]. by rewrite IH. Qed.

Lemma length_endpoints (E : list edge) : length (endpoints E) = 2 * length E.
Proof. induction E as [|e E IH]; simpl; [done|]. rewrite IH. lia. Qed.

Lemma occ_cons (v x : nat) (l : list nat) :
  occ v (x :: l) = (if decide (x = v) then 1 else 0) + occ v l.
Proof. unfold occ. rewrite filter_cons. by case_decide. Qed.

Lemma occ_app (v : nat) (l k : list nat) : occ v (l ++ k) = occ v l + occ v k.
Proof. unfold occ. by rewrite filter_app, length_app. Qed.

Lemma occ_NoDup (v : nat) (l : list nat) :
  NoDup l → occ v l = if decide (v ∈ l) then 1 else 0.
Proof.
  induction l as [|x l IH]; intros Hnd.
  - rewrite decide_False; [done|]. apply not_elem_of_nil.
  - apply NoDup_cons in Hnd as [Hx Hnd]. rewrite occ_cons, IH by done.
    destruct (decide (x = v)) as [->|Hne].
    + rewrite (decide_False (P := v ∈ l)) by done.
      rewrite decide_True; [done|by left].
    + destruct (decide (v ∈ l)) as [Hin|Hout].
      * rewrite decide_True; [done|by right].
      * rewrite decide_False; [done|].
        rewrite elem_of_cons. intros [?|?]; by subst.
Qed.

Lemma alter_S_total (l : list nat) (i v : nat) :
  i < length l →
  alter S i l !!! v = (if decide (i = v) then 1 else 0) + l !!! v.
Proof.
  intros Hi. case_decide as E.
  - subst v. by rewrite list_lookup_total_alter_eq.
  - by rewrite list_lookup_total_alter_ne.
Qed.

Lemma sum_list_alter_S (l : list nat) (i : nat) :
  i < length l → sum_list (alter S i l) = S (sum_list l).
Proof.
  revert i. induction l as [|x l IH]; intros [|i] Hi; simpl in *; try lia.
  change (list_alter S i l) with (alter S i l). rewrite IH by lia. lia.
Qed.

(** [degree[v]] counts the tree edges that end at [v]; the degrees add up
    to twice the number of edges. *)
Lemma degrees_spec (n : nat) (mst : list wedge) :
  (∀ e, e ∈ mst → wfrom e < n ∧ wto e < n) →
  length (Christofides.degrees n mst) = n ∧
  sum_list (Christofides.degrees n mst) = 2 * length mst ∧
  ∀ v, Christofides.degrees n mst !!! v
       = occ v (endpoints (Christofides.plain <$> mst)).
Proof.
  unfold Christofides.degrees.
  induction mst as [|e mst IH] using rev_ind; intros Hrange.
  - simpl. rewrite length_replicate. split; [done|]. split.
    + clear Hrange. induction n; simpl in *; lia.
    + intros v. destruct (decide (v < n)).
      * by rewrite lookup_total_replicate_2.
      * rewrite list_lookup_total_alt, (proj1 (lookup_replicate_None _ _ _));
          [done|lia].
  - destruct IH as (Hlen & Hsum & Hocc).
    { intros e' He'. apply Hrange, elem_of_app. by left. }
    destruct (Hrange e) as [Hf Ht].
    { apply elem_of_app. right. by left. }
    rewrite foldl_app. simpl. rewrite !length_alter.
    split; [done|]. split.
    + rewrite !sum_list_alter_S by (by rewrite ?length_alter, Hlen).
      rewrite length_app. simpl. lia.
    + intros v. rewrite !alter_S_total by (by rewrite ?length_alter, Hlen).
      rewrite Hocc, fmap_app, endpoints_app, occ_app. simpl.
      rewrite !occ_cons. unfold occ at 3. simpl. lia.
Qed.

Lemma parity_add (x a b : nat) :
  a mod 2 = b mod 2 → (x + a) mod 2 = (x mod 2 + b) mod 2.
Proof.
  intros H. by rewrite (Nat.Div0.add_mod x a), H, Nat.Div0.add_mod_idemp_r.
Qed.

Lemma sum_list_parity (l : list nat) :
  sum_list l mod 2 = length (filter (λ x, x mod 2 = 1) l) mod 2.
Proof.
  induction l as [|x l IH]; [done|].
  rewrite filter_cons. simpl sum_list. rewrite (parity_add _ _ _ IH).
  pose proof (Nat.mod_upper_bound x 2 ltac:(lia)).
  case_decide as Hx; simpl length.
  - by rewrite Hx.
  - by replace (x mod 2) with 0 by lia.
Qed.

Lemma oddVertices_filter (n : nat) (degree : list nat) :
  Christofides.oddVertices n degree
  = filter (λ i, degree !!! i mod 2 = 1) (seq 0 n).
Proof.
  unfold Christofides.oddVertices.
  apply (for_loop_ind (λ k acc,
    acc = filter (λ i, degree !!! i mod 2 = 1) (seq 0 k))); [done|].
  intros i acc Hi ->. rewrite seq_S, filter_app, filter_cons, filter_nil.
  cbn [Nat.add]. case_decide; by rewrite ?app_nil_r.
Qed.

Lemma filter_indices_length (degree : list nat) (P : nat → Prop)
    `{∀ x, Decision (P x)} :
  length (filter (λ i, P (degree !!! i)) (seq 0 (length degree)))
  = length (filter P degree).
Proof.
  induction degree as [|x l IH] using rev_ind; [done|].
  rewrite length_app. simpl. rewrite Nat.add_1_r, seq_S, !filter_app, !length_app.
  simpl. f_equal.
  - rewrite <- IH. f_equal. apply filter_ext_elem.
    intros i Hi. apply elem_of_seq in Hi.
    by rewrite lookup_total_app_l by lia.
  - rewrite !filter_cons, !filter_nil.
    rewrite list_lookup_total_middle by done. by case_decide.
Qed.

Lemma odd_vertices_spec (n : nat) (mst : list wedge) :
  (∀ e, e ∈ mst → wfrom e < n ∧ wto e < n) →
  let degree := Christofides.degrees n mst in
  let odd := Christofides.oddVertices n degree in
  NoDup odd ∧ (∀ v, v ∈ odd ↔ v < n ∧ degree !!! v mod 2 = 1) ∧
  length odd mod 2 = 0.
Proof.
  intros Hrange degree odd.
  destruct (degrees_spec n mst Hrange) as (Hlen & Hsum & _).
  subst odd. rewrite oddVertices_filter. split; [|split].
  - apply NoDup_filter, NoDup_seq.
  - intros v. rewrite list_elem_of_filter, elem_of_seq. lia.
  - replace (seq 0 n) with (seq 0 (length degree)) by (by subst degree; rewrite Hlen).
    pose proof (filter_indices_length degree (λ x, x mod 2 = 1)) as E.
    cbv beta in E. rewrite E.
    rewrite <- sum_list_parity. fold degree in Hsum. rewrite Hsum.
    by rewrite Nat.mul_comm, Nat.Div0.mod_mul.
Qed.

(** ** The multigraph of tree edges and matching edges *)

Lemma adjacent_alter_snoc (g : list (list nat)) (i x a b : nat) :
  i < length g →
  adjacent (alter (λ l, l ++ [x]) i g) a b ↔ adjacent g a b ∨ (i = a ∧ x = b).
Proof.
  intros Hi. unfold adjacent. rewrite list_lookup_alter.
  case_decide as Hia.
  - subst a. destruct (lookup_lt_is_Some_2 g i Hi) as [l Hl]. rewrite Hl. simpl.
    split.
    + intros (ga & [= <-] & Hb). rewrite elem_of_app, list_elem_of_singleton in Hb.
      destruct Hb as [Hb|Hb]; [left; by exists l|by right].
    + intros [(ga & [= <-] & Hb)|[_ <-]]; eexists; (split; [done|]);
        rewrite elem_of_app, list_elem_of_singleton; tauto.
  - split; [by left|]. intros [?|[? _]]; done.
Qed.

Lemma adjacent_add_edge (g : list (list nat)) (e : edge) (a b : nat) :
  from e < length g → to e < length g →
  adjacent (Christofides.add_edge g e) a b ↔
  adjacent g a b ∨ (from e = a ∧ to e = b) ∨ (to e = a ∧ from e = b).
Proof.
  intros Hf Ht. unfold Christofides.add_edge.
  rewrite !adjacent_alter_snoc by (by rewrite ?length_alter). tauto.
Qed.

Lemma length_alter_snoc (g : list (list nat)) (i x v : nat) :
  i < length g →
  length (alter (λ l, l ++ [x]) i g !!! v)
  = length (g !!! v) + (if decide (i = v) then 1 else 0).
Proof.
  intros Hi. case_decide as Hiv.
  - subst v. rewrite list_lookup_total_alter_eq by done.
    rewrite length_app. simpl. lia.
  - rewrite list_lookup_total_alter_ne by done. lia.
Qed.

Lemma length_add_edge (g : list (list nat)) (e : edge) (v : nat) :
  from e < length g → to e < length g →
  length (Christofides.add_edge g e) = length g ∧
  length (Christofides.add_edge g e !!! v)
  = length (g !!! v) + occ v (endpoints [e]).
Proof.
  intros Hf Ht. unfold Christofides.add_edge. rewrite !length_alter.
  split; [done|].
  rewrite !length_alter_snoc by (by rewrite ?length_alter).
  simpl. rewrite !occ_cons. unfold occ. simpl. lia.
Qed.

Lemma graph_spec (g0 : list (list nat)) (E : list edge) :
  (∀ e, e ∈ E → from e < length g0 ∧ to e < length g0) →
  length (foldl Christofides.add_edge g0 E) = length g0 ∧
  (∀ v, length (foldl Christofides.add_edge g0 E !!! v)
        = length (g0 !!! v) + occ v (endpoints E)) ∧
  (∀ a b, adjacent (foldl Christofides.add_edge g0 E) a b ↔
          adjacent g0 a b ∨
          ∃ e, e ∈ E ∧ ((from e = a ∧ to e = b) ∨ (to e = a ∧ from e = b))).
Proof.
  induction E as [|e E IH] using rev_ind; intros Hrange.
  - simpl. split; [done|]. split; [intros v; unfold occ; simpl; lia|].
    intros a b. split; [by left|]. intros [?|(e & He & _)]; [done|].
    by apply elem_of_nil in He.
  - destruct IH as (Hlen & Hdeg & Hadj).
    { intros e' He'. apply Hrange, elem_of_app. by left. }
    destruct (Hrange e) as [Hf Ht]. { apply elem_of_app. right. by left. }
    rewrite foldl_app. simpl.
    destruct (length_add_edge (foldl Christofides.add_edge g0 E) e 0)
      as [Hlen' _]; [lia..|].
    split; [lia|]. split.
    + intros v.
      destruct (length_add_edge (foldl Christofides.add_edge g0 E) e v)
        as [_ ->]; [lia..|].
      rewrite Hdeg, endpoints_app, occ_app. lia.
    + intros a b. rewrite adjacent_add_edge, Hadj by lia. split.
      * intros [[?|(e' & He' & Hc)]|Hc]; [by left| |].
        -- right. exists e'. split; [|done]. apply elem_of_app. by left.
        -- right. exists e. split; [|done]. apply elem_of_app. right. by left.
      * intros [?|(e' & He' & Hc)]; [by left; left|].
        apply elem_of_app in He' as [He'|He'].
        -- left. right. by exists e'.
        -- apply list_elem_of_singleton in He' as ->. by right.
Qed.

(** ** Greedy matching *)

Lemma partner_spec (d : matrix) (vs : list nat) (used : gset nat) (i : nat) :
  finite_matrix d → (∀ x, x ∈ vs → x < length d) → i < length vs →
  (∀ j, (Matching.partner d vs used i).2 = Some j →
        i < j < length vs ∧ vs !!! j ∉ used) ∧
  ((∃ j, i < j < length vs ∧ vs !!! j ∉ used) →
   is_Some (Matching.partner d vs used i).2).
Proof.
  intros Hfin Hrange Hi. unfold Matching.partner.
  pose proof (for_loop_ind (λ k (s : num * option nat),
    k ≤ length vs - (i + 1) →
    match s.2 with
    | Some j => i < j < i + 1 + k ∧ vs !!! j ∉ used
    | None => s.1 = Inf
    end ∧
    ((∃ j, i < j < i + 1 + k ∧ vs !!! j ∉ used) → is_Some s.2))
    (Matching.partner_body d vs used i) (length vs - (i + 1)) (i + 1) (Inf, None))
    as Hloop.
  destruct Hloop as [H1 H2]; [| |done|].
  - intros _. split; [done|]. intros (j & Hj & _). lia.
  - intros k [w r] Hk IH Hle. destruct (IH ltac:(lia)) as [I1 I2]. simpl in *.
    unfold Matching.partner_body. simpl.
    set (j := i + 1 + k).
    destruct (finite_entry d (vs !!! i) (vs !!! j) Hfin) as [e He].
    { apply Hrange, list_elem_of_lookup_total_2. lia. }
    { apply Hrange, list_elem_of_lookup_total_2. lia. }
    rewrite He.
    case_decide as Hused.
    { split.
      - destruct r as [j'|]; [|done]. split; [lia|tauto].
      - intros (j' & Hj' & Hu). destruct (decide (j' = j)) as [->|Hne]; [done|].
        apply I2. exists j'. split; [lia|done]. }
    destruct (num_ltb (Fin e) w) eqn:Hlt; simpl.
    + split; [split; [lia|done]|]. intros _. by eexists.
    + assert (is_Some r) as [j' ->].
      { destruct r as [j'|]; [by eexists|]. subst w. done. }
      split; [split; [lia|tauto]|]. intros _. by eexists.
  - split.
    + intros j Hj. rewrite Hj in H1. split; [lia|tauto].
    + intros (j & Hj & Hu). apply H2. exists j. split; [lia|done].
Qed.

Record match_inv (vs : list nat) (i : nat) (s : list edge * gset nat)
    : Prop := {
  mi_nodup : NoDup (endpoints s.1);
  mi_used : ∀ x, x ∈ s.2 ↔ x ∈ endpoints s.1;
  mi_sub : ∀ x, x ∈ endpoints s.1 → x ∈ vs;
  mi_done : ∀ k, k < i → k < length vs → vs !!! k ∈ s.2
}.

(** An unmatched vertex of an even-sized set has an unmatched partner
    further down the list. *)
Lemma partner_exists (vs : list nat) (i : nat) (s : list edge * gset nat) :
  NoDup vs → (∃ h, length vs = 2 * h) → match_inv vs i s →
  i < length vs → vs !!! i ∉ s.2 →
  ∃ j, i < j < length vs ∧ vs !!! j ∉ s.2.
Proof.
  intros Hnd [h Heven] [Hndm Hused Hsub Hdone] Hi Hfree.
  set (U := filter (λ x, ¬ x ∈ s.2) vs).
  assert (filter (λ x, x ∈ s.2) vs ≡ₚ endpoints s.1) as Hperm.
  { apply NoDup_Permutation; [by apply NoDup_filter|done|].
    intros x. rewrite list_elem_of_filter, Hused. split; [tauto|].
    intros Hx. split; [done|by apply Hsub]. }
  pose proof (filter_app_complement (λ x, x ∈ s.2) vs) as Hsplit.
  apply Permutation_length in Hsplit. rewrite length_app, Hperm in Hsplit.
  rewrite length_endpoints in Hsplit. fold U in Hsplit.
  assert (NoDup U) as HndU by (by apply NoDup_filter).
  assert (vs !!! i ∈ U) as HiU.
  { apply list_elem_of_filter. split; [done|].
    by apply list_elem_of_lookup_total_2. }
  assert (∃ y, y ∈ U ∧ y ≠ vs !!! i) as (y & HyU & Hne).
  { destruct U as [|a [|b U']]; simpl in *;
      [by apply elem_of_nil in HiU|lia|].
    apply NoDup_cons in HndU as [Hab _].
    destruct (decide (a = vs !!! i)) as [->|Ha].
    - exists b. split; [by right; left|]. intros E. apply Hab. rewrite <- E.
      by left.
    - exists a. split; [by left|done]. }
  apply list_elem_of_filter in HyU as [Hyfree Hyin].
  apply list_elem_of_lookup_total_1 in Hyin as (j & Hj & Hjy).
  exists j. subst y. split; [|done].
  destruct (decide (j < i)) as [Hlt|Hge].
  - exfalso. apply Hyfree. by apply Hdone.
  - destruct (decide (j = i)) as [->|]; [done|lia].
Qed.

Lemma matching_step_inv (d : matrix) (vs : list nat) (i : nat)
    (s : list edge * gset nat) :
  finite_matrix d → (∀ x, x ∈ vs → x < length d) →
  NoDup vs → (∃ h, length vs = 2 * h) → i < length vs →
  match_inv vs i s → match_inv vs (S i) (Matching.pair_up d vs i s).
Proof.
  intros Hfin Hrange Hnd Heven Hi Hinv. unfold Matching.pair_up.
  case_decide as Hused.
  { destruct Hinv. split; try done. intros k Hk Hlen.
    destruct (decide (k = i)) as [->|]; [done|]. apply mi_done0; [lia|done]. }
  destruct (partner_spec d vs s.2 i Hfin Hrange Hi) as [Hsome Hfind].
  destruct (Hfind (partner_exists vs i s Hnd Heven Hinv Hi Hused)) as [j Hj].
  rewrite Hj. destruct (Hsome j Hj) as [Hij Hjfree].
  destruct Hinv as [Hndm Hum Hsub Hdone].
  assert (vs !!! i ≠ vs !!! j) as Hne.
  { intros E. apply (NoDup_lookup vs i j (vs !!! i)) in Hnd; [lia| |].
    - apply list_lookup_lookup_total_lt. lia.
    - rewrite E. apply list_lookup_lookup_total_lt. lia. }
  split; simpl.
  - rewrite endpoints_app. simpl. apply NoDup_app. split; [done|]. split.
    + intros x Hx Hx'. apply Hum in Hx.
      rewrite !elem_of_cons, elem_of_nil in Hx'.
      destruct Hx' as [->|[->|[]]]; done.
    + apply NoDup_cons. split; [|apply NoDup_singleton].
      by rewrite list_elem_of_singleton.
  - intros x. rewrite endpoints_app, elem_of_app. simpl.
    rewrite !elem_of_union, !elem_of_singleton, !elem_of_cons, elem_of_nil, Hum.
    tauto.
  - intros x. rewrite endpoints_app, elem_of_app. simpl.
    rewrite !elem_of_cons, elem_of_nil.
    intros [Hx|[->|[->|[]]]]; [by apply Hsub| |];
      apply list_elem_of_lookup_total_2; lia.
  - intros k Hk Hlen. rewrite !elem_of_union, !elem_of_singleton.
    destruct (decide (k = i)) as [->|]; [tauto|].
    right. right. apply Hdone; [lia|done].
Qed.

(** On an even number of distinct vertices the greedy matching pairs
    every vertex exactly once. *)
Lemma matching_perfect (d : matrix) (vs : list nat) :
  finite_matrix d → (∀ x, x ∈ vs → x < length d) →
  NoDup vs → (∃ h, length vs = 2 * h) →
  endpoints (Matching.minimumWeightMatching vs d) ≡ₚ vs.
Proof.
  intros Hfin Hrange Hnd Heven. unfold Matching.minimumWeightMatching.
  assert (match_inv vs (length vs) (Matching.after d vs (length vs)))
    as [Hndm Hum Hsub Hdone].
  { unfold Matching.after.
    apply (for_loop_ind (λ i s, i ≤ length vs → match_inv vs i s)); [| |done].
    - intros _. split; simpl.
      + apply NoDup_nil_2.
      + intros x. by rewrite elem_of_nil, elem_of_empty.
      + intros x Hx. by apply elem_of_nil in Hx.
      + intros k Hk. lia.
    - intros i s Hi IH Hle. simpl.
      apply matching_step_inv; try done. apply IH. lia. }
  apply NoDup_Permutation; [done|done|].
  intros x. split; [by apply Hsub|].
  intros Hx. apply list_elem_of_lookup_total_1 in Hx as (k & Hk & <-).
  apply Hum, Hdone; done.
Qed.

(** ** Christofides: the stages together *)

Lemma endpoints_elem (E : list edge) (e : edge) :
  e ∈ E → from e ∈ endpoints E ∧ to e ∈ endpoints E.
Proof.
  induction E as [|e' E IH]; intros He; [by apply elem_of_nil in He|].
  simpl. rewrite !elem_of_cons. apply elem_of_cons in He as [->|He]; [tauto|].
  destruct (IH He). tauto.
Qed.

Lemma occ_Permutation (v : nat) (l k : list nat) : l ≡ₚ k → occ v l = occ v k.
Proof. intros H. unfold occ. by rewrite H. Qed.

Lemma even_from_mod (a : nat) : a mod 2 = 0 → ∃ h, a = 2 * h.
Proof. intros H. exists (a / 2). pose proof (Nat.div_mod_eq a 2). lia. Qed.

Section ChristofidesStages.
Variable d : matrix.
Hypothesis Hfin : finite_matrix d.
Hypothesis Hn : 1 ≤ length d.

Let n := length d.
Let mst := Prim.primMST d.
Let degree := Christofides.degrees n mst.
Let odd := Christofides.oddVertices n degree.
Let matching := Matching.minimumWeightMatching odd d.
Let graph := Christofides.eulerianGraph n mst matching.

Lemma christofides_mst_range (e : wedge) :
  e ∈ mst → wfrom e < n ∧ wto e < n.
Proof.
  destruct (prim_spanning d Hfin Hn) as (_ & Hrange & _). apply Hrange.
Qed.

Lemma christofides_odd_even : ∃ h, length odd = 2 * h.
Proof.
  apply even_from_mod.
  apply (odd_vertices_spec n mst christofides_mst_range).
Qed.

Lemma christofides_odd_range (v : nat) : v ∈ odd → v < n.
Proof.
  intros Hv.
  by apply (odd_vertices_spec n mst christofides_mst_range) in Hv as [? _].
Qed.

Lemma christofides_matching_perfect : endpoints matching ≡ₚ odd.
Proof.
  apply matching_perfect; [done| | |].
  - apply christofides_odd_range.
  - apply (odd_vertices_spec n mst christofides_mst_range).
  - apply christofides_odd_even.
Qed.

Lemma christofides_graph :
  length graph = n ∧
  (∀ v, length (graph !!! v) = degree !!! v + occ v odd) ∧
  (∀ a b, adjacent graph a b ↔
     ∃ e, e ∈ (Christofides.plain <$> mst) ++ matching ∧
          ((from e = a ∧ to e = b) ∨ (to e = a ∧ from e = b))).
Proof.
  unfold graph, Christofides.eulerianGraph.
  set (g0 := replicate n ([] : list nat)).
  assert (length g0 = n) as Hlen0 by apply length_replicate.
  destruct (graph_spec g0 (Christofides.plain <$> mst)) as (Hlen1 & Hdeg1 & Hadj1).
  { intros e He. apply list_elem_of_fmap in He as (w & -> & Hw).
    rewrite Hlen0. by apply christofides_mst_range. }
  set (g1 := foldl Christofides.add_edge g0 (Christofides.plain <$> mst)) in *.
  destruct (graph_spec g1 matching) as (Hlen2 & Hdeg2 & Hadj2).
  { intros e He. apply endpoints_elem in He as [Hf Ht].
    rewrite christofides_matching_perfect in Hf, Ht.
    rewrite Hlen1, Hlen0. split; by apply christofides_odd_range. }
  assert (∀ v, g0 !!! v = []) as Hempty.
  { intros v. subst g0. destruct (decide (v < n)).
    - by rewrite lookup_total_replicate_2.
    - rewrite list_lookup_total_alt, (proj1 (lookup_replicate_None _ _ _));
        [done|lia]. }
  split; [lia|]. split.
  - intros v. rewrite Hdeg2, Hdeg1, Hempty. simpl.
    destruct (degrees_spec n mst christofides_mst_range) as (_ & _ & Hocc).
    unfold degree. rewrite Hocc.
    by rewrite (occ_Permutation v _ _ christofides_matching_perfect).
  - intros a b. rewrite Hadj2, Hadj1. split.
    + intros [[(ga & Hga & Hb)|(e & He & Hc)]|(e & He & Hc)].
      * subst g0. apply lookup_replicate in Hga as [-> _].
        by apply elem_of_nil in Hb.
      * exists e. split; [|done]. apply elem_of_app. by left.
      * exists e. split; [|done]. apply elem_of_app. by right.
    + intros (e & He & Hc). apply elem_of_app in He as [He|He].
      * left. right. by exists e.
      * right. by exists e.
Qed.

(** Every vertex of the multigraph has even degree. *)
Lemma christofides_even_degree (v : nat) :
  v < n → ∃ h, length (graph !!! v) = 2 * h.
Proof.
  intros Hv. destruct christofides_graph as (_ & Hdeg & _). rewrite Hdeg.
  destruct (odd_vertices_spec n mst christofides_mst_range)
    as (Hnd & Hmem & _).
  fold degree in Hmem. fold odd in Hnd, Hmem.
  rewrite (occ_NoDup v odd Hnd).
  pose proof (Nat.div_mod_eq (degree !!! v) 2) as Hdiv.
  pose proof (Nat.mod_upper_bound (degree !!! v) 2 ltac:(lia)) as Hbound.
  case_decide as Hin.
  - apply Hmem in Hin as [_ Hodd]. exists (degree !!! v / 2 + 1). lia.
  - exists (degree !!! v / 2).
    assert (degree !!! v mod 2 ≠ 1) by (intros E; apply Hin, Hmem; done).
    lia.
Qed.

Lemma christofides_graph_bounded : graph_bounded graph.
Proof.
  destruct christofides_graph as (Hlen & _ & Hadj).
  assert (∀ e, e ∈ (Christofides.plain <$> mst) ++ matching →
    from e < n ∧ to e < n) as Hrange.
  { intros e He. apply elem_of_app in He as [He|He].
    - apply list_elem_of_fmap in He as (w & -> & Hw).
      by apply christofides_mst_range.
    - apply endpoints_elem in He as [Hf Ht].
      rewrite christofides_matching_perfect in Hf, Ht.
      split; by apply christofides_odd_range. }
  intros a b Hab. rewrite Hlen.
  apply Hadj in Hab as (e & He & Hc). destruct (Hrange e He).
  destruct Hc as [[_ <-]|[_ <-]]; done.
Qed.

Lemma christofides_connected (j : nat) :
  j < n → rtc (adjacent graph) 0 j.
Proof.
  intros Hj. destruct (prim_spanning d Hfin Hn) as (_ & _ & Hreach).
  destruct christofides_graph as (_ & _ & Hadj).
  eapply rtc_subrel; [|by apply Hreach].
  intros a b (e & He & <- & <-). apply Hadj.
  exists (Christofides.plain e). split; [|by left].
  apply elem_of_app. left. by apply list_elem_of_fmap_2.
Qed.

End ChristofidesStages.

Definition christofides_start : AlgorithmStep :=
  mkStep [Str "Step 1: Find Minimum Spanning Tree (MST)"] None [] []
    None None None (Some [Str "Using Prim's algorithm to find MST"]).

(** [christofidesTSP] returns on a finite matrix; the shape of what it
    returns. *)
Lemma christofides_result (clk : clock) (d : matrix) :
  finite_matrix d → 1 ≤ length d →
  ∃ r circuit,
    Christofides.christofidesTSP clk d = Some r ∧
    Euler.findEulerianCircuit
      (Christofides.eulerianGraph (length d) (Prim.primMST d)
         (Matching.minimumWeightMatching
            (Christofides.oddVertices (length d)
               (Christofides.degrees (length d) (Prim.primMST d))) d)) 0
      = Some circuit ∧
    path r = Christofides.shortcut circuit ∧
    NoDup (path r) ∧ path r ≡ₚ seq 0 (length d) ∧
    cost r = Christofides.tourCost d (path r) ∧
    head (steps r) = Some christofides_start ∧
    ∃ st, last (steps r) = Some st ∧
          currentPath st = path r ∧ stepCost st = Some (cost r).
Proof.
  intros Hfin Hn.
  pose proof (christofides_graph d Hfin Hn) as (Hlen & _ & _).
  pose proof (christofides_graph_bounded d Hfin Hn) as Hbounded.
  pose proof (christofides_connected d Hfin Hn) as Hconn.
  cbv zeta in Hlen, Hbounded, Hconn.
  destruct (euler_circuit_covers _ 0 Hbounded ltac:(lia))
    as (c & Hc & Hcover & Hbound).
  unfold Christofides.christofidesTSP. rewrite Hc. simpl.
  destruct (shortcut_spec c) as [Hnd Hmem].
  eexists _, c. split; [done|]. split; [done|]. simpl.
  split; [done|]. split; [done|]. split.
  - apply NoDup_Permutation; [done|apply NoDup_seq|].
    intros x. rewrite Hmem, elem_of_seq. split.
    + intros Hx. apply Hbound in Hx. lia.
    + intros Hx. apply Hcover, Hconn. lia.
  - split; [done|]. split; [done|]. eexists. split; [done|]. done.
Qed.

(** ** Pairs of the matching that hold a vertex *)

Lemma no_pair_holds (M : list edge) (v : nat) :
  v ∉ endpoints M → filter (λ e, from e = v ∨ to e = v) M = [].
Proof.
  induction M as [|e M IH]; [done|]. simpl. rewrite !not_elem_of_cons.
  intros (Hf & Ht & Hrest). rewrite filter_cons, IH by done.
  case_decide as Hc; [|done]. destruct Hc; by subst.
Qed.

Lemma one_pair_holds (M : list edge) (v : nat) :
  NoDup (endpoints M) → v ∈ endpoints M →
  length (filter (λ e, from e = v ∨ to e = v) M) = 1.
Proof.
  induction M as [|e M IH]; simpl; intros Hnd Hv; [by apply elem_of_nil in Hv|].
  apply NoDup_cons in Hnd as [Hf Hnd]. apply NoDup_cons in Hnd as [Ht Hnd].
  rewrite not_elem_of_cons in Hf. destruct Hf as [Hft Hf].
  rewrite filter_cons. case_decide as Hc.
  - rewrite no_pair_holds; [done|]. destruct Hc as [<-|<-]; done.
  - rewrite !elem_of_cons in Hv. destruct Hv as [->|[->|Hv]]; [tauto|tauto|].
    by apply IH.
Qed.

(** ** Held-Karp above fifteen nodes *)

Lemma heldKarp_large (clk : clock) (d : matrix) :
  15 < length d →
  HeldKarp.heldKarpTSP clk d = Some (HeldKarp.too_large clk (length d)).
Proof.
  intros Hn. unfold HeldKarp.heldKarpTSP.
  by replace (15 <? length d) with true by (symmetry; by apply Nat.ltb_lt).
Qed.

(** [heldKarpTSP] throws on the empty matrix only: the bound on the walk
    along [parent] is never hit. *)
Lemma heldKarp_returns (clk : clock) (d : matrix) :
  HeldKarp.heldKarpTSP clk d = None ↔ length d = 0.
Proof.
  split.
  - intros Hnone. destruct (decide (length d = 0)) as [|Hne]; [done|].
    destruct (decide (15 < length d)) as [Hbig|Hsmall].
    + by rewrite heldKarp_large in Hnone.
    + destruct (heldKarp_small clk d ltac:(lia) ltac:(lia))
        as (t0 & p & minCost & _ & _ & _ & Hr & _).
      by rewrite Hr in Hnone.
  - intros Hlen. apply nil_length_inv in Hlen as ->. by vm_compute.
Qed.

(** ** The clock only sets the execution time *)

Lemma greedy_clock (clk1 clk2 : clock) (d : matrix) :
  path <$> Greedy.greedyTSP clk1 d = path <$> Greedy.greedyTSP clk2 d ∧
  cost <$> Greedy.greedyTSP clk1 d = cost <$> Greedy.greedyTSP clk2 d.
Proof.
  unfold Greedy.greedyTSP.
  destruct (d !! _) as [row|]; simpl; [|done].
  by destruct (row !! _).
Qed.

Lemma heldKarp_clock (clk1 clk2 : clock) (d : matrix) :
  path <$> HeldKarp.heldKarpTSP clk1 d = path <$> HeldKarp.heldKarpTSP clk2 d ∧
  cost <$> HeldKarp.heldKarpTSP clk1 d = cost <$> HeldKarp.heldKarpTSP clk2 d.
Proof.
  unfold HeldKarp.heldKarpTSP.
  destruct (15 <? length d); [done|].
  destruct (HeldKarp.init (length d)) as [t0|]; simpl; [|done].
  destruct (HeldKarp.best _ _ _ _) as [minCost lastNode].
  by destruct (HeldKarp.walk _ _ _ _ _).
Qed.

Lemma christofides_clock (clk1 clk2 : clock) (d : matrix) :
  path <$> Christofides.christofidesTSP clk1 d
  = path <$> Christofides.christofidesTSP clk2 d ∧
  cost <$> Christofides.christofidesTSP clk1 d
  = cost <$> Christofides.christofidesTSP clk2 d.
Proof.
  unfold Christofides.christofidesTSP.
  by destruct (Euler.findEulerianCircuit _ _).
Qed.

(** ** Eulerian circuit: every run ends *)

(** An iteration that continues either removes an adjacency entry or pops
    the stack and leaves the adjacency lists as they are. *)
Lemma euler_step_cases (st st' : Euler.state) :
  Euler.step st = Euler.Continue st' →
  Euler.entries (Euler.adjList st') < Euler.entries (Euler.adjList st) ∨
  (Euler.adjList st' = Euler.adjList st ∧
   S (length (Euler.stack st')) = length (Euler.stack st)).
Proof.
  unfold Euler.step. intros H.
  destruct (last (Euler.stack st)) as [v|] eqn:Hv; [|done].
  destruct (Euler.adjList st !! v) as [nv|] eqn:Hnv; [|done].
  destruct (last nv) as [u|] eqn:Hu.
  - destruct (<[v:=removelast nv]> (Euler.adjList st) !! u) as [nu|] eqn:Hnu;
      [|done].
    injection H as <-. left. simpl.
    pose proof (Euler.entries_insert _ _ _ (removelast nv) Hnv) as E1.
    pose proof (Euler.entries_insert _ _ _ (Euler.remove_first v nu) Hnu) as E2.
    pose proof (Euler.length_removelast _ _ Hu).
    pose proof (Euler.length_remove_first v nu). lia.
  - injection H as <-. right. simpl. split; [done|].
    by apply (Euler.length_removelast _ v).
Qed.

(** From every state finitely many iterations lead to the state where the
    loop stops, by the empty stack or by the exception. *)
Lemma euler_run_ends (st : Euler.state) :
  ∃ final, rtc (λ a b, Euler.step a = Euler.Continue b) st final ∧
    ((Euler.step final = Euler.Finished ∧
      Euler.loop st = Some (Euler.circuit final)) ∨
     (Euler.step final = Euler.Thrown ∧ Euler.loop st = None)).
Proof.
  assert (∀ m, Acc Euler.lex m → ∀ st, Euler.measure st = m →
    ∃ final, rtc (λ a b, Euler.step a = Euler.Continue b) st final ∧
      ((Euler.step final = Euler.Finished ∧
        Euler.loop st = Some (Euler.circuit final)) ∨
       (Euler.step final = Euler.Thrown ∧ Euler.loop st = None))) as Hwf.
  { induction 1 as [m _ IH]. intros s Hm. rewrite euler_loop_unfold.
    destruct (Euler.step s) as [| |s'] eqn:E.
    - exists s. split; [done|]. left. by rewrite E.
    - exists s. split; [done|]. right. by rewrite E.
    - destruct (IH (Euler.measure s')
        ltac:(subst m; by apply Euler.step_decreases) s' eq_refl)
        as (final & Hrun & Hend).
      exists final. split; [|done]. by apply (rtc_l _ s s' final). }
  by apply (Hwf (Euler.measure st) (Euler.lex_wf _)).
Qed.


(** * The claims of the specification *)



(** C2. For every matrix with more than fifteen nodes, [heldKarpTSP]
    returns the empty path, the cost [Infinity] and exactly one step, which
    holds the empty path and no cost; the result only depends on the number
    of nodes, so no entry of the matrix is read. *)
Theorem C2_heldKarp_refuses_large (clk : clock) (d : matrix) :
  15 < length d →
  ∃ r st, HeldKarp.heldKarpTSP clk d = Some r ∧
          path r = [] ∧ cost r = Inf ∧ steps r = [st] ∧
          description st = [Str "Graph too large for Held-Karp"] ∧
          currentPath st = [] ∧ visitedNodes st = [] ∧ stepCost st = None ∧
          ∀ d', length d' = length d →
                HeldKarp.heldKarpTSP clk d' = Some r.
Proof.
  intros Hn. eexists _, _. split; [by apply heldKarp_large|]. simpl.
  repeat (split; [done|]).
  intros d' Hlen. rewrite heldKarp_large by lia. by rewrite Hlen.
Qed.

Lemma C2_heldKarp_refuses_large_witness :
  15 < length zero16 ∧
  ∃ r, HeldKarp.heldKarpTSP clk0 zero16 = Some r ∧ path r = [] ∧ cost r = Inf.
Proof.
  assert (15 < length zero16) as H by (vm_compute; lia).
  split; [exact H|].
  destruct (C2_heldKarp_refuses_large clk0 zero16 H)
    as (r & st & Hr & Hp & Hc & _).
  exists r. split; [exact Hr|]. split; [exact Hp|exact Hc].
Defined.

(** For two to fifteen nodes the cost of [heldKarpTSP] is at most the cost
    of [greedyTSP]. *)
Lemma heldKarp_le_greedy_valid (clk1 clk2 : clock) (d : matrix) :
  valid_matrix d → 2 ≤ length d → length d ≤ 15 →
  ∃ hk gr, HeldKarp.heldKarpTSP clk1 d = Some hk ∧
           Greedy.greedyTSP clk2 d = Some gr ∧
           num_leb (cost hk) (cost gr) = true.
Proof. intros H. by apply heldKarp_le_greedy, valid_finite. Qed.

(** C3. On the single-node matrix, which is valid and has [n <= 10],
    [heldKarpTSP] returns the cost [Infinity] and [greedyTSP] the cost 0:
    the cost of Held-Karp is not at most the cost of Greedy there.  (From two
    nodes on it is: lemma [heldKarp_le_greedy_valid].) *)
Theorem C3_single_node_heldKarp_above_greedy :
  valid_matrix single_node ∧ length single_node ≤ 10 ∧
  ∃ hk gr, HeldKarp.heldKarpTSP clk0 single_node = Some hk ∧
           Greedy.greedyTSP clk0 single_node = Some gr ∧
           cost hk = Inf ∧ cost gr = Fin 0 ∧
           num_leb (cost hk) (cost gr) = false.
Proof.
  split; [reflexivity|]. split; [simpl; lia|].
  eexists _, _. split; [vm_compute; reflexivity|].
  split; [vm_compute; reflexivity|]. done.
Qed.

(** C4. In [christofidesTSP] on a valid matrix: [oddVertices] lists, each
    once, the vertices of odd degree in the tree of [primMST], and they are
    an even number; each of them is in exactly one pair of the greedy
    matching; every vertex of the multigraph of tree and matching edges has
    even degree; the path, obtained from the circuit of
    [findEulerianCircuit] by shortcutting, has no repeated entry. *)
Theorem C4_christofides_invariants (clk : clock) (d : matrix) :
  valid_matrix d →
  let n := length d in
  let mst := Prim.primMST d in
  let degree := Christofides.degrees n mst in
  let odd := Christofides.oddVertices n degree in
  let matching := Matching.minimumWeightMatching odd d in
  let graph := Christofides.eulerianGraph n mst matching in
  (∀ v, v ∈ odd ↔
        v < n ∧ occ v (endpoints (Christofides.plain <$> mst)) mod 2 = 1) ∧
  NoDup odd ∧ Nat.Even (length odd) ∧
  (∀ v, v ∈ odd →
        length (filter (λ e, from e = v ∨ to e = v) matching) = 1) ∧
  (∀ v, v < n → Nat.Even (length (graph !!! v))) ∧
  ∃ r circuit, Christofides.christofidesTSP clk d = Some r ∧
               Euler.findEulerianCircuit graph 0 = Some circuit ∧
               path r = Christofides.shortcut circuit ∧ NoDup (path r).
Proof.
  intros Hvalid n mst degree odd matching graph.
  pose proof (valid_finite d Hvalid) as Hfin.
  pose proof (valid_nonempty d Hvalid) as Hn.
  pose proof (christofides_mst_range d Hfin Hn) as Hrange. cbv zeta in Hrange.
  destruct (odd_vertices_spec n mst Hrange) as (Hnd & Hmem & _).
  destruct (degrees_spec n mst Hrange) as (_ & _ & Hocc).
  fold degree in Hmem, Hocc. fold odd in Hnd, Hmem.
  pose proof (christofides_matching_perfect d Hfin Hn) as Hperfect.
  cbv zeta in Hperfect. fold n mst degree odd matching in Hperfect.
  split; [|split; [|split; [|split; [|split]]]].
  - intros v. by rewrite Hmem, Hocc.
  - done.
  - apply (christofides_odd_even d Hfin Hn).
  - intros v Hv. apply one_pair_holds; by rewrite Hperfect.
  - intros v Hv. by apply (christofides_even_degree d Hfin Hn).
  - destruct (christofides_result clk d Hfin Hn)
      as (r & c & Hr & Hc & Hpath & Hnodup & _).
    by exists r, c.
Qed.

Lemma C4_christofides_invariants_witness :
  valid_matrix square4 ∧
  ∃ r circuit,
    Christofides.christofidesTSP clk0 square4 = Some r ∧
    Euler.findEulerianCircuit
      (Christofides.eulerianGraph 4 (Prim.primMST square4)
         (Matching.minimumWeightMatching
            (Christofides.oddVertices 4
               (Christofides.degrees 4 (Prim.primMST square4))) square4)) 0
      = Some circuit ∧
    NoDup (path r).
Proof.
  split; [reflexivity|].
  destruct (C4_christofides_invariants clk0 square4 eq_refl)
    as (_ & _ & _ & _ & _ & r & c & Hr & Hc & _ & Hnd).
  exists r, c. split; [exact Hr|]. split; [exact Hc|exact Hnd].
Defined.

(** On the square the Eulerian circuit comes back to node 0; the path
    drops the repetition. *)
Example christofides_square4 :
  Euler.findEulerianCircuit
    (Christofides.eulerianGraph 4 (Prim.primMST square4)
       (Matching.minimumWeightMatching
          (Christofides.oddVertices 4
             (Christofides.degrees 4 (Prim.primMST square4))) square4)) 0
  = Some [0; 3; 2; 1; 0] ∧
  path <$> Christofides.christofidesTSP clk0 square4 = Some [0; 3; 2; 1] ∧
  cost <$> Christofides.christofidesTSP clk0 square4 = Some (Fin 40).
Proof. by vm_compute. Qed.






Example greedy_square4 :
  path <$> Greedy.greedyTSP clk0 square4 = Some [0; 1; 2; 3] ∧
  cost <$> Greedy.greedyTSP clk0 square4 = Some (Fin 40).
Proof. by vm_compute. Qed.

Example heldKarp_square4 :
  path <$> HeldKarp.heldKarpTSP clk0 square4 = Some [0; 3; 2; 1] ∧
  cost <$> HeldKarp.heldKarpTSP clk0 square4 = Some (Fin 40).
Proof. by vm_compute. Qed.

(** C7. On the single-node matrix [greedyTSP] and [christofidesTSP] return
    the path [[0]] and the cost 0, but [heldKarpTSP] returns the empty path
    and the cost [Infinity]: its search for the last node skips node 0, the
    only node. *)
Theorem C7_single_node (clk : clock) :
  (path <$> Greedy.greedyTSP clk single_node = Some [0] ∧
   cost <$> Greedy.greedyTSP clk single_node = Some (Fin 0)) ∧
  (path <$> Christofides.christofidesTSP clk single_node = Some [0] ∧
   cost <$> Christofides.christofidesTSP clk single_node = Some (Fin 0)) ∧
  (path <$> HeldKarp.heldKarpTSP clk single_node = Some [] ∧
   cost <$> HeldKarp.heldKarpTSP clk single_node = Some Inf).
Proof. by vm_compute. Qed.

(** C8. The path and the cost of each solver only depend on the matrix:
    two calls on the same matrix, whatever the clock reads, return the same
    path and the same cost (or both throw). *)
Theorem C8_deterministic (clk1 clk2 : clock) (d : matrix) :
  (path <$> Greedy.greedyTSP clk1 d = path <$> Greedy.greedyTSP clk2 d ∧
   cost <$> Greedy.greedyTSP clk1 d = cost <$> Greedy.greedyTSP clk2 d) ∧
  (path <$> HeldKarp.heldKarpTSP clk1 d = path <$> HeldKarp.heldKarpTSP clk2 d ∧
   cost <$> HeldKarp.heldKarpTSP clk1 d = cost <$> HeldKarp.heldKarpTSP clk2 d) ∧
  (path <$> Christofides.christofidesTSP clk1 d
   = path <$> Christofides.christofidesTSP clk2 d ∧
   cost <$> Christofides.christofidesTSP clk1 d
   = cost <$> Christofides.christofidesTSP clk2 d).
Proof.
  split; [apply greedy_clock|]. split; [apply heldKarp_clock|].
  apply christofides_clock.
Qed.

(** The execution time does depend on the clock. *)
Example execution_time_differs :
  executionTime <$> Greedy.greedyTSP (Fin 0, Fin 1) single_node
  ≠ executionTime <$> Greedy.greedyTSP (Fin 0, Fin 2) single_node.
Proof. by vm_compute. Qed.

(** C9. [findEulerianCircuit] terminates on every adjacency-list input.
    An iteration of its loop that continues removes an adjacency entry or
    pops the stack and leaves the adjacency lists unchanged, so the pair
    (number of adjacency entries, stack length) goes down in the
    lexicographic order, which is well founded; the loop is defined by
    recursion on it, unfolds as the [while] statement, and from every state
    reaches, in finitely many iterations, the state where it returns or
    throws. *)
Theorem C9_euler_terminates :
  well_founded Euler.lex ∧
  (∀ st st', Euler.step st = Euler.Continue st' →
     (Euler.entries (Euler.adjList st') < Euler.entries (Euler.adjList st) ∨
      (Euler.adjList st' = Euler.adjList st ∧
       S (length (Euler.stack st')) = length (Euler.stack st))) ∧
     Euler.lex (Euler.measure st') (Euler.measure st)) ∧
  (∀ st, Euler.loop st =
         match Euler.step st with
         | Euler.Finished => Some (Euler.circuit st)
         | Euler.Thrown => None
         | Euler.Continue st' => Euler.loop st'
         end) ∧
  (∀ graph start,
     ∃ final,
       rtc (λ a b, Euler.step a = Euler.Continue b)
         (Euler.mkState graph [start] []) final ∧
       ((Euler.step final = Euler.Finished ∧
         Euler.findEulerianCircuit graph start
         = Some (reverse (Euler.circuit final))) ∨
        (Euler.step final = Euler.Thrown ∧
         Euler.findEulerianCircuit graph start = None))).
Proof.
  split; [apply Euler.lex_wf|]. split; [|split].
  - intros st st' Hstep. split; [by apply euler_step_cases|].
    by apply Euler.step_decreases.
  - apply euler_loop_unfold.
  - intros graph start.
    destruct (euler_run_ends (Euler.mkState graph [start] []))
      as (final & Hrun & Hend).
    exists final. split; [done|]. unfold Euler.findEulerianCircuit.
    destruct Hend as [[Hf ->]|[Ht ->]]; [by left|by right].
Qed.

(** C10. In [greedyTSP] on a square matrix of finite non-negative entries
    with at least one node: every iteration of the outer loop finds an
    unvisited node, so the branch [nearest === -1] is not taken; every read
    of [visited] and of the matrix, the closing edge included, is within
    bounds; the solver returns, and its path has length [n]. *)
Theorem C10_greedy_in_bounds (clk : clock) (d : matrix) :
  square_nonneg d →
  (∀ i, S i < length d →
     let s := Greedy.after d i in
     ∃ nearest,
       (Greedy.scan d (Greedy.visited s) (last_node (Greedy.gpath s))
          (length d)).1 = Some nearest ∧
       nearest < length d ∧ nearest ∉ Greedy.gpath s) ∧
  (∀ i j, S i ≤ length d → j < length d →
     let s := Greedy.after d i in
     length (Greedy.visited s) = length d ∧
     length (filter (λ k, flag (Greedy.visited s) k = false) (seq 0 (length d)))
     = length d - 1 - i ∧
     ∃ z, d !! last_node (Greedy.gpath s) ≫= (.!! j) = Some (Fin z)) ∧
  ∃ r, Greedy.greedyTSP clk d = Some r ∧ length (path r) = length d.
Proof.
  intros Hsq.
  pose proof (square_nonneg_finite d Hsq) as Hfin.
  pose proof (square_nonneg_nonempty d Hsq) as Hn.
  split; [|split].
  - intros i Hi s.
    pose proof (greedy_after_inv d i Hfin ltac:(lia)) as Hinv.
    destruct (greedy_scan_finds d i s Hfin Hinv Hi) as (m & Hscan & Hnear).
    exists m. rewrite Hscan. destruct Hnear as (Hm & Hnew & _). done.
  - intros i j Hi Hj s.
    pose proof (greedy_after_inv d i Hfin Hi) as Hinv. fold s in Hinv.
    split; [apply Hinv|]. split; [by apply greedy_unvisited_count|].
    destruct Hinv. apply Hfin; [|done].
    apply gi_range0, last_node_elem. intros E. by rewrite E in gi_len0.
  - destruct (greedy_result clk d Hfin Hn) as (r & Hr & Hpath & _).
    exists r. split; [done|].
    pose proof (greedy_path_perm d Hfin Hn) as Hperm. rewrite <- Hpath in Hperm.
    by rewrite Hperm, length_seq.
Qed.

Lemma C10_greedy_in_bounds_witness :
  square_nonneg square4 ∧
  ∃ r, Greedy.greedyTSP clk0 square4 = Some r ∧ length (path r) = 4.
Proof.
  split; [reflexivity|].
  destruct (C10_greedy_in_bounds clk0 square4 eq_refl) as (_ & _ & r & Hr & Hlen).
  exists r. split; [exact Hr|exact Hlen].
Defined.

(** * Further lemmas *)

(** ** Eulerian circuit on an arbitrary adjacency array

    [findEulerianCircuit] is exported to no caller but
    [christofidesTSP]; what follows holds for every adjacency array,
    also one whose neighbours are not indices of the array. *)

Record euler_gen (g : list (list nat)) (start : nat) (st : Euler.state)
    : Prop := {
  eg_len : length (Euler.adjList st) = length g;
  eg_sub : ∀ a b, adjacent (Euler.adjList st) a b → adjacent g a b;
  eg_reach : ∀ v, v ∈ Euler.stack st ∨ v ∈ Euler.circuit st →
    rtc (adjacent g) start v;
  eg_circ : ∀ v, v ∈ Euler.circuit st → Euler.adjList st !! v = Some [];
  eg_closed : ∀ a b, adjacent g a b →
    adjacent (Euler.adjList st) a b ∨
    ((a ∈ Euler.stack st ∨ a ∈ Euler.circuit st) ∧
     (b ∈ Euler.stack st ∨ b ∈ Euler.circuit st));
  eg_head : head (Euler.stack st ++ reverse (Euler.circuit st)) = Some start;
  eg_count : length (Euler.stack st) + length (Euler.circuit st)
             + Euler.entries (Euler.adjList st) ≤ 1 + Euler.entries g
}.

Lemma euler_gen_init (g : list (list nat)) (start : nat) :
  euler_gen g start (Euler.mkState g [start] []).
Proof.
  split; simpl; try done.
  - intros v [Hv|Hv]; [|by apply elem_of_nil in Hv].
    apply list_elem_of_singleton in Hv. by subst.
  - intros v Hv. by apply elem_of_nil in Hv.
  - intros a b Hab. by left.
Qed.

Lemma last_elem_of {A : Type} (l : list A) (x : A) : last l = Some x → x ∈ l.
Proof.
  intros H. apply last_Some in H as [l' ->]. apply elem_of_app. right. by left.
Qed.

Lemma euler_gen_preserved (g : list (list nat)) (start : nat)
    (st st' : Euler.state) :
  euler_gen g start st →
  Euler.step st = Euler.Continue st' → euler_gen g start st'.
Proof.
  intros [Hlen Hsub Hreach Hcirc Hclosed Hhead Hcount]. unfold Euler.step.
  destruct (last (Euler.stack st)) as [v|] eqn:Hv; [|done].
  pose proof (last_elem_of _ _ Hv) as Hvin.
  destruct (Euler.adjList st !! v) as [nv|] eqn:Hnv; [|done].
  destruct (last nv) as [u|] eqn:Hu.
  - destruct (<[v:=removelast nv]> (Euler.adjList st) !! u) as [nu|] eqn:Hnu;
      [|done].
    intros [= <-].
    assert (adjacent g v u) as Hvu.
    { apply Hsub. exists nv. split; [done|]. by apply last_elem_of. }
    split; simpl.
    + by rewrite !length_insert.
    + intros a b Hab. apply Hsub. by eapply push_adjacent_sub.
    + intros x [Hx|Hx]; [|apply Hreach; by right].
      apply elem_of_app in Hx as [Hx|Hx]; [apply Hreach; by left|].
      apply list_elem_of_singleton in Hx as ->.
      eapply rtc_r; [|exact Hvu]. apply Hreach. by left.
    + intros x Hx. specialize (Hcirc x Hx).
      destruct (lookup_lt_is_Some_2
        (<[u:=Euler.remove_first v nu]>
           (<[v:=removelast nv]> (Euler.adjList st))) x) as [nx Hnx].
      { rewrite !length_insert. by eapply lookup_lt_Some. }
      rewrite Hnx. f_equal. destruct nx as [|b nx]; [done|].
      destruct (push_adjacent_sub _ v u nv nu Hnv Hnu x b) as (na & Hna & Hb).
      { exists (b :: nx). split; [done|]. by left. }
      rewrite Hcirc in Hna. injection Hna as <-. by apply elem_of_nil in Hb.
    + intros a b Hab. rewrite !elem_of_app, !list_elem_of_singleton.
      destruct (Hclosed a b Hab) as [Hold|[Ha Hb]]; [|tauto].
      destruct (push_adjacent_closed _ v u nv nu Hnv Hu Hnu a b Hold)
        as [?|[[-> ->]|[-> ->]]]; [by left|right..]; tauto.
    + rewrite <- Hhead. destruct (Euler.stack st); [done|]. done.
    + rewrite length_app. simpl.
      pose proof (Euler.entries_insert _ _ _ (removelast nv) Hnv) as E1.
      pose proof (Euler.entries_insert _ _ _ (Euler.remove_first v nu) Hnu) as E2.
      pose proof (Euler.length_removelast _ _ Hu).
      pose proof (Euler.length_remove_first v nu). lia.
  - intros [= <-]. apply last_None in Hu as ->.
    assert (∀ x, x ∈ Euler.stack st →
      x ∈ removelast (Euler.stack st) ∨ x ∈ Euler.circuit st ++ [v]) as Hseen.
    { intros x Hx. rewrite elem_of_app, list_elem_of_singleton.
      destruct (elem_of_removelast_or _ v x Hv Hx); tauto. }
    split; simpl.
    + done.
    + done.
    + intros x [Hx|Hx]; [apply Hreach; left; by apply elem_of_removelast|].
      apply elem_of_app in Hx as [Hx|Hx]; [apply Hreach; by right|].
      apply list_elem_of_singleton in Hx as ->. apply Hreach. by left.
    + intros x Hx. apply elem_of_app in Hx as [Hx|Hx]; [by apply Hcirc|].
      apply list_elem_of_singleton in Hx. by subst.
    + intros a b Hab. destruct (Hclosed a b Hab) as [?|[Ha Hb]]; [by left|].
      right. rewrite !elem_of_app in *.
      split; [destruct Ha as [Ha|Ha]|destruct Hb as [Hb|Hb]];
        try tauto; apply Hseen in Ha || apply Hseen in Hb;
        rewrite elem_of_app in *; tauto.
    + rewrite <- Hhead. apply last_Some in Hv as [l' ->].
      rewrite removelast_last, reverse_app. simpl.
      by rewrite <- app_assoc.
    + rewrite length_app. simpl.
      pose proof (Euler.length_removelast _ _ Hv). lia.
Qed.

(** The invariant holds in every state that a run from the initial state
    goes through. *)
Lemma euler_gen_run (g : list (list nat)) (start : nat) (final : Euler.state) :
  rtc (λ a b, Euler.step a = Euler.Continue b)
      (Euler.mkState g [start] []) final →
  euler_gen g start final.
Proof.
  revert final. apply rtc_ind_r; [apply euler_gen_init|].
  intros y z _ Hstep IH. by eapply euler_gen_preserved.
Qed.

(** What [findEulerianCircuit] returns on any adjacency array: a list
    that begins with the start vertex, lists exactly the vertices that the
    start reaches, all of them indices of the array, and is no longer than
    the number of adjacency entries plus one. *)
Lemma euler_vertices (g : list (list nat)) (start : nat)
    (c : list nat) :
  Euler.findEulerianCircuit g start = Some c →
  head c = Some start ∧
  (∀ x, x ∈ c ↔ rtc (adjacent g) start x) ∧
  (∀ x, x ∈ c → x < length g) ∧
  length c ≤ 1 + Euler.entries g.
Proof.
  unfold Euler.findEulerianCircuit. intros Hc.
  destruct (euler_run_ends (Euler.mkState g [start] []))
    as (final & Hrun & [[Hfin Hloop]|[_ Hloop]]);
    rewrite Hloop in Hc; [|done].
  injection Hc as <-.
  destruct (euler_gen_run g start final Hrun)
    as [Hlen Hsub Hreach Hcirc Hclosed Hhead Hcount].
  apply euler_step_finished in Hfin. rewrite Hfin in *. simpl in *.
  assert (start ∈ Euler.circuit final) as Hstart.
  { rewrite <- elem_of_reverse.
    destruct (reverse (Euler.circuit final)); simplify_eq/=. by left. }
  split; [done|]. split; [|split].
  - intros x. rewrite elem_of_reverse. split; [intros Hx; apply Hreach; by right|].
    revert x. apply rtc_ind_r; [done|]. intros y z Hyz Hstep IH.
    destruct (Hclosed y z Hstep) as [(nz & Hnz & Hz)|[_ [Hz|Hz]]];
      [|by apply elem_of_nil in Hz|done].
    rewrite (Hcirc y IH) in Hnz. injection Hnz as <-.
    by apply elem_of_nil in Hz.
  - intros x Hx. rewrite elem_of_reverse in Hx. rewrite <- Hlen.
    eapply lookup_lt_Some. by apply Hcirc.
  - rewrite length_reverse. lia.
Qed.

(** [findEulerianCircuit] throws exactly when the start vertex reaches a
    vertex that is not an index of the adjacency array (the start itself
    included). *)
Lemma euler_throws (g : list (list nat)) (start : nat) :
  Euler.findEulerianCircuit g start = None ↔
  ∃ x, rtc (adjacent g) start x ∧ length g ≤ x.
Proof.
  split.
  - unfold Euler.findEulerianCircuit. intros Hc.
    destruct (euler_run_ends (Euler.mkState g [start] []))
      as (final & Hrun & [[_ Hloop]|[Hthrow _]]);
      [by rewrite Hloop in Hc|].
    destruct (euler_gen_run g start final Hrun)
      as [Hlen Hsub Hreach _ _ _ _].
    unfold Euler.step in Hthrow.
    destruct (last (Euler.stack final)) as [v|] eqn:Hv; [|done].
    pose proof (last_elem_of _ _ Hv) as Hvin.
    destruct (Euler.adjList final !! v) as [nv|] eqn:Hnv.
    + destruct (last nv) as [u|] eqn:Hu; [|done].
      destruct (<[v:=removelast nv]> (Euler.adjList final) !! u) as [nu|] eqn:Hnu;
        [done|].
      exists u. split.
      * eapply rtc_r; [apply Hreach; by left|]. apply Hsub.
        exists nv. split; [done|]. by apply last_elem_of.
      * apply lookup_ge_None_1 in Hnu. rewrite length_insert in Hnu. lia.
    + exists v. split; [apply Hreach; by left|].
      apply lookup_ge_None_1 in Hnv. lia.
  - intros (x & Hreach & Hx).
    destruct (Euler.findEulerianCircuit g start) as [c|] eqn:Hc; [|done].
    destruct (euler_vertices g start c Hc) as (_ & Hmem & Hrange & _).
    apply Hmem, Hrange in Hreach. lia.
Qed.

(** ** The cost of a tour, recomputed *)


(** The index loop of lines 306-308 adds the legs from left to right. *)
Lemma legs_take_S (d : matrix) (p : list nat) (i : nat) :
  S i < length p →
  legs d (take (S (S i)) p)
  = legs d (take (S i) p) ++ [entry d (p !!! i) (p !!! (i + 1))].
Proof.
  intros Hi.
  destruct (lookup_lt_is_Some_2 p (S i)) as [y Hy]; [done|].
  destruct (lookup_lt_is_Some_2 p i) as [x Hx]; [lia|].
  rewrite (take_S_r _ _ _ Hy), legs_snoc.
  - rewrite (take_S_r _ _ _ Hx), last_node_snoc.
    rewrite (list_lookup_total_correct _ _ _ Hx).
    replace (i + 1) with (S i) by lia.
    by rewrite (list_lookup_total_correct _ _ _ Hy).
  - rewrite (take_S_r _ _ _ Hx). by destruct (take i p).
Qed.

Lemma tourCost_legs (d : matrix) (p : list nat) :
  for_loop (length p - 1) 0
    (λ i c, num_add c (entry d (p !!! i) (p !!! (i + 1)))) (Fin 0)
  = foldl num_add (Fin 0) (legs d p).
Proof.
  assert (∀ k, k ≤ length p - 1 →
    for_loop k 0 (λ i c, num_add c (entry d (p !!! i) (p !!! (i + 1)))) (Fin 0)
    = foldl num_add (Fin 0) (legs d (take (S k) p))) as H.
  { induction k as [|k IH]; intros Hk.
    - simpl. by destruct p as [|x [|y p]].
    - rewrite for_loop_snoc, IH by lia. simpl.
      rewrite legs_take_S by lia. by rewrite foldl_app. }
  rewrite H by lia. destruct p as [|x p]; [done|].
  rewrite take_ge; [done|]. simpl. lia.
Qed.

Lemma lookup_total_head (p : list nat) : p !!! 0 = default 0 (head p).
Proof. by destruct p. Qed.

Lemma tourCost_tour_cost (d : matrix) (p : list nat) :
  Christofides.tourCost d p = tour_cost d p.
Proof.
  unfold Christofides.tourCost, tour_cost.
  by rewrite tourCost_legs, lookup_total_head.
Qed.

(** While every node of the path is a row of the matrix, the loop of
    [calculatePathCost] does not throw and adds the same legs. *)
Lemma calculatePathCost_legs (d : matrix) (p : list nat) :
  (∀ x, x ∈ p → x < length d) →
  for_loop (length p - 1) 0 (GraphGenerator.leg d p) (Some (Fin 0))
  = Some (foldl num_add (Fin 0) (legs d p)).
Proof.
  intros Hrange. rewrite <- tourCost_legs.
  apply (for_loop_ind (λ k s, s = Some (for_loop k 0
           (λ i c, num_add c (entry d (p !!! i) (p !!! (i + 1)))) (Fin 0))));
    [done|].
  intros i t Hi ->. rewrite for_loop_snoc. simpl.
  unfold GraphGenerator.leg. simpl.
  destruct (lookup_lt_is_Some_2 d (p !!! i)) as [row Hrow].
  { apply Hrange, list_elem_of_lookup_total_2. lia. }
  rewrite Hrow. simpl. unfold entry. by rewrite Hrow.
Qed.

Lemma calculatePathCost_tour_cost (d : matrix) (p : list nat) :
  p ≠ [] → (∀ x, x ∈ p → x < length d) →
  GraphGenerator.calculatePathCost p d = Some (tour_cost d p).
Proof.
  intros Hne Hrange. unfold GraphGenerator.calculatePathCost.
  rewrite calculatePathCost_legs by done. simpl.
  destruct (last p) as [l|] eqn:Hl; [|by apply last_None in Hl].
  simpl. destruct (lookup_lt_is_Some_2 d l) as [row Hrow].
  { by apply Hrange, last_elem_of. }
  rewrite Hrow. simpl. unfold tour_cost, last_node, entry.
  by rewrite Hl, lookup_total_head; simpl; rewrite Hrow.
Qed.

(** [calculatePathCost] throws on the empty path, whatever the matrix,
    and on a path whose last node is not a row of the matrix. *)
Lemma calculatePathCost_none (p : list nat) (d : matrix) :
  (p = [] ∨ length d ≤ last_node p) →
  GraphGenerator.calculatePathCost p d = None.
Proof.
  unfold GraphGenerator.calculatePathCost, last_node. intros H.
  destruct (for_loop _ _ _ _) as [c|]; [simpl|done].
  destruct (last p) as [l|] eqn:Hl; [simpl|done].
  destruct H as [->|H]; [done|]. simpl in H.
  by rewrite (lookup_ge_None_2 d l).
Qed.

(** ** Held-Karp: the cost of a cell is the cost of its chain

    A finite cell [dp[m][l]] with [l ≠ 0] equals the cell its parent
    points to plus the edge from the parent to [l].  The cell pointed to
    lies in a row that the sweep has passed, so it is not written again. *)
Section HeldKarpExact.
Variable d : matrix.
Variable n : nat.
Hypothesis Hn : n ≤ 15.







End HeldKarpExact.




(** ** Shortcutting keeps the first visit of every vertex *)

(** The loop of lines 296-303 with its set of visited vertices. *)
Fixpoint first_visits (seen : gset nat) (c : list nat) : list nat :=
  match c with
  | [] => []
  | x :: c' =>
      if decide (x ∈ seen) then first_visits seen c'
      else x :: first_visits ({[x]} ∪ seen) c'
  end.

Lemma shortcut_first_visits (c : list nat) :
  Christofides.shortcut c = first_visits ∅ c.
Proof.
  unfold Christofides.shortcut.
  assert (∀ (s : gset nat * list nat),
    (foldl (λ (s : gset nat * list nat) vertex,
              if decide (vertex ∈ s.1) then s
              else ({[vertex]} ∪ s.1, s.2 ++ [vertex])) s c).2
    = s.2 ++ first_visits s.1 c) as H.
  { induction c as [|x c IH]; intros s; simpl; [by rewrite app_nil_r|].
    case_decide; rewrite IH; [done|]. simpl. by rewrite <- app_assoc. }
  by rewrite H.
Qed.

Lemma first_visits_sublist (seen : gset nat) (c : list nat) :
  first_visits seen c `sublist_of` c.
Proof.
  revert seen. induction c as [|x c IH]; intros seen; simpl; [done|].
  case_decide; [by apply sublist_cons|by apply sublist_skip].
Qed.

Lemma first_visits_fresh (seen : gset nat) (c : list nat) :
  NoDup c → (∀ x, x ∈ c → x ∉ seen) → first_visits seen c = c.
Proof.
  revert seen. induction c as [|x c IH]; intros seen Hnd Hfresh; simpl; [done|].
  apply NoDup_cons in Hnd as [Hx Hnd].
  rewrite decide_False by (apply Hfresh; by left). f_equal.
  apply IH; [done|]. intros y Hy. rewrite elem_of_union, elem_of_singleton.
  intros [->|Hin]; [done|]. apply (Hfresh y); [by right|done].
Qed.

Lemma shortcut_sublist (c : list nat) : Christofides.shortcut c `sublist_of` c.
Proof. rewrite shortcut_first_visits. apply first_visits_sublist. Qed.

Lemma shortcut_head (c : list nat) : head (Christofides.shortcut c) = head c.
Proof.
  rewrite shortcut_first_visits. destruct c as [|x c]; [done|]. simpl.
  by rewrite decide_False by apply not_elem_of_empty.
Qed.

Lemma shortcut_NoDup_id (c : list nat) : NoDup c → Christofides.shortcut c = c.
Proof.
  intros Hc. rewrite shortcut_first_visits. apply first_visits_fresh; [done|].
  intros x _. apply not_elem_of_empty.
Qed.

(** ** Christofides: the tour and its cost *)

Lemma christofides_tour (clk : clock) (d : matrix) :
  finite_matrix d → 1 ≤ length d →
  ∃ r, Christofides.christofidesTSP clk d = Some r ∧
       path r ≡ₚ seq 0 (length d) ∧ head (path r) = Some 0 ∧
       cost r = tour_cost d (path r).
Proof.
  intros Hfin Hn.
  destruct (christofides_result clk d Hfin Hn)
    as (r & circuit & Hr & Hcirc & Hpath & _ & Hperm & Hcost & _).
  exists r. split; [done|]. split; [done|]. split.
  - destruct (euler_vertices _ _ _ Hcirc) as (Hhead & _).
    by rewrite Hpath, shortcut_head.
  - by rewrite Hcost, tourCost_tour_cost.
Qed.

(** ** Prim: every edge is a lightest edge that leaves the tree *)

(** [(a, b)] joins a visited node to an unvisited one. *)
Definition crossing (vis : list bool) (n a b : nat) : Prop :=
  a < n ∧ b < n ∧ flag vis a = true ∧ flag vis b = false.

(** The double loop of lines 336-346 reads [(a, b)] before [(j, k)]. *)
Definition earlier (j k a b : nat) : Prop := a < j ∨ (a = j ∧ b < k).

(** The state of the scan when it is about to read [(j, k)]: the lightest
    crossing edge read so far, the first one among equals. *)
Definition prim_best (d : matrix) (vis : list bool) (n j k : nat)
    (s : num * option (nat * nat)) : Prop :=
  match s.2 with
  | Some (a, b) =>
      s.1 = entry d a b ∧ crossing vis n a b ∧ earlier j k a b ∧
      ∀ a' b', crossing vis n a' b' → earlier j k a' b' →
        num_leb (entry d a b) (entry d a' b') = true ∧
        (earlier a b a' b' → num_ltb (entry d a b) (entry d a' b') = true)
  | None => s.1 = Inf ∧ ∀ a' b', crossing vis n a' b' → ¬ earlier j k a' b'
  end.

Lemma prim_best_scan_to (d : matrix) (vis : list bool) (j k : nat)
    (s : num * option (nat * nat)) :
  finite_matrix d → j < length d → k < length d → flag vis j = true →
  prim_best d vis (length d) j k s →
  prim_best d vis (length d) j (S k) (Prim.scan_to d vis j k s).
Proof.
  intros Hfin Hj Hk Hvj Hs. unfold Prim.scan_to.
  destruct (finite_entry d j k Hfin Hj Hk) as [e He].
  assert (∀ a' b', earlier j (S k) a' b' →
    earlier j k a' b' ∨ (a' = j ∧ b' = k)) as Hsplit.
  { unfold earlier. intros a' b'. lia. }
  destruct (flag vis k) eqn:Hvk; cbn [negb andb].
  { (* [k] is visited: nothing new to compare with *)
    unfold prim_best in *. destruct s as [w [[a b]|]]; simpl in *.
    - destruct Hs as (Hw & Hc & He' & Hmin). split; [done|]. split; [done|].
      split; [unfold earlier in *; lia|].
      intros a' b' Hc' He''. destruct (Hsplit a' b' He'') as [?|[-> ->]];
        [by apply Hmin|]. destruct Hc' as (_ & _ & _ & Hc'). congruence.
    - destruct Hs as [Hw Hnone]. split; [done|].
      intros a' b' Hc' He''. destruct (Hsplit a' b' He'') as [?|[-> ->]];
        [by apply (Hnone a' b')|]. destruct Hc' as (_ & _ & _ & Hc'). congruence. }
  assert (crossing vis (length d) j k) as Hjk by done.
  destruct (num_ltb (entry d j k) s.1) eqn:Hlt.
  - unfold prim_best in *. simpl. split; [done|]. split; [done|].
    split; [unfold earlier; lia|].
    intros a' b' Hc' He''. destruct (Hsplit a' b' He'') as [Hold|[-> ->]].
    + destruct s as [w [[a b]|]]; simpl in *.
      * destruct Hs as (-> & _ & _ & Hmin).
        destruct (Hmin a' b' Hc' Hold) as [Hle _].
        pose proof (num_ltb_leb_trans _ _ _ Hlt Hle) as Hlt'.
        split; [by apply num_ltb_leb|done].
      * destruct Hs as [_ Hnone]. by destruct (Hnone a' b' Hc').
    + rewrite He. simpl. split; [apply Z.leb_le; lia|].
      unfold earlier. lia.
  - unfold prim_best in *. destruct s as [w [[a b]|]]; simpl in *.
    + destruct Hs as (-> & Hc & He' & Hmin). split; [done|]. split; [done|].
      split; [unfold earlier in *; lia|].
      intros a' b' Hc' He''. destruct (Hsplit a' b' He'') as [?|[-> ->]];
        [by apply Hmin|].
      destruct Hc as (Ha & Hb & _).
      destruct (finite_entry d a b Hfin Ha Hb) as [e' He2].
      rewrite He, He2 in *. simpl in *. apply Z.ltb_ge in Hlt.
      split; [apply Z.leb_le; lia|]. unfold earlier in *. lia.
    + destruct Hs as [-> _]. by rewrite He in Hlt.
Qed.

Lemma prim_best_scan_from (d : matrix) (vis : list bool) (j : nat)
    (s : num * option (nat * nat)) :
  finite_matrix d → j < length d →
  prim_best d vis (length d) j 0 s →
  prim_best d vis (length d) (S j) 0 (Prim.scan_from d vis (length d) j s).
Proof.
  intros Hfin Hj Hs. unfold Prim.scan_from.
  assert (∀ s', prim_best d vis (length d) j (length d) s' ∨
                (flag vis j = false ∧ prim_best d vis (length d) j 0 s') →
    prim_best d vis (length d) (S j) 0 s') as Hnext.
  { intros [w r] Hs'. unfold prim_best in *. simpl in *.
    assert (∀ a' b', crossing vis (length d) a' b' → earlier (S j) 0 a' b' →
      earlier j (length d) a' b' ∧ (flag vis j = false → earlier j 0 a' b'))
      as Hsame.
    { intros a' b' (Ha' & Hb' & Hva & Hvb). unfold earlier. intros He.
      split; [lia|]. intros Hvj.
      destruct (decide (a' = j)) as [->|]; [congruence|lia]. }
    destruct r as [[a b]|].
    - assert (earlier (S j) 0 a b) as Hab.
      { destruct Hs' as [(_ & _ & He & _)|[_ (_ & _ & He & _)]];
          unfold earlier in *; lia. }
      destruct Hs' as [(Hw & Hc & He & Hmin)|[Hvj (Hw & Hc & He & Hmin)]];
        (split; [done|]; split; [done|]; split; [done|]);
        intros a' b' Hc' He'; destruct (Hsame a' b' Hc' He') as [H1 H2];
        apply Hmin; auto.
    - destruct Hs' as [[Hw Hnone]|[Hvj [Hw Hnone]]]; (split; [done|]);
        intros a' b' Hc' He'; destruct (Hsame a' b' Hc' He') as [H1 H2];
        apply (Hnone a' b' Hc'); auto. }
  destruct (flag vis j) eqn:Hvj; simpl; [|apply Hnext; by right].
  apply Hnext. left.
  apply (for_loop_ind (λ k s', k ≤ length d →
           prim_best d vis (length d) j k s')); [done| |done].
  intros k s' Hk IH Hle. simpl. apply prim_best_scan_to; try done.
  apply IH. lia.
Qed.

Lemma prim_best_lightest (d : matrix) (vis : list bool) :
  finite_matrix d →
  prim_best d vis (length d) (length d) 0 (Prim.lightest d vis (length d)).
Proof.
  intros Hfin. unfold Prim.lightest.
  apply (for_loop_ind (λ j s, j ≤ length d →
           prim_best d vis (length d) j 0 s)); [| |done].
  - intros _. split; [done|]. intros a' b' _. unfold earlier. lia.
  - intros j s Hj IH Hle. simpl. apply prim_best_scan_from; try done.
    apply IH. lia.
Qed.

(** One more iteration appends one edge. *)
Lemma prim_grow_snoc (d : matrix) (i : nat) (s : list bool * list wedge) :
  finite_matrix d → prim_inv (length d) i s → S i < length d →
  ∃ a b, (Prim.lightest d s.1 (length d)).2 = Some (a, b) ∧
    Prim.grow d (length d) s
    = (<[b := true]> s.1,
       s.2 ++ [mkWedge a b (Prim.lightest d s.1 (length d)).1]).
Proof.
  intros Hfin Hinv Hi.
  pose proof (prim_step_inv d i s Hfin Hinv Hi) as Hnext.
  apply pi_size in Hnext. apply pi_size in Hinv.
  unfold Prim.grow in *.
  destruct (Prim.lightest d s.1 (length d)) as [w [[a b]|]]; simpl in *.
  - by exists a, b.
  - lia.
Qed.

Lemma prim_after_take (d : matrix) (i j : nat) :
  finite_matrix d → i ≤ j → S j ≤ length d →
  (Prim.after d i).2 = take i (Prim.after d j).2.
Proof.
  intros Hfin Hij. induction j as [|j IH]; intros Hj.
  - assert (i = 0) as -> by lia. by rewrite take_0.
  - pose proof (prim_after_inv d j Hfin ltac:(lia)) as Hinv.
    destruct (decide (i = S j)) as [->|Hne].
    + rewrite take_ge; [done|].
      by rewrite (pi_size _ _ _ (prim_after_inv d (S j) Hfin Hj)).
    + rewrite prim_after_succ.
      destruct (prim_grow_snoc d j _ Hfin Hinv Hj) as (a & b & _ & ->).
      simpl. rewrite take_app_le by (rewrite (pi_size _ _ _ Hinv); lia).
      apply IH; lia.
Qed.

(** The rule of Prim's algorithm as the code applies it. *)
Definition prim_rule (d : matrix) (mst : list wedge) : Prop :=
  ∀ k e, mst !! k = Some e →
    let tree := tree_nodes (take k mst) in
    weight e = entry d (wfrom e) (wto e) ∧
    wfrom e ∈ tree ∧ (wto e ∉ tree) ∧ wto e < length d ∧
    ∀ a b, a ∈ tree → b < length d → b ∉ tree →
      num_leb (weight e) (entry d a b) = true ∧
      (earlier (wfrom e) (wto e) a b →
       num_ltb (weight e) (entry d a b) = true).

Lemma prim_follows_rule (d : matrix) :
  finite_matrix d → 1 ≤ length d → prim_rule d (Prim.primMST d).
Proof.
  intros Hfin Hn k e Hk. unfold Prim.primMST in *.
  set (N := length d - 1) in *.
  pose proof (prim_after_inv d N Hfin ltac:(lia)) as HinvN.
  assert (k < N) as HkN.
  { apply lookup_lt_Some in Hk. by rewrite (pi_size _ _ _ HinvN) in Hk. }
  pose proof (prim_after_inv d k Hfin ltac:(lia)) as Hinv.
  pose proof (prim_after_take d k N Hfin ltac:(lia) ltac:(lia)) as Hk0.
  pose proof (prim_after_take d (S k) N Hfin ltac:(lia) ltac:(lia)) as Hk1.
  rewrite (take_S_r _ _ _ Hk), <- Hk0, prim_after_succ in Hk1.
  destruct (prim_grow_snoc d k _ Hfin Hinv ltac:(lia)) as (a & b & Hab & Hgrow).
  rewrite Hgrow in Hk1. simpl in Hk1. apply app_inv_head in Hk1.
  injection Hk1 as <-. simpl. rewrite <- Hk0.
  pose proof (prim_best_lightest d (Prim.after d k).1 Hfin) as Hbest.
  unfold prim_best in Hbest. rewrite Hab in Hbest.
  destruct Hbest as (Hw & (Ha & Hb & Hva & Hvb) & _ & Hmin).
  assert (∀ x, x < length d →
    flag (Prim.after d k).1 x = false ↔ x ∉ tree_nodes (Prim.after d k).2)
    as Hout.
  { intros x Hx. apply flag_false_iff. by apply (pi_vis _ _ _ Hinv). }
  split; [done|]. split; [by apply (pi_vis _ _ _ Hinv)|].
  split; [by apply Hout|]. split; [done|].
  intros a' b' Ha' Hb' Hfresh. rewrite Hw.
  apply Hmin; [|unfold earlier; pose proof (pi_range _ _ _ Hinv a' Ha'); lia].
  split; [by apply (pi_range _ _ _ Hinv)|]. split; [done|].
  split; [apply (pi_vis _ _ _ Hinv); [by apply (pi_range _ _ _ Hinv)|done]|].
  by apply Hout.
Qed.

(** The tree has [n - 1] edges and its nodes, in the order they join, are
    the nodes of the matrix. *)
Lemma prim_tree_nodes (d : matrix) :
  finite_matrix d → 1 ≤ length d →
  length (Prim.primMST d) = length d - 1 ∧
  tree_nodes (Prim.primMST d) ≡ₚ seq 0 (length d).
Proof.
  intros Hfin Hn. unfold Prim.primMST.
  destruct (prim_after_inv d (length d - 1) Hfin ltac:(lia))
    as [_ Hsize Hnd _ Hrange _].
  split; [done|].
  apply submseteq_length_Permutation.
  - apply NoDup_submseteq; [done|]. intros x Hx. apply elem_of_seq.
    specialize (Hrange x Hx). lia.
  - rewrite length_seq. unfold tree_nodes. simpl. rewrite length_fmap. lia.
Qed.

(** ** Greedy matching on any list of distinct vertices *)

Lemma partner_nearest (d : matrix) (vs : list nat) (used : gset nat) (i : nat) :
  finite_matrix d → (∀ x, x ∈ vs → x < length d) → i < length vs →
  ∀ j, (Matching.partner d vs used i).2 = Some j →
    ∀ j', i < j' < length vs → vs !!! j' ∉ used →
      num_leb (entry d (vs !!! i) (vs !!! j)) (entry d (vs !!! i) (vs !!! j'))
        = true ∧
      (j' < j →
       num_ltb (entry d (vs !!! i) (vs !!! j)) (entry d (vs !!! i) (vs !!! j'))
         = true).
Proof.
  intros Hfin Hrange Hi. unfold Matching.partner.
  pose proof (for_loop_ind (λ k (s : num * option nat),
    k ≤ length vs - (i + 1) →
    match s.2 with
    | Some j =>
        s.1 = entry d (vs !!! i) (vs !!! j) ∧ j < i + 1 + k ∧
        ∀ j', i < j' < i + 1 + k → vs !!! j' ∉ used →
          num_leb (entry d (vs !!! i) (vs !!! j))
                  (entry d (vs !!! i) (vs !!! j')) = true ∧
          (j' < j →
           num_ltb (entry d (vs !!! i) (vs !!! j))
                   (entry d (vs !!! i) (vs !!! j')) = true)
    | None => s.1 = Inf ∧ ∀ j', i < j' < i + 1 + k → vs !!! j' ∈ used
    end)
    (Matching.partner_body d vs used i) (length vs - (i + 1)) (i + 1) (Inf, None))
    as Hloop.
  set (r := for_loop _ _ _ _) in *.
  intros j Hj j' Hj' Hfree.
  assert (match r.2 with
    | Some j =>
        r.1 = entry d (vs !!! i) (vs !!! j) ∧ j < i + 1 + (length vs - (i + 1)) ∧
        ∀ j', i < j' < i + 1 + (length vs - (i + 1)) → vs !!! j' ∉ used →
          num_leb (entry d (vs !!! i) (vs !!! j))
                  (entry d (vs !!! i) (vs !!! j')) = true ∧
          (j' < j →
           num_ltb (entry d (vs !!! i) (vs !!! j))
                   (entry d (vs !!! i) (vs !!! j')) = true)
    | None => r.1 = Inf ∧
        ∀ j', i < j' < i + 1 + (length vs - (i + 1)) → vs !!! j' ∈ used
    end) as Hr.
  { apply Hloop; [|clear Hj|done].
    - intros _. split; [done|]. intros j0 Hj0. lia.
    - intros k [w q] Hk IH Hle. specialize (IH ltac:(lia)). simpl in *.
      unfold Matching.partner_body. simpl.
      set (j0 := i + 1 + k) in *.
      assert (∀ x, i < x < i + 1 + S k → i < x < j0 ∨ x = j0) as Hsplit
        by (intros x; lia).
      destruct (finite_entry d (vs !!! i) (vs !!! j0) Hfin) as [e He].
      { apply Hrange, list_elem_of_lookup_total_2. lia. }
      { apply Hrange, list_elem_of_lookup_total_2. lia. }
      rewrite He.
      case_decide as Hused.
      { destruct q as [j1|].
        - destruct IH as (Hw & Hj1 & Hmin). split; [done|]. split; [lia|].
          intros x Hx Hxf. destruct (Hsplit x Hx) as [?| ->]; [|done].
          by apply Hmin.
        - destruct IH as [Hw Hnone]. split; [done|].
          intros x Hx. destruct (Hsplit x Hx) as [?| ->]; [|done].
          by apply Hnone. }
      destruct (num_ltb (Fin e) w) eqn:Hlt; simpl.
      + split; [done|]. split; [lia|]. intros x Hx Hxf. rewrite He.
        destruct (Hsplit x Hx) as [Hold| ->].
        * destruct q as [j1|].
          -- destruct IH as (-> & _ & Hmin).
             destruct (Hmin x Hold Hxf) as [Hle' _].
             pose proof (num_ltb_leb_trans _ _ _ Hlt Hle') as Hlt'.
             split; [by apply num_ltb_leb|done].
          -- destruct IH as [_ Hnone]. by destruct Hxf; apply Hnone.
        * rewrite He. simpl. split; [apply Z.leb_le; lia|lia].
      + destruct q as [j1|].
        * destruct IH as (-> & Hj1 & Hmin). split; [done|]. split; [lia|].
          intros x Hx Hxf. destruct (Hsplit x Hx) as [Hold| ->];
            [by apply Hmin|].
          (* the partner found so far precedes [j0] *)
          split; [|lia].
          destruct (finite_entry d (vs !!! i) (vs !!! j1) Hfin) as [w Hw].
          { apply Hrange, list_elem_of_lookup_total_2. lia. }
          { apply Hrange, list_elem_of_lookup_total_2. lia. }
          rewrite He, Hw in *. simpl in *.
          apply Z.ltb_ge in Hlt. apply Z.leb_le. lia.
        * destruct IH as [-> _]. done. }
  rewrite Hj in Hr. destruct Hr as (_ & _ & Hmin). apply Hmin; [lia|done].
Qed.

(** The pair [e] as the loop of lines 365-386 forms it when the vertices
    in [used] are taken: its first end is the first vertex of the list
    that is free, its second end the nearest free vertex further down the
    list, the first one among equals. *)
Definition greedy_pair (d : matrix) (vs used : list nat) (e : edge) : Prop :=
  ∃ i j, i < j < length vs ∧ vs !! i = Some (from e) ∧ vs !! j = Some (to e) ∧
    (∀ i', i' < i → vs !!! i' ∈ used) ∧ (from e ∉ used) ∧ (to e ∉ used) ∧
    ∀ j', i < j' < length vs → vs !!! j' ∉ used →
      num_leb (entry d (from e) (to e)) (entry d (from e) (vs !!! j')) = true ∧
      (j' < j →
       num_ltb (entry d (from e) (to e)) (entry d (from e) (vs !!! j')) = true).

Definition matching_rule (d : matrix) (vs : list nat) (M : list edge) : Prop :=
  ∀ k e, M !! k = Some e → greedy_pair d vs (endpoints (take k M)) e.

Record match_gen (d : matrix) (vs : list nat) (i : nat)
    (s : list edge * gset nat) : Prop := {
  mg_nodup : NoDup (endpoints s.1);
  mg_used : ∀ x, x ∈ s.2 ↔ x ∈ endpoints s.1;
  mg_sub : ∀ x, x ∈ endpoints s.1 → x ∈ vs;
  mg_done : ∀ k, k < i → k < length vs →
    vs !!! k ∈ s.2 ∨ ∀ j, k < j < length vs → vs !!! j ∈ s.2;
  mg_rule : matching_rule d vs s.1
}.

Lemma match_gen_step (d : matrix) (vs : list nat) (i : nat)
    (s : list edge * gset nat) :
  finite_matrix d → (∀ x, x ∈ vs → x < length d) →
  NoDup vs → i < length vs →
  match_gen d vs i s → match_gen d vs (S i) (Matching.pair_up d vs i s).
Proof.
  intros Hfin Hrange Hnd Hi [Hndm Hum Hsub Hdone Hrule]. unfold Matching.pair_up.
  case_decide as Hused.
  { split; try done. intros k Hk Hlen.
    destruct (decide (k = i)) as [->|]; [by left|]. apply Hdone; [lia|done]. }
  destruct (partner_spec d vs s.2 i Hfin Hrange Hi) as [Hsome Hfind].
  destruct (Matching.partner d vs s.2 i).2 as [j|] eqn:Hj.
  2:{ split; try done. intros k Hk Hlen.
      destruct (decide (k = i)) as [->|]; [|apply Hdone; [lia|done]].
      right. intros j Hij. destruct (decide (vs !!! j ∈ s.2)) as [|Hfree]; [done|].
      destruct Hfind as [? [=]]. by exists j. }
  destruct (Hsome j eq_refl) as [Hij Hjfree].
  assert (vs !!! i ≠ vs !!! j) as Hne.
  { intros E. apply (NoDup_lookup vs i j (vs !!! i)) in Hnd; [lia| |].
    - apply list_lookup_lookup_total_lt. lia.
    - rewrite E. apply list_lookup_lookup_total_lt. lia. }
  split; simpl.
  - rewrite endpoints_app. simpl. apply NoDup_app. split; [done|]. split.
    + intros x Hx Hx'. apply Hum in Hx.
      rewrite !elem_of_cons, elem_of_nil in Hx'.
      destruct Hx' as [->|[->|[]]]; done.
    + apply NoDup_cons. split; [|apply NoDup_singleton].
      by rewrite list_elem_of_singleton.
  - intros x. rewrite endpoints_app, elem_of_app. simpl.
    rewrite !elem_of_union, !elem_of_singleton, !elem_of_cons, elem_of_nil, Hum.
    tauto.
  - intros x. rewrite endpoints_app, elem_of_app. simpl.
    rewrite !elem_of_cons, elem_of_nil.
    intros [Hx|[->|[->|[]]]]; [by apply Hsub| |];
      apply list_elem_of_lookup_total_2; lia.
  - intros k Hk Hlen.
    destruct (decide (k = i)) as [->|].
    { left. rewrite !elem_of_union, !elem_of_singleton. tauto. }
    destruct (Hdone k ltac:(lia) Hlen) as [?|Hall].
    + left. rewrite !elem_of_union. tauto.
    + right. intros j' Hj'. rewrite !elem_of_union. right. right. by apply Hall.
  - intros k e Hk.
    destruct (decide (k < length s.1)) as [Hlt|Hge].
    { rewrite lookup_app_l in Hk by done. rewrite take_app_le by lia.
      by apply Hrule. }
    assert (k = length s.1) as ->.
    { apply lookup_lt_Some in Hk. rewrite length_app in Hk. simpl in Hk. lia. }
    rewrite list_lookup_middle in Hk by done. injection Hk as <-.
    rewrite take_app_length. exists i, j. simpl.
    split; [done|]. split; [apply list_lookup_lookup_total_lt; lia|].
    split; [apply list_lookup_lookup_total_lt; lia|].
    split; [|split; [by rewrite <- Hum|split; [by rewrite <- Hum|]]].
    + intros i' Hi'. apply Hum.
      destruct (Hdone i' Hi' ltac:(lia)) as [?|Hall]; [done|].
      destruct Hused. apply Hall. lia.
    + intros j' Hj' Hfree. rewrite <- Hum in Hfree.
      by apply (partner_nearest d vs s.2 i Hfin Hrange Hi j Hj j').
Qed.

Lemma match_gen_final (d : matrix) (vs : list nat) :
  finite_matrix d → (∀ x, x ∈ vs → x < length d) → NoDup vs →
  match_gen d vs (length vs) (Matching.after d vs (length vs)).
Proof.
  intros Hfin Hrange Hnd. unfold Matching.after.
  apply (for_loop_ind (λ i s, i ≤ length vs → match_gen d vs i s)); [| |done].
  - intros _. split; simpl.
    + apply NoDup_nil_2.
    + intros x. by rewrite elem_of_nil, elem_of_empty.
    + intros x Hx. by apply elem_of_nil in Hx.
    + intros k Hk. lia.
    + intros k e Hk. done.
  - intros i s Hi IH Hle. simpl.
    apply match_gen_step; try done. apply IH. lia.
Qed.

(** At most one vertex stays without a partner. *)
Lemma matching_leftover (d : matrix) (vs : list nat) :
  finite_matrix d → (∀ x, x ∈ vs → x < length d) → NoDup vs →
  let M := Matching.minimumWeightMatching vs d in
  length (filter (λ x, x ∉ endpoints M) vs) ≤ 1 ∧
  length vs = 2 * length M + length (filter (λ x, x ∉ endpoints M) vs).
Proof.
  intros Hfin Hrange Hnd M.
  destruct (match_gen_final d vs Hfin Hrange Hnd) as [Hndm Hum Hsub Hdone _].
  fold (Matching.minimumWeightMatching vs d) in Hndm, Hsub. fold M in Hndm, Hsub.
  set (s := Matching.after d vs (length vs)) in *.
  assert (∀ x, x ∈ s.2 ↔ x ∈ endpoints M) as Hum' by done.
  split.
  - set (U := filter (λ x, x ∉ endpoints M) vs).
    assert (NoDup U) as HndU by (by apply NoDup_filter).
    destruct U as [|a [|b U']] eqn:HU; simpl; [lia|lia|exfalso].
    assert (a ∈ U ∧ b ∈ U) as [Ha Hb].
    { rewrite HU. split; [by left|by right; left]. }
    apply NoDup_cons in HndU as [Hab _].
    assert (a ≠ b) as Hne by (intros ->; apply Hab; by left).
    unfold U in Ha, Hb.
    apply list_elem_of_filter in Ha as [Hafree Ha].
    apply list_elem_of_filter in Hb as [Hbfree Hb].
    apply list_elem_of_lookup_total_1 in Ha as (ka & Hka & <-).
    apply list_elem_of_lookup_total_1 in Hb as (kb & Hkb & <-).
    rewrite <- Hum' in Hafree, Hbfree.
    destruct (decide (ka < kb)).
    + destruct (Hdone ka Hka Hka) as [?|Hall]; [done|].
      apply Hbfree, Hall. lia.
    + destruct (Hdone kb Hkb Hkb) as [?|Hall]; [done|].
      apply Hafree, Hall. assert (ka ≠ kb) by (intros ->; done). lia.
  - assert (filter (λ x, x ∈ endpoints M) vs ≡ₚ endpoints M) as Hperm.
    { apply NoDup_Permutation; [by apply NoDup_filter|done|].
      intros x. rewrite list_elem_of_filter. split; [tauto|].
      intros Hx. split; [done|by apply Hsub]. }
    pose proof (filter_app_complement (λ x, x ∈ endpoints M) vs) as Hsplit.
    apply Permutation_length in Hsplit. rewrite length_app, Hperm in Hsplit.
    rewrite length_endpoints in Hsplit. lia.
Qed.

(** ** The solvers on matrices with arbitrary entries

    What follows assumes nothing about the entries: they may be negative,
    [Infinity] or [NaN], and the rows may have any length. *)

Record greedy_gen (n : nat) (s : Greedy.state) : Prop := {
  gg_vis_len : length (Greedy.visited s) = n;
  gg_head : head (Greedy.gpath s) = Some 0;
  gg_nodup : NoDup (Greedy.gpath s);
  gg_range : ∀ x, x ∈ Greedy.gpath s → x < n;
  gg_vis : ∀ j, j < n → flag (Greedy.visited s) j = true ↔ j ∈ Greedy.gpath s
}.

Lemma greedy_scan_range (d : matrix) (vis : list bool) (cur n m : nat) :
  (Greedy.scan d vis cur n).1 = Some m → m < n ∧ flag vis m = false.
Proof.
  unfold Greedy.scan.
  apply (for_loop_ind (λ k (s : option nat * num),
    s.1 = Some m → m < k ∧ flag vis m = false)); [done|].
  intros j s Hj IH. simpl. unfold Greedy.scan_body.
  destruct (flag vis j) eqn:Hvj; cbn [negb andb].
  - intros Hs. destruct (IH Hs). split; [lia|done].
  - destruct (num_ltb (entry d cur j) s.2); simpl.
    + intros [= <-]. split; [lia|done].
    + intros Hs. destruct (IH Hs). split; [lia|done].
Qed.

Lemma greedy_gen_init (n : nat) : 1 ≤ n → greedy_gen n (Greedy.init n).
Proof.
  intros Hn. destruct n as [|n]; [lia|].
  split; simpl; try done.
  - by rewrite length_replicate.
  - apply NoDup_singleton.
  - intros x Hx. apply list_elem_of_singleton in Hx. lia.
  - intros j Hj. unfold flag. destruct j as [|j]; simpl.
    + split; [intros _; by left|done].
    + rewrite lookup_replicate_2 by lia. simpl.
      split; [done|]. intros Hx. apply list_elem_of_singleton in Hx. lia.
Qed.

Lemma greedy_gen_step (d : matrix) (n : nat) (s : Greedy.state) :
  greedy_gen n s → greedy_gen n (Greedy.iteration d n s).
Proof.
  intros [Hlen Hhead Hnd Hrange Hvis]. unfold Greedy.iteration.
  destruct (Greedy.scan d (Greedy.visited s) (last_node (Greedy.gpath s)) n)
    as [[m|] w] eqn:Hscan; [|by split].
  destruct (greedy_scan_range d (Greedy.visited s) (last_node (Greedy.gpath s))
              n m) as [Hm Hfree]; [by rewrite Hscan|].
  assert (m ∉ Greedy.gpath s) as Hfresh.
  { apply (flag_false_iff (Greedy.visited s)); [by apply Hvis|done]. }
  split; simpl.
  - by rewrite length_insert.
  - by destruct (Greedy.gpath s).
  - apply NoDup_app. split; [done|]. split; [|apply NoDup_singleton].
    intros x Hx Hx'. apply list_elem_of_singleton in Hx'. by subst.
  - intros x. rewrite elem_of_app, list_elem_of_singleton.
    intros [Hx| ->]; [by apply Hrange|done].
  - intros j Hj. rewrite elem_of_app, list_elem_of_singleton.
    unfold flag. destruct (decide (j = m)) as [->|Hne].
    + rewrite list_lookup_insert_eq by lia. simpl. tauto.
    + rewrite list_lookup_insert_ne by done.
      specialize (Hvis j Hj). unfold flag in Hvis.
      split; [tauto|]. intros [?|?]; [tauto|done].
Qed.

Lemma greedy_gen_after (d : matrix) (i : nat) :
  1 ≤ length d → greedy_gen (length d) (Greedy.after d i).
Proof.
  intros Hn. unfold Greedy.after.
  apply (for_loop_ind (λ _ s, greedy_gen (length d) s));
    [by apply greedy_gen_init|].
  intros k s _ IH. by apply greedy_gen_step.
Qed.

(** [greedyTSP] on any matrix: it throws exactly when the matrix is empty
    or the row of the node it ends on is empty; what it returns is a list
    of distinct nodes of the matrix that begins with node 0. *)
Lemma greedy_any_matrix (clk : clock) (d : matrix) :
  (Greedy.greedyTSP clk d = None ↔
   length d = 0 ∨
   d !! last_node (Greedy.gpath (Greedy.after d (length d - 1))) = Some []) ∧
  ∀ r, Greedy.greedyTSP clk d = Some r →
    head (path r) = Some 0 ∧ NoDup (path r) ∧ ∀ x, x ∈ path r → x < length d.
Proof.
  unfold Greedy.greedyTSP.
  destruct (decide (length d = 0)) as [Hz|Hnz].
  { destruct d; [|done]. simpl. split; [by split; [left|]|done]. }
  destruct (greedy_gen_after d (length d - 1) ltac:(lia))
    as [_ Hhead Hnd Hrange _].
  set (p := Greedy.gpath (Greedy.after d (length d - 1))) in *.
  assert (p ≠ []) as Hne by (by destruct p).
  destruct (lookup_lt_is_Some_2 d (last_node p)) as [row Hrow].
  { by apply Hrange, last_node_elem. }
  rewrite Hrow, Hhead. simpl. destruct row as [|c row]; simpl.
  - split; [split; [by right|done]|done].
  - split; [split; [done|intros [?|?]; done]|].
    intros r [= <-]. done.
Qed.

(** The ends of the tree edges are nodes of the matrix. *)
Lemma prim_lightest_range (d : matrix) (vis : list bool) (n a b : nat) :
  (Prim.lightest d vis n).2 = Some (a, b) → a < n ∧ b < n.
Proof.
  unfold Prim.lightest.
  apply (for_loop_ind (λ j (s : num * option (nat * nat)),
    s.2 = Some (a, b) → a < n ∧ b < n)); [done|].
  intros j s Hj IH. simpl. unfold Prim.scan_from.
  destruct (negb (flag vis j)); [done|].
  apply (for_loop_ind (λ k (s' : num * option (nat * nat)),
    s'.2 = Some (a, b) → a < n ∧ b < n)); [done|].
  intros k s' Hk IH'. simpl. unfold Prim.scan_to.
  destruct (negb (flag vis k) && num_ltb (entry d j k) s'.1); [|done].
  simpl. intros [= <- <-]. done.
Qed.

Lemma prim_range (d : matrix) (e : wedge) :
  e ∈ Prim.primMST d → wfrom e < length d ∧ wto e < length d.
Proof.
  unfold Prim.primMST, Prim.after.
  apply (for_loop_ind (λ _ (s : list bool * list wedge),
    e ∈ s.2 → wfrom e < length d ∧ wto e < length d)).
  - unfold Prim.init. simpl. intros H. by apply elem_of_nil in H.
  - intros i s _ IH. simpl. unfold Prim.grow.
    destruct (Prim.lightest d s.1 (length d)) as [w [[a b]|]] eqn:Hl; [|done].
    simpl. rewrite elem_of_app, list_elem_of_singleton.
    intros [?| ->]; [by apply IH|]. simpl.
    apply (prim_lightest_range d s.1). by rewrite Hl.
Qed.

Lemma partner_range (d : matrix) (vs : list nat) (used : gset nat) (i j : nat) :
  (Matching.partner d vs used i).2 = Some j → i < j < length vs.
Proof.
  unfold Matching.partner.
  pose proof (for_loop_ind (λ k (s : num * option nat),
    s.2 = Some j → i < j < i + 1 + k)
    (Matching.partner_body d vs used i) (length vs - (i + 1)) (i + 1) (Inf, None))
    as Hloop.
  intros Hj. apply Hloop in Hj; [lia|done|].
  intros k s Hk IH. simpl. unfold Matching.partner_body.
  case_decide; [intros Hs; specialize (IH Hs); lia|].
  destruct (num_ltb _ _); simpl.
  - intros [= <-]. lia.
  - intros Hs. specialize (IH Hs). lia.
Qed.

Lemma matching_range (d : matrix) (vs : list nat) (x : nat) :
  x ∈ endpoints (Matching.minimumWeightMatching vs d) → x ∈ vs.
Proof.
  unfold Matching.minimumWeightMatching, Matching.after.
  apply (for_loop_ind (λ i (s : list edge * gset nat),
    i ≤ length vs → x ∈ endpoints s.1 → x ∈ vs)); [| |done].
  - simpl. intros _ H. by apply elem_of_nil in H.
  - intros i s Hi IH Hle. simpl. unfold Matching.pair_up.
    case_decide; [apply IH; lia|].
    destruct (Matching.partner d vs s.2 i).2 as [j|] eqn:Hj; [|apply IH; lia].
    apply partner_range in Hj. simpl.
    rewrite endpoints_app, elem_of_app. simpl.
    rewrite !elem_of_cons, elem_of_nil.
    intros [Hx|[->|[->|[]]]]; [apply IH; [lia|done]| |];
      apply list_elem_of_lookup_total_2; lia.
Qed.

Lemma christofides_graph_any (d : matrix) :
  let n := length d in
  let mst := Prim.primMST d in
  let odd := Christofides.oddVertices n (Christofides.degrees n mst) in
  let graph := Christofides.eulerianGraph n mst
                 (Matching.minimumWeightMatching odd d) in
  length graph = n ∧ graph_bounded graph.
Proof.
  intros n mst odd graph.
  assert (∀ e, e ∈ (Christofides.plain <$> mst) →
            from e < length (replicate n (@nil nat)) ∧
            to e < length (replicate n (@nil nat))) as Hmst.
  { intros e He. apply list_elem_of_fmap in He as (we & -> & Hwe).
    rewrite length_replicate. by apply prim_range. }
  destruct (graph_spec (replicate n []) (Christofides.plain <$> mst) Hmst)
    as (Hlen1 & _ & Hadj1).
  rewrite length_replicate in Hlen1.
  assert (∀ v, v ∈ odd → v < n) as Hodd.
  { intros v. unfold odd. rewrite oddVertices_filter, list_elem_of_filter,
      elem_of_seq. lia. }
  assert (∀ e, e ∈ Matching.minimumWeightMatching odd d →
            from e < length (foldl Christofides.add_edge (replicate n [])
                               (Christofides.plain <$> mst)) ∧
            to e < length (foldl Christofides.add_edge (replicate n [])
                             (Christofides.plain <$> mst))) as Hmatch.
  { intros e He. rewrite Hlen1.
    destruct (endpoints_elem _ e He) as [Hf Ht].
    split; apply Hodd; by eapply matching_range. }
  destruct (graph_spec _ _ Hmatch) as (Hlen2 & _ & Hadj2).
  fold (Christofides.eulerianGraph n mst (Matching.minimumWeightMatching odd d))
    in Hlen2, Hadj2. fold graph in Hlen2, Hadj2.
  rewrite Hlen1 in Hlen2. split; [done|].
  intros a b Hab. rewrite Hlen2.
  apply Hadj2 in Hab as [Hab|(e & He & Hends)].
  - apply Hadj1 in Hab as [(ga & Hga & Hb)|(e & He & Hends)].
    + apply lookup_replicate in Hga as [-> _]. by apply elem_of_nil in Hb.
    + destruct (Hmst e He) as [Hf Ht]. rewrite length_replicate in Hf, Ht.
      destruct Hends as [[_ <-]|[_ <-]]; done.
  - destruct (Hmatch e He) as [Hf Ht]. rewrite Hlen1 in Hf, Ht.
    destruct Hends as [[_ <-]|[_ <-]]; done.
Qed.

(** [christofidesTSP] on any matrix: it throws exactly when the matrix is
    empty; what it returns is a list of distinct nodes of the matrix that
    begins with node 0. *)
Lemma christofides_any_matrix (clk : clock) (d : matrix) :
  (Christofides.christofidesTSP clk d = None ↔ length d = 0) ∧
  ∀ r, Christofides.christofidesTSP clk d = Some r →
    head (path r) = Some 0 ∧ NoDup (path r) ∧ ∀ x, x ∈ path r → x < length d.
Proof.
  destruct (christofides_graph_any d) as [Hlen Hbound].
  unfold Christofides.christofidesTSP.
  set (graph := Christofides.eulerianGraph _ _ _) in *.
  destruct (decide (length d = 0)) as [Hz|Hnz].
  { assert (Euler.findEulerianCircuit graph 0 = None) as ->.
    { apply euler_throws. exists 0. split; [done|lia]. }
    done. }
  destruct (euler_circuit_covers graph 0 Hbound ltac:(lia))
    as (c & Hc & _ & Hrange).
  rewrite Hc. simpl. split; [done|]. intros r [= <-]. simpl.
  destruct (shortcut_spec c) as [Hnd Hmem].
  split; [|split; [done|]].
  - rewrite shortcut_head.
    by destruct (euler_vertices _ _ _ Hc) as [Hhead _].
  - intros x Hx. rewrite <- Hlen. by apply Hrange, Hmem.
Qed.

(** ** Eulerian circuit: every edge is walked once

    The adjacency array of an undirected multigraph lists [b] under [a]
    as often as [a] under [b].  When no vertex is its own neighbour and
    every vertex has an even number of neighbours, the list that
    [findEulerianCircuit] returns is a closed walk that goes along every
    edge within reach of the start exactly once. *)

(** The step from [x] to [y] goes along the edge between [a] and [b]. *)
Definition joins (x y a b : nat) : Prop := (x = a ∧ y = b) ∨ (x = b ∧ y = a).

#[global] Instance joins_dec (x y a b : nat) : Decision (joins x y a b).
Proof. unfold joins. apply _. Defined.

(** How often the walk [w] goes along the edge between [a] and [b]. *)
Fixpoint traversals (a b : nat) (w : list nat) : nat :=
  match w with
  | x :: (y :: _) as rest =>
      (if decide (joins x y a b) then 1 else 0) + traversals a b rest
  | _ => 0
  end.

Lemma joins_sym (x y a b : nat) : joins x y a b ↔ joins y x a b.
Proof. unfold joins. tauto. Qed.

Lemma traversals_snoc (a b : nat) (w : list nat) (x : nat) :
  traversals a b (w ++ [x])
  = traversals a b w
    + match last w with
      | Some y => if decide (joins y x a b) then 1 else 0
      | None => 0
      end.
Proof.
  induction w as [|y w IH]; [done|].
  destruct w as [|z w]; [simpl; lia|].
  change ((y :: z :: w) ++ [x]) with (y :: (z :: w) ++ [x]).
  change (traversals a b (y :: (z :: w) ++ [x]))
    with ((if decide (joins y z a b) then 1 else 0)
          + traversals a b ((z :: w) ++ [x])).
  rewrite IH.
  change (traversals a b (y :: z :: w))
    with ((if decide (joins y z a b) then 1 else 0) + traversals a b (z :: w)).
  change (last (y :: z :: w)) with (last (z :: w)). lia.
Qed.

Lemma traversals_reverse (a b : nat) (w : list nat) :
  traversals a b (reverse w) = traversals a b w.
Proof.
  induction w as [|x w IH]; [done|].
  rewrite reverse_cons, traversals_snoc, IH, last_reverse.
  destruct w as [|y w]; [done|]. simpl.
  destruct (decide (joins y x a b)) as [H|H];
    destruct (decide (joins x y a b)) as [H'|H']; try lia;
    unfold joins in *; tauto.
Qed.

Lemma occ_removelast (b u : nat) (l : list nat) :
  last l = Some u →
  occ b (removelast l) + (if decide (u = b) then 1 else 0) = occ b l.
Proof.
  intros H. apply last_Some in H as [l' ->].
  rewrite removelast_last, occ_app, occ_cons. unfold occ. simpl. lia.
Qed.

Lemma occ_remove_first (b v : nat) (l : list nat) :
  v ∈ l →
  occ b (Euler.remove_first v l) + (if decide (v = b) then 1 else 0) = occ b l.
Proof.
  induction l as [|x l IH]; intros Hv; [by apply elem_of_nil in Hv|].
  simpl. destruct (decide (x = v)) as [->|Hx].
  - rewrite occ_cons. lia.
  - apply elem_of_cons in Hv as [->|Hv]; [done|].
    rewrite !occ_cons. specialize (IH Hv). lia.
Qed.

Lemma length_remove_first_elem (v : nat) (l : list nat) :
  v ∈ l → S (length (Euler.remove_first v l)) = length l.
Proof.
  induction l as [|x l IH]; intros Hv; [by apply elem_of_nil in Hv|].
  simpl. destruct (decide (x = v)) as [->|Hx]; [done|].
  apply elem_of_cons in Hv as [->|Hv]; [done|]. simpl. by rewrite IH.
Qed.

Lemma occ_pos (v : nat) (l : list nat) : v ∈ l ↔ 0 < occ v l.
Proof.
  unfold occ. induction l as [|x l IH]; simpl.
  - split; [intros H; by apply elem_of_nil in H|lia].
  - rewrite filter_cons. rewrite elem_of_cons. case_decide as Hx; simpl.
    + split; [lia|]. intros _. by left.
    + rewrite <- IH. split; [intros [->|?]; done|by right].
Qed.

(** An undirected multigraph without loops. *)
Definition undirected (g : list (list nat)) : Prop :=
  (∀ a b, occ b (g !!! a) = occ a (g !!! b)) ∧ ∀ a, a ∉ g !!! a.

Definition even_degrees (g : list (list nat)) : Prop :=
  ∀ a, ∃ h, length (g !!! a) = 2 * h.

Lemma lookup_total_nil_ge (g : list (list nat)) (a : nat) :
  length g ≤ a → g !!! a = [].
Proof.
  intros H. rewrite list_lookup_total_alt, lookup_ge_None_2; done.
Qed.

Lemma undirected_bounded (g : list (list nat)) :
  undirected g → graph_bounded g.
Proof.
  intros [Hsym _] a b (ga & Hga & Hb).
  destruct (decide (b < length g)) as [|Hge]; [done|exfalso].
  apply list_lookup_total_correct in Hga. subst ga.
  apply occ_pos in Hb. rewrite Hsym, lookup_total_nil_ge in Hb by lia.
  unfold occ in Hb. simpl in Hb. lia.
Qed.

(** The adjacency array after the walk went from [v] to [u]: the edge
    between them is gone in both directions. *)
Section EulerPushCounts.
Variables (adj : list (list nat)) (v u : nat) (nv nu : list nat).
Hypothesis Hnv : adj !! v = Some nv.
Hypothesis Hu : last nv = Some u.
Hypothesis Hnu : <[v:=removelast nv]> adj !! u = Some nu.
Hypothesis Hund : undirected adj.

Lemma push_distinct : u ≠ v.
Proof.
  intros E. destruct Hund as [_ Hloop]. apply (Hloop v).
  rewrite (list_lookup_total_correct _ _ _ Hnv), <- E. by apply last_elem_of.
Qed.

Lemma push_other_end : adj !! u = Some nu ∧ v ∈ nu.
Proof.
  pose proof push_distinct as Hne.
  rewrite list_lookup_insert_ne in Hnu by done. split; [done|].
  destruct Hund as [Hsym _]. apply occ_pos.
  rewrite <- (list_lookup_total_correct _ _ _ Hnu), <- Hsym.
  rewrite (list_lookup_total_correct _ _ _ Hnv).
  apply occ_pos. by apply last_elem_of.
Qed.

Lemma push_lookup (x : nat) :
  <[u:=Euler.remove_first v nu]> (<[v:=removelast nv]> adj) !!! x
  = if decide (x = u) then Euler.remove_first v nu
    else if decide (x = v) then removelast nv else adj !!! x.
Proof.
  pose proof (lookup_lt_Some _ _ _ Hnv) as Hvlt.
  pose proof (lookup_lt_Some _ _ _ Hnu) as Hult.
  destruct (decide (x = u)) as [->|Hxu].
  { by rewrite list_lookup_total_insert_eq. }
  rewrite list_lookup_total_insert_ne by done.
  destruct (decide (x = v)) as [->|Hxv].
  { by rewrite list_lookup_total_insert_eq. }
  by rewrite list_lookup_total_insert_ne.
Qed.

Lemma push_occ (a b : nat) :
  occ b (<[u:=Euler.remove_first v nu]> (<[v:=removelast nv]> adj) !!! a)
  + (if decide (a = v ∧ b = u) then 1 else 0)
  + (if decide (a = u ∧ b = v) then 1 else 0)
  = occ b (adj !!! a).
Proof.
  pose proof push_distinct as Hne. destruct push_other_end as [Hnu' Hvin].
  rewrite push_lookup.
  destruct (decide (a = u)) as [->|Hau].
  - rewrite (list_lookup_total_correct _ _ _ Hnu').
    pose proof (occ_remove_first b v nu Hvin).
    repeat case_decide; try lia; destruct_and?; try done; lia.
  - destruct (decide (a = v)) as [->|Hav].
    + rewrite (list_lookup_total_correct _ _ _ Hnv).
      pose proof (occ_removelast b u nv Hu).
      repeat case_decide; try lia; destruct_and?; try done; lia.
    + repeat case_decide; try lia; destruct_and?; try done.
Qed.

Lemma push_length (x : nat) :
  length (<[u:=Euler.remove_first v nu]> (<[v:=removelast nv]> adj) !!! x)
  + (if decide (x = v) then 1 else 0) + (if decide (x = u) then 1 else 0)
  = length (adj !!! x).
Proof.
  pose proof push_distinct as Hne. destruct push_other_end as [Hnu' Hvin].
  rewrite push_lookup.
  destruct (decide (x = u)) as [->|Hxu].
  - rewrite (list_lookup_total_correct _ _ _ Hnu').
    pose proof (length_remove_first_elem v nu Hvin).
    rewrite decide_False by done. lia.
  - destruct (decide (x = v)) as [->|Hxv].
    + rewrite (list_lookup_total_correct _ _ _ Hnv).
      pose proof (Euler.length_removelast _ _ Hu). lia.
    + lia.
Qed.

Lemma push_undirected :
  undirected (<[u:=Euler.remove_first v nu]> (<[v:=removelast nv]> adj)).
Proof.
  split.
  - intros a b. pose proof (push_occ a b). pose proof (push_occ b a).
    destruct Hund as [Hsym _]. specialize (Hsym a b).
    repeat case_decide; destruct_and?; subst; try lia; try tauto.
  - intros a Ha. destruct Hund as [_ Hloop]. apply (Hloop a).
    apply occ_pos. apply occ_pos in Ha. pose proof (push_occ a a). lia.
Qed.

End EulerPushCounts.

(** The edge that ties the vertex popped last to the stack.  [anchor] is
    the vertex of the stack from which the current detour set out. *)
Definition link (anchor : nat) (st : Euler.state) (a b : nat) : nat :=
  match last (Euler.stack st), last (Euler.circuit st) with
  | Some _, Some c => if decide (joins anchor c a b) then 1 else 0
  | _, _ => 0
  end.

Record hier_inv (g : list (list nat)) (start anchor : nat) (st : Euler.state)
    : Prop := {
  hi_und : undirected (Euler.adjList st);
  hi_par : ∀ top, last (Euler.stack st) = Some top → ∀ x, ∃ h,
    length (Euler.adjList st !!! x)
    + (if decide (x = anchor) then 1 else 0)
    + (if decide (x = top) then 1 else 0) = 2 * h;
  hi_count : ∀ a b,
    occ b (g !!! a)
    = occ b (Euler.adjList st !!! a) + traversals a b (Euler.stack st)
      + traversals a b (Euler.circuit st) + link anchor st a b;
  hi_first : match Euler.circuit st with
             | [] => anchor = start
             | x :: _ => x = start
             end;
  hi_size : 2 * (length (Euler.stack st) + length (Euler.circuit st))
            + Euler.entries (Euler.adjList st) = 2 + Euler.entries g
}.

Lemma entries_empty (adj : list (list nat)) :
  (∀ a l, adj !! a = Some l → l = []) → Euler.entries adj = 0.
Proof.
  unfold Euler.entries. induction adj as [|l adj IH]; intros H; [done|].
  rewrite fmap_cons. simpl. rewrite (H 0 l eq_refl). simpl. apply IH.
  intros a l' Hl'. by apply (H (S a)).
Qed.

Lemma hier_init (g : list (list nat)) (start : nat) :
  undirected g → even_degrees g →
  hier_inv g start start (Euler.mkState g [start] []).
Proof.
  intros Hund Heven. split; simpl; try done.
  - intros top [= <-] x. destruct (Heven x) as [h Hh]. rewrite Hh.
    case_decide; [exists (S h)|exists h]; lia.
  - intros a b. unfold link. simpl. lia.
Qed.

Lemma hier_preserved (g : list (list nat)) (start anchor : nat)
    (st st' : Euler.state) :
  hier_inv g start anchor st →
  Euler.step st = Euler.Continue st' →
  ∃ anchor', hier_inv g start anchor' st'.
Proof.
  intros [Hund Hpar Hcount Hfirst Hsize]. unfold Euler.step.
  destruct (last (Euler.stack st)) as [v|] eqn:Hv; [|done].
  destruct (Euler.adjList st !! v) as [nv|] eqn:Hnv; [|done].
  destruct (last nv) as [u|] eqn:Hu.
  - destruct (<[v:=removelast nv]> (Euler.adjList st) !! u) as [nu|] eqn:Hnu;
      [|done].
    intros [= <-]. exists anchor.
    pose proof (push_distinct _ v u nv Hnv Hu Hund) as Hne.
    split; simpl.
    + by eapply push_undirected.
    + intros top Htop x. rewrite last_snoc in Htop. injection Htop as <-.
      destruct (Hpar v eq_refl x) as [h Hh].
      pose proof (push_length _ v u nv nu Hnv Hu Hnu Hund x) as Hlen.
      exists (h - (if decide (x = v) then 1 else 0)).
      repeat case_decide; subst; try done; lia.
    + intros a b. rewrite (Hcount a b), traversals_snoc, Hv.
      pose proof (push_occ _ v u nv nu Hnv Hu Hnu Hund a b) as Hocc.
      assert (link anchor
                {| Euler.adjList :=
                     <[u:=Euler.remove_first v nu]>
                       (<[v:=removelast nv]> (Euler.adjList st));
                   Euler.stack := Euler.stack st ++ [u];
                   Euler.circuit := Euler.circuit st |} a b
              = link anchor st a b) as ->.
      { unfold link. simpl. by rewrite last_snoc, Hv. }
      unfold joins.
      repeat case_decide; destruct_and?; subst; try lia; try tauto.
    + done.
    + rewrite length_app. simpl.
      destruct (push_other_end _ v u nv nu Hnv Hu Hnu Hund) as [_ Hvin].
      pose proof (Euler.entries_insert _ _ _ (removelast nv) Hnv) as E1.
      pose proof (Euler.entries_insert _ _ _ (Euler.remove_first v nu) Hnu) as E2.
      pose proof (Euler.length_removelast _ _ Hu).
      pose proof (length_remove_first_elem v nu Hvin). lia.
  - intros [= <-]. apply last_None in Hu as ->.
    (* the vertex that is stuck is the anchor *)
    assert (v = anchor) as ->.
    { destruct (Hpar v eq_refl v) as [h Hh].
      rewrite (list_lookup_total_correct _ _ _ Hnv) in Hh. simpl in Hh.
      rewrite (decide_True (P := v = v)) in Hh by done.
      destruct (decide (v = anchor)); [done|lia]. }
    apply last_Some in Hv as [s' Hs'].
    destruct st as [adj stack circuit]. simpl in *. subst stack.
    rewrite removelast_last.
    exists (default start (last s')).
    split; simpl.
    + done.
    + intros top Htop x. rewrite Htop. simpl.
      destruct (Hpar anchor eq_refl x) as [h Hh].
      exists (h - (if decide (x = anchor) then 1 else 0)
                + (if decide (x = top) then 1 else 0)).
      repeat case_decide; lia.
    + intros a b. rewrite (Hcount a b), !traversals_snoc.
      unfold link. simpl. rewrite !last_snoc.
      destruct (last s') as [w|]; destruct (last circuit) as [c|];
        simpl; unfold joins;
        repeat case_decide; destruct_and?; subst; try lia; try tauto.
    + destruct circuit as [|x c]; simpl; done.
    + rewrite !length_app in *. simpl in *. lia.
Qed.

Lemma hier_run (g : list (list nat)) (start : nat) (final : Euler.state) :
  undirected g → even_degrees g →
  rtc (λ a b, Euler.step a = Euler.Continue b)
      (Euler.mkState g [start] []) final →
  ∃ anchor, hier_inv g start anchor final.
Proof.
  intros Hund Heven. revert final. apply rtc_ind_r.
  - exists start. by apply hier_init.
  - intros y z _ Hstep [anchor IH]. by eapply hier_preserved.
Qed.

(** On an undirected multigraph without loops whose degrees are even,
    [findEulerianCircuit] returns a walk that begins and ends at the
    start and goes along every edge at a vertex within reach exactly as
    often as the edge is listed. *)
Lemma euler_circuit_eulerian (g : list (list nat)) (start : nat) :
  undirected g → even_degrees g → start < length g →
  ∃ c, Euler.findEulerianCircuit g start = Some c ∧
       head c = Some start ∧ last c = Some start ∧
       (∀ a b, rtc (adjacent g) start a →
          traversals a b c = occ b (g !!! a)) ∧
       ((∀ a, a < length g → rtc (adjacent g) start a) →
        2 * length c = 2 + Euler.entries g).
Proof.
  intros Hund Heven Hstart.
  destruct (euler_circuit_covers g start (undirected_bounded g Hund) Hstart)
    as (c & Hc & Hcover & _).
  exists c. split; [done|].
  destruct (euler_vertices g start c Hc) as (Hhead & _).
  split; [done|].
  unfold Euler.findEulerianCircuit in Hc.
  destruct (euler_run_ends (Euler.mkState g [start] []))
    as (final & Hrun & [[Hfin Hloop]|[_ Hloop]]);
    rewrite Hloop in Hc; [|done].
  injection Hc as <-.
  destruct (hier_run g start final Hund Heven Hrun)
    as (anchor & [_ _ Hcount Hfirst Hsize]).
  destruct (euler_gen_run g start final Hrun) as [Hlen _ _ Hcirc _ _ _].
  apply euler_step_finished in Hfin.
  split; [|split].
  - rewrite last_reverse. rewrite head_reverse in Hhead.
    destruct (Euler.circuit final) as [|x c]; [done|]. simpl. by subst.
  - intros a b Ha. rewrite traversals_reverse, (Hcount a b), Hfin.
    apply Hcover in Ha. rewrite elem_of_reverse in Ha.
    rewrite (list_lookup_total_correct _ _ _ (Hcirc a Ha)).
    unfold link, occ. rewrite Hfin. simpl. lia.
  - intros Hall. rewrite length_reverse.
    rewrite Hfin in Hsize. simpl in Hsize.
    rewrite entries_empty in Hsize; [lia|].
    intros a l Hl. pose proof (lookup_lt_Some _ _ _ Hl) as Ha.
    rewrite Hlen in Ha. apply Hall, Hcover in Ha.
    rewrite elem_of_reverse in Ha. rewrite (Hcirc a Ha) in Hl. by injection Hl.
Qed.

(** ** Christofides: the circuit walks every tree edge and every pair once *)

(** How many edges of [E] join [a] and [b]. *)
Definition edge_count (a b : nat) (E : list edge) : nat :=
  length (filter (λ e, joins (from e) (to e) a b) E).

Lemma edge_count_app (a b : nat) (E F : list edge) :
  edge_count a b (E ++ F) = edge_count a b E + edge_count a b F.
Proof. unfold edge_count. by rewrite filter_app, length_app. Qed.

Lemma occ_alter_snoc (g : list (list nat)) (i x a b : nat) :
  i < length g →
  occ b (alter (λ l, l ++ [x]) i g !!! a)
  = occ b (g !!! a) + (if decide (i = a ∧ x = b) then 1 else 0).
Proof.
  intros Hi. destruct (decide (i = a)) as [->|Hia].
  - rewrite list_lookup_total_alter_eq by done.
    rewrite occ_app. unfold occ at 2. simpl. rewrite filter_cons, filter_nil.
    repeat case_decide; destruct_and?; simpl; try lia; tauto.
  - rewrite list_lookup_total_alter_ne by done.
    rewrite decide_False by tauto. lia.
Qed.

Lemma entries_alter_snoc (g : list (list nat)) (i x : nat) :
  i < length g →
  Euler.entries (alter (λ l, l ++ [x]) i g) = S (Euler.entries g).
Proof.
  intros Hi. destruct (lookup_lt_is_Some_2 g i Hi) as [l Hl].
  assert (alter (λ l, l ++ [x]) i g = <[i := l ++ [x]]> g) as ->.
  { apply list_eq. intros j. rewrite list_lookup_alter.
    destruct (decide (i = j)) as [->|Hij].
    - rewrite list_lookup_insert_eq by done. by rewrite Hl.
    - by rewrite list_lookup_insert_ne. }
  pose proof (Euler.entries_insert g i l (l ++ [x]) Hl) as H.
  rewrite length_app in H. simpl in H. lia.
Qed.

Lemma multigraph_spec (g0 : list (list nat)) (E : list edge) :
  (∀ e, e ∈ E → from e < length g0 ∧ to e < length g0 ∧ from e ≠ to e) →
  (∀ a b, occ b (foldl Christofides.add_edge g0 E !!! a)
          = occ b (g0 !!! a) + edge_count a b E) ∧
  Euler.entries (foldl Christofides.add_edge g0 E)
  = Euler.entries g0 + 2 * length E.
Proof.
  induction E as [|e E IH] using rev_ind; intros Hrange.
  - simpl. split; [intros a b; unfold edge_count; simpl; lia|lia].
  - destruct IH as [Hocc Hent].
    { intros e' He'. apply Hrange, elem_of_app. by left. }
    destruct (Hrange e) as (Hf & Ht & Hne). { apply elem_of_app. right. by left. }
    destruct (graph_spec g0 E) as (Hlen & _).
    { intros e' He'. destruct (Hrange e') as (? & ? & _); [|done].
      apply elem_of_app. by left. }
    rewrite foldl_app. simpl. unfold Christofides.add_edge at 1 3. split.
    + intros a b.
      rewrite !occ_alter_snoc by (rewrite ?length_alter; lia).
      rewrite Hocc, edge_count_app. unfold edge_count at 3.
      rewrite filter_cons, filter_nil. unfold joins.
      repeat case_decide; destruct_and?; simpl; subst; try lia; try tauto.
    + rewrite !entries_alter_snoc by (rewrite ?length_alter; lia).
      rewrite Hent, length_app. simpl. lia.
Qed.

Lemma endpoints_distinct (M : list edge) (e : edge) :
  NoDup (endpoints M) → e ∈ M → from e ≠ to e.
Proof.
  induction M as [|e' M IH]; intros Hnd He; [by apply elem_of_nil in He|].
  simpl in Hnd. apply NoDup_cons in Hnd as [Hf Hnd].
  apply NoDup_cons in Hnd as [_ Hnd].
  apply elem_of_cons in He as [->|He]; [|by apply IH].
  intros E. apply Hf. rewrite E. by left.
Qed.

(** The multigraph that [christofidesTSP] hands to [findEulerianCircuit]. *)
Lemma christofides_multigraph (d : matrix) :
  finite_matrix d → 1 ≤ length d →
  let mst := Prim.primMST d in
  let odd := Christofides.oddVertices (length d)
               (Christofides.degrees (length d) mst) in
  let matching := Matching.minimumWeightMatching odd d in
  let E := (Christofides.plain <$> mst) ++ matching in
  let graph := Christofides.eulerianGraph (length d) mst matching in
  (∀ a b, occ b (graph !!! a) = edge_count a b E) ∧
  Euler.entries graph = 2 * length E ∧
  undirected graph ∧ even_degrees graph.
Proof.
  intros Hfin Hn mst odd matching E graph.
  assert (∀ e, e ∈ E →
    from e < length (replicate (length d) (@nil nat)) ∧
    to e < length (replicate (length d) (@nil nat)) ∧ from e ≠ to e) as Hrange.
  { intros e He. rewrite length_replicate. unfold E in He.
    apply elem_of_app in He as [He|He].
    - apply list_elem_of_fmap in He as (we & -> & Hwe). simpl.
      destruct (prim_range d we Hwe) as [Hf Ht]. split; [done|]. split; [done|].
      apply list_elem_of_lookup_1 in Hwe as [k Hk].
      destruct (prim_follows_rule d Hfin Hn k we Hk) as (_ & Hin & Hout & _).
      intros Heq. apply Hout. by rewrite <- Heq.
    - pose proof (christofides_matching_perfect d Hfin Hn) as Hperm.
      fold mst odd matching in Hperm.
      destruct (odd_vertices_spec (length d) mst) as (Hnd & Hmem & _).
      { intros we. apply prim_range. }
      fold odd in Hnd, Hmem.
      destruct (endpoints_elem _ e He) as [Hf Ht].
      rewrite Hperm in Hf, Ht. apply Hmem in Hf as [Hf _].
      apply Hmem in Ht as [Ht _]. split; [done|]. split; [done|].
      apply (endpoints_distinct matching); [by rewrite Hperm|done]. }
  destruct (multigraph_spec _ E Hrange) as [Hocc Hent].
  unfold E in Hocc, Hent. rewrite foldl_app in Hocc, Hent.
  fold (Christofides.eulerianGraph (length d) mst matching) in Hocc, Hent.
  fold graph E in Hocc, Hent.
  assert (∀ a b, occ b (graph !!! a) = edge_count a b E) as Hocc'.
  { intros a b. rewrite Hocc.
    destruct (decide (a < length d)) as [Ha|Ha].
    - rewrite lookup_total_replicate_2 by done. unfold occ. simpl. lia.
    - rewrite lookup_total_nil_ge by (rewrite length_replicate; lia).
      unfold occ. simpl. lia. }
  split; [done|]. split.
  { rewrite Hent. unfold Euler.entries.
    rewrite (sum_list_fmap_same 0); [lia|].
    apply Forall_forall. intros l Hl. by apply elem_of_replicate in Hl as [-> _]. }
  split; [split|].
  - intros a b. rewrite !Hocc'. unfold edge_count. f_equal.
    apply list_filter_iff. intros e. unfold joins. tauto.
  - intros a Ha. apply occ_pos in Ha. rewrite Hocc' in Ha.
    unfold edge_count in Ha.
    destruct (filter _ E) as [|e F] eqn:HF; [simpl in Ha; lia|].
    assert (e ∈ filter (λ e, joins (from e) (to e) a a) E) as He
      by (rewrite HF; by left).
    apply list_elem_of_filter in He as [Hj He].
    destruct (Hrange e He) as (_ & _ & Hne). unfold joins in Hj.
    destruct Hj as [[? ?]|[? ?]]; congruence.
  - intros a. destruct (decide (a < length d)) as [Ha|Ha].
    + by apply christofides_even_degree.
    + exists 0. rewrite lookup_total_nil_ge; [done|].
      destruct (christofides_graph d Hfin Hn) as [Hlen _].
      fold mst odd matching graph in Hlen. lia.
Qed.

(** The circuit of step 5 goes along every edge of step 4 once. *)
Lemma christofides_circuit (clk : clock) (d : matrix) :
  finite_matrix d → 1 ≤ length d →
  ∃ r E c, Christofides.christofidesTSP clk d = Some r ∧
    exploringEdges <$> steps r !! 4 = Some (Some E) ∧
    currentPath <$> steps r !! 5 = Some c ∧
    head c = Some 0 ∧ last c = Some 0 ∧ length c = S (length E) ∧
    ∀ a b, a < length d → traversals a b c = edge_count a b E.
Proof.
  intros Hfin Hn.
  destruct (christofides_multigraph d Hfin Hn) as (Hocc & Hent & Hund & Heven).
  destruct (christofides_graph d Hfin Hn) as [Hlen _].
  pose proof (christofides_connected d Hfin Hn) as Hconn.
  unfold Christofides.christofidesTSP.
  set (mst := Prim.primMST d) in *.
  set (odd := Christofides.oddVertices _ _) in *.
  set (matching := Matching.minimumWeightMatching odd d) in *.
  set (graph := Christofides.eulerianGraph _ _ _) in *.
  destruct (euler_circuit_eulerian graph 0 Hund Heven ltac:(lia))
    as (c & Hc & Hhead & Hlast & Htrav & Hsize).
  rewrite Hc. simpl.
  eexists _, _, c. split; [done|]. simpl.
  split; [done|]. split; [done|]. split; [done|]. split; [done|]. split.
  - specialize (Hsize ltac:(intros a Ha; apply Hconn; lia)). lia.
  - intros a b Ha. rewrite Htrav by (by apply Hconn). apply Hocc.
Qed.

(** ** The matrix that [createDistanceMatrix] builds *)

Lemma createDistanceMatrix_spec (dist : GraphGenerator.Point →
    GraphGenerator.Point → num) (points : list GraphGenerator.Point) :
  let m := GraphGenerator.createDistanceMatrix dist points in
  length m = length points ∧
  Forall (λ row, length row = length points) m ∧
  ∀ i j, i < length points → j < length points →
    m !! i ≫= (.!! j)
    = Some (if decide (i = j) then Fin 0
            else dist (points !!! i) (points !!! j)).
Proof.
  set (n := length points).
  set (P := λ (i j : nat) (m : matrix),
    length m = n ∧ Forall (λ row, length row = n) m ∧
    ∀ i' j', i' < n → j' < n →
      m !! i' ≫= (.!! j')
      = Some (if decide (i' ≠ j' ∧ earlier i j i' j')
              then dist (points !!! i') (points !!! j') else Fin 0)).
  assert (∀ i j m, i < n → j < n → P i j m →
    P i (S j) (if decide (i ≠ j)
               then alter (λ row, <[j := dist (points !!! i) (points !!! j)]> row)
                      i m
               else m)) as Hstep.
  { intros i j m Hi Hj (Hlen & Hrows & Hent).
    assert (∀ i' j', earlier i (S j) i' j' ↔
              earlier i j i' j' ∨ (i' = i ∧ j' = j)) as Hsplit.
    { unfold earlier. intros i' j'. lia. }
    case_decide as Hij.
    - split; [by rewrite length_alter|]. split.
      + apply Forall_alter; [done|]. intros row _ Hrow. simpl in Hrow.
        by rewrite length_insert.
      + intros i' j' Hi' Hj'. specialize (Hent i' j' Hi' Hj').
        rewrite list_lookup_alter.
        destruct (decide (i = i')) as [<-|Hne].
        * destruct (m !! i) as [row|] eqn:Hrow; simpl in *; [|done].
          destruct (decide (j = j')) as [<-|Hnj].
          -- rewrite list_lookup_insert_eq by (by eapply lookup_lt_Some).
             rewrite decide_True; [done|].
             split; [done|]. apply Hsplit. by right.
          -- rewrite list_lookup_insert_ne by done. rewrite Hent.
             f_equal. apply decide_ext. rewrite Hsplit. intuition lia.
        * rewrite Hent. f_equal. apply decide_ext. rewrite Hsplit. intuition lia.
    - split; [done|]. split; [done|].
      intros i' j' Hi' Hj'. rewrite (Hent i' j' Hi' Hj'). f_equal.
      apply decide_ext. rewrite Hsplit. intuition lia. }
  assert (P n 0 (GraphGenerator.createDistanceMatrix dist points))
    as (Hlen & Hrows & Hent).
  { unfold GraphGenerator.createDistanceMatrix. fold n.
    apply (for_loop_ind (λ i m, i ≤ n → P i 0 m)); [| |done].
    - intros _. split; [by rewrite length_replicate|]. split.
      + apply Forall_forall. intros row Hrow.
        apply elem_of_replicate in Hrow as [-> _]. by rewrite length_replicate.
      + intros i' j' Hi' Hj'. rewrite lookup_replicate_2 by done. simpl.
        rewrite lookup_replicate_2 by done.
        rewrite decide_False; [done|]. unfold earlier. lia.
    - intros i m Hi IH Hle. simpl.
      assert (P i n (for_loop n 0
        (λ j m, if decide (i ≠ j)
                then alter (λ row,
                       <[j := dist (points !!! i) (points !!! j)]> row) i m
                else m) m)) as (H1 & H2 & H3).
      { apply (for_loop_ind (λ j m', j ≤ n → P i j m')); [| |done].
        - intros _. apply IH. lia.
        - intros j m' Hj IH' Hle'. simpl. apply Hstep; [lia|lia|].
          apply IH'. lia. }
      split; [done|]. split; [done|].
      intros i' j' Hi' Hj'. rewrite (H3 i' j' Hi' Hj'). f_equal.
      apply decide_ext. unfold earlier. intuition lia. }
  split; [done|]. split; [done|].
  intros i j Hi Hj. rewrite (Hent i j Hi Hj). f_equal.
  destruct (decide (i = j)) as [->|Hne].
  - rewrite decide_False; [done|]. tauto.
  - rewrite decide_True; [done|]. split; [done|]. unfold earlier. lia.
Qed.

Lemma forallb_intro {A : Type} (f : A → bool) (l : list A) :
  (∀ i x, l !! i = Some x → f x = true) → forallb f l = true.
Proof.
  induction l as [|y l IH]; intros H; [done|]. simpl.
  rewrite (H 0 y eq_refl). simpl. apply IH.
  intros i x Hx. by apply (H (S i)).
Qed.

Lemma entry_lookup (m : matrix) (i j : nat) (v : num) :
  m !! i ≫= (.!! j) = Some v → entry m i j = v.
Proof.
  unfold entry. destruct (m !! i) as [row|]; simpl; [|done].
  by intros ->.
Qed.

(** With a distance function that is symmetric and yields finite
    non-negative numbers, the matrix of one point or more is valid. *)
Lemma createDistanceMatrix_valid (dist : GraphGenerator.Point →
    GraphGenerator.Point → num) (points : list GraphGenerator.Point) :
  (∀ p q, dist p q = dist q p) → (∀ p q, is_dist (dist p q) = true) →
  points ≠ [] →
  valid_matrix (GraphGenerator.createDistanceMatrix dist points).
Proof.
  intros Hsym Hpos Hne.
  destruct (createDistanceMatrix_spec dist points) as (Hlen & Hrows & Hent).
  set (m := GraphGenerator.createDistanceMatrix dist points) in *.
  assert (∀ i j, i < length points → j < length points →
    entry m i j = if decide (i = j) then Fin 0
                  else dist (points !!! i) (points !!! j)) as Hentry.
  { intros i j Hi Hj. by apply entry_lookup, Hent. }
  unfold valid_matrix, valid_matrixb, square_nonnegb.
  rewrite Hlen. repeat (apply andb_true_intro; split).
  - apply Nat.leb_le. destruct points; [done|simpl; lia].
  - apply forallb_intro. intros i row Hrow. apply Nat.eqb_eq.
    by apply (Forall_lookup_1 _ _ _ _ Hrows Hrow).
  - apply forallb_intro. intros i row Hrow. apply forallb_intro.
    intros j v Hv.
    assert (i < length points) as Hi.
    { rewrite <- Hlen. by eapply lookup_lt_Some. }
    assert (j < length points) as Hj.
    { rewrite <- (Forall_lookup_1 _ _ _ _ Hrows Hrow). by eapply lookup_lt_Some. }
    specialize (Hent i j Hi Hj). rewrite Hrow in Hent. simpl in Hent.
    rewrite Hv in Hent. injection Hent as ->. by case_decide.
  - apply forallb_intro. intros k i Hi. apply lookup_seq in Hi as [-> Hi].
    apply bool_decide_eq_true. rewrite Hentry by done. by rewrite decide_True.
  - apply forallb_intro. intros k i Hi. apply lookup_seq in Hi as [-> Hi].
    apply forallb_intro. intros k' j Hj. apply lookup_seq in Hj as [-> Hj].
    apply bool_decide_eq_true. simpl. rewrite !Hentry by done.
    destruct (decide (k = k')) as [->|Hne'].
    + by rewrite decide_True.
    + rewrite decide_False by (intros ->; done). apply Hsym.
Qed.

(** ** [runAlgorithms] never throws on a matrix with non-empty rows *)

Lemma runAlgorithms_total (clkG clkH clkC : clock) (d : matrix) :
  (∀ row, row ∈ d → row ≠ []) →
  (length d = 0 ∧ App.runAlgorithms clkG clkH clkC d = App.Skipped) ∨
  (1 ≤ length d ∧
   ∃ g h c, Greedy.greedyTSP clkG d = Some g ∧
            HeldKarp.heldKarpTSP clkH d = Some h ∧
            Christofides.christofidesTSP clkC d = Some c ∧
            App.runAlgorithms clkG clkH clkC d = App.Ran g h c).
Proof.
  intros Hrows. unfold App.runAlgorithms.
  case_decide as Hz; [by left|right]. split; [lia|].
  destruct (Greedy.greedyTSP clkG d) as [g|] eqn:Hg.
  2:{ apply (proj1 (greedy_any_matrix clkG d)) in Hg as [?|Hrow]; [done|].
      apply list_elem_of_lookup_2 in Hrow. by apply Hrows in Hrow. }
  destruct (HeldKarp.heldKarpTSP clkH d) as [h|] eqn:Hh.
  2:{ by apply heldKarp_returns in Hh. }
  destruct (Christofides.christofidesTSP clkC d) as [c|] eqn:Hc.
  2:{ by apply (proj1 (christofides_any_matrix clkC d)) in Hc. }
  by exists g, h, c.
Qed.

(** ** Stepping through the steps *)

Lemma react_in_range (steps : list AlgorithmStep) (p : App.player)
    (e : App.event) :
  App.stepIndex p < length steps →
  (∀ v, e = App.Slide v → v < length steps) →
  App.stepIndex (App.react steps p e) < length steps.
Proof.
  intros Hp Hslide. destruct e; simpl.
  - unfold AlgorithmStepper.handlePrevious. case_match; lia.
  - unfold AlgorithmStepper.handleNext. case_match eqn:E; [|done].
    apply Z.ltb_lt in E. lia.
  - unfold AlgorithmStepper.handleReset. lia.
  - by apply Hslide.
  - done.
  - unfold App.tick. destruct (App.isPlaying p); simpl; [|done].
    case_match eqn:E; simpl; [done|]. apply Z.leb_gt in E. lia.
Qed.

Lemma events_in_range (steps : list AlgorithmStep) (events : list App.event)
    (p : App.player) :
  App.stepIndex p < length steps →
  (∀ v, App.Slide v ∈ events → v < length steps) →
  App.stepIndex (foldl (App.react steps) p events) < length steps.
Proof.
  revert p. induction events as [|e events IH]; intros p Hp Hslide; [done|].
  simpl. apply IH.
  - apply react_in_range; [done|]. intros v ->. apply Hslide. by left.
  - intros v Hv. apply Hslide. by right.
Qed.

(** [k] rounds of the interval. *)
Definition ticks (steps : list AlgorithmStep) (k : nat) (p : App.player)
    : App.player :=
  Nat.iter k (App.tick steps) p.

Lemma ticks_spec (steps : list AlgorithmStep) (k : nat) (p : App.player) :
  App.stepIndex p < length steps → App.isPlaying p = true →
  ticks steps k p
  = App.mkPlayer (App.stepIndex p + k `min` (length steps - 1 - App.stepIndex p))
      (bool_decide (k ≤ length steps - 1 - App.stepIndex p)).
Proof.
  intros Hp Hplay. induction k as [|k IH].
  - unfold ticks. destruct p as [i b]. cbn [Nat.iter App.stepIndex App.isPlaying] in *.
    subst b. rewrite bool_decide_eq_true_2 by lia.
    change (Nat.iter 0 (App.tick steps) (App.mkPlayer i true))
      with (App.mkPlayer i true).
    f_equal. lia.
  - unfold ticks in *. rewrite Nat.iter_succ, IH. unfold App.tick.
    cbn [App.stepIndex App.isPlaying].
    destruct (decide (k ≤ length steps - 1 - App.stepIndex p)) as [Hk|Hk].
    + rewrite bool_decide_eq_true_2 by done. cbn [negb].
      destruct (decide (S k ≤ length steps - 1 - App.stepIndex p)) as [Hk'|Hk'].
      * rewrite (bool_decide_eq_true_2 _ Hk').
        case_match eqn:E; [apply Z.leb_le in E; lia|]. f_equal. lia.
      * rewrite (bool_decide_eq_false_2 _ Hk').
        case_match eqn:E; [f_equal; lia|]. apply Z.leb_gt in E. lia.
    + rewrite bool_decide_eq_false_2 by done. cbn [negb].
      rewrite bool_decide_eq_false_2 by lia. f_equal. lia.
Qed.

(** ** What the cards and the stepper show *)



(** ** The edges that [ReactFlowGraph] draws *)

(** The edge that the last loop of [initialEdges] pushes in round [i]. *)
Definition solution_edge (path : list nat) (i : nat) : ReactFlowGraph.Edge :=
  ReactFlowGraph.mkFlowEdge [Str "path-"; Node i] (path !!! i)
    (if i <? length path - 1 then path !!! (i + 1) else path !!! 0)
    ReactFlowGraph.Solution (Some (i + 1)).

Lemma solution_spec (path : list nat) :
  ReactFlowGraph.solution path = solution_edge path <$> seq 0 (length path).
Proof.
  unfold ReactFlowGraph.solution.
  apply (for_loop_ind (λ i edges, edges = solution_edge path <$> seq 0 i));
    [done|].
  intros i edges Hi ->. by rewrite seq_S, fmap_app.
Qed.

Lemma indexOf_lookup (l : list nat) (k x : nat) :
  NoDup l → l !! k = Some x → ReactFlowGraph.indexOf l x = Z.of_nat k.
Proof.
  revert k. induction l as [|y l IH]; intros k Hnd Hk; [done|].
  apply NoDup_cons in Hnd as [Hy Hnd]. simpl.
  destruct k as [|k]; simpl in Hk.
  - injection Hk as ->. by rewrite decide_True.
  - rewrite decide_False.
    + rewrite (IH k Hnd Hk).
      destruct (Z.of_nat k <? 0)%Z eqn:E; [apply Z.ltb_lt in E|]; lia.
    + intros ->. apply Hy. by eapply list_elem_of_lookup_2.
Qed.

Lemma joined_joins (e : edge) (i j : nat) :
  ReactFlowGraph.joined e i j = true ↔ joins (from e) (to e) i j.
Proof.
  unfold ReactFlowGraph.joined, joins.
  rewrite orb_true_iff, !andb_true_iff, !bool_decide_eq_true. done.
Qed.

(** On a path without repetition, the test [isInPath] holds for the pairs
    that an edge of the path joins, in either direction. *)
Lemma isInPath_solution (path : list nat) (i j : nat) :
  NoDup path → i ≠ j →
  ReactFlowGraph.isInPath path i j = true ↔
  ∃ e, e ∈ ReactFlowGraph.solution path ∧
       joins (ReactFlowGraph.source e) (ReactFlowGraph.target e) i j.
Proof.
  intros Hnd Hij. rewrite solution_spec.
  assert (∀ a, a ∈ path → ∃ k, k < length path ∧ path !! k = Some a ∧
            ReactFlowGraph.indexOf path a = Z.of_nat k) as Hidx.
  { intros a Ha. apply list_elem_of_lookup_1 in Ha as [k Hk].
    exists k. split; [by eapply lookup_lt_Some|]. split; [done|].
    by apply indexOf_lookup. }
  assert (∀ k, k < length path →
    solution_edge path k ∈ solution_edge path <$> seq 0 (length path)) as Hmem.
  { intros k Hk. apply list_elem_of_fmap. exists k. split; [done|].
    apply elem_of_seq. lia. }
  assert (∀ k a, path !! k = Some a → path !!! k = a) as Htot.
  { intros k a Hk. by apply list_lookup_total_correct. }
  unfold ReactFlowGraph.isInPath.
  rewrite andb_true_iff, !orb_true_iff, !andb_true_iff, !bool_decide_eq_true,
    Nat.ltb_lt, Z.eqb_eq.
  split.
  - intros [Hlen [[[[Hi Hj] Habs]|[H0 Hl]]|[H0 Hl]]].
    + destruct (Hidx i Hi) as (ki & Hki & Hpi & Ii).
      destruct (Hidx j Hj) as (kj & Hkj & Hpj & Ij).
      rewrite Ii, Ij in Habs.
      destruct (decide (kj = S ki)) as [->|Hne].
      * exists (solution_edge path ki). split; [by apply Hmem|]. simpl.
        rewrite (proj2 (Nat.ltb_lt _ _)) by lia.
        replace (ki + 1) with (S ki) by lia.
        rewrite (Htot _ _ Hpi), (Htot _ _ Hpj). by left.
      * assert (ki = S kj) as -> by lia.
        exists (solution_edge path kj). split; [by apply Hmem|]. simpl.
        rewrite (proj2 (Nat.ltb_lt _ _)) by lia.
        replace (kj + 1) with (S kj) by lia.
        rewrite (Htot _ _ Hpi), (Htot _ _ Hpj). by right.
    + exists (solution_edge path (length path - 1)).
      split; [apply Hmem; lia|]. simpl.
      rewrite (proj2 (Nat.ltb_ge _ _)) by lia.
      rewrite (Htot _ _ H0). rewrite last_lookup in Hl.
      replace (Init.Nat.pred (length path)) with (length path - 1) in Hl by lia.
      rewrite (Htot _ _ Hl). by right.
    + exists (solution_edge path (length path - 1)).
      split; [apply Hmem; lia|]. simpl.
      rewrite (proj2 (Nat.ltb_ge _ _)) by lia.
      rewrite (Htot _ _ H0). rewrite last_lookup in Hl.
      replace (Init.Nat.pred (length path)) with (length path - 1) in Hl by lia.
      rewrite (Htot _ _ Hl). by left.
  - intros (e & He & Hj). apply list_elem_of_fmap in He as (k & -> & Hk).
    apply elem_of_seq in Hk. simpl in Hj. split; [lia|].
    destruct (lookup_lt_is_Some_2 path k ltac:(lia)) as [a Ha].
    rewrite (Htot _ _ Ha) in Hj.
    destruct (k <? length path - 1) eqn:E.
    + apply Nat.ltb_lt in E.
      destruct (lookup_lt_is_Some_2 path (k + 1) ltac:(lia)) as [b Hb].
      rewrite (Htot _ _ Hb) in Hj. left. left.
      pose proof (indexOf_lookup _ _ _ Hnd Ha) as Ia.
      pose proof (indexOf_lookup _ _ _ Hnd Hb) as Ib.
      apply list_elem_of_lookup_2 in Ha, Hb.
      destruct Hj as [[-> ->]|[-> ->]]; rewrite Ia, Ib; (split; [done|lia]).
    + apply Nat.ltb_ge in E. assert (k = length path - 1) as -> by lia.
      destruct (lookup_lt_is_Some_2 path 0 ltac:(lia)) as [b Hb].
      rewrite (Htot _ _ Hb) in Hj.
      assert (last path = Some a) as Hl.
      { rewrite last_lookup.
        by replace (Init.Nat.pred (length path)) with (length path - 1) by lia. }
      destruct Hj as [[-> ->]|[-> ->]]; [right|left; right]; done.
Qed.

Lemma for_loop_collect {A : Type} (c : nat → bool) (f : nat → A)
    (k lo : nat) (acc : list A) :
  for_loop k lo (λ j acc, if c j then acc ++ [f j] else acc) acc
  = acc ++ (f <$> filter (λ j, c j = true) (seq lo k)).
Proof.
  revert lo acc. induction k as [|k IH]; intros lo acc; simpl.
  - by rewrite app_nil_r.
  - rewrite IH, filter_cons. destruct (c lo) eqn:E.
    + rewrite decide_True by done. by rewrite <- app_assoc.
    + rewrite decide_False by done. done.
Qed.

(** The gray edge between [i] and [j]. *)
Definition gray_edge (i j : nat) : ReactFlowGraph.Edge :=
  ReactFlowGraph.mkFlowEdge [Str "e"; Node i; Str "-"; Node j] i j
    ReactFlowGraph.Background None.

Lemma background_spec (n : nat) (path : list nat) (hes : list edge)
    (he : option edge) (e : ReactFlowGraph.Edge) :
  e ∈ ReactFlowGraph.background n path hes he ↔
  ∃ i j, i < j < n ∧ e = gray_edge i j ∧
    ReactFlowGraph.isInPath path i j = false ∧
    ReactFlowGraph.isHighlighted hes i j = false ∧
    ReactFlowGraph.isCurrentHighlight he i j = false.
Proof.
  unfold ReactFlowGraph.background.
  set (c := λ i j, negb (ReactFlowGraph.isInPath path i j)
                   && negb (ReactFlowGraph.isHighlighted hes i j)
                   && negb (ReactFlowGraph.isCurrentHighlight he i j)).
  assert (∀ i j, c i j = true ↔
    ReactFlowGraph.isInPath path i j = false ∧
    ReactFlowGraph.isHighlighted hes i j = false ∧
    ReactFlowGraph.isCurrentHighlight he i j = false) as Hc.
  { intros i j. unfold c. rewrite !andb_true_iff, !negb_true_iff. tauto. }
  set (all := for_loop n 0 _ []).
  assert (e ∈ all ↔ ∃ i' j, i' < n ∧ i' < j < n ∧ e = gray_edge i' j ∧
                      c i' j = true) as H.
  { unfold all.
    apply (for_loop_ind (λ i edges, i ≤ n →
      (e ∈ edges ↔ ∃ i' j, i' < i ∧ i' < j < n ∧ e = gray_edge i' j ∧
                     c i' j = true))); [| |done].
  - intros _. split; [intros H; by apply elem_of_nil in H|].
    intros (i' & j & Hi' & _). lia.
  - intros i edges Hi IH Hle. specialize (IH ltac:(lia)). simpl.
    rewrite (for_loop_collect (c i) (gray_edge i)).
    rewrite elem_of_app, IH, list_elem_of_fmap. split.
    + intros [(i' & j & Hi' & Hj & He & Hcij)|(j & He & Hj)].
      * exists i', j. split; [lia|done].
      * apply list_elem_of_filter in Hj as [Hcij Hj]. apply elem_of_seq in Hj.
        exists i, j. split; [lia|]. split; [lia|done].
    + intros (i' & j & Hi' & Hj & He & Hcij).
      destruct (decide (i' = i)) as [->|Hne].
      * right. exists j. split; [done|]. apply list_elem_of_filter.
        split; [done|]. apply elem_of_seq. lia.
      * left. exists i', j. split; [lia|done]. }
  rewrite H. split.
  - intros (i & j & Hi & Hj & He & Hcij). exists i, j. by rewrite <- Hc.
  - intros (i & j & Hj & He & Hcij). exists i, j.
    split; [lia|]. split; [lia|]. by rewrite Hc.
Qed.

(** A pair of nodes gets its gray edge exactly when no coloured edge
    joins it. *)
Lemma gray_iff_uncoloured (n : nat) (path : list nat) (hes : list edge)
    (he : option edge) (i j : nat) :
  NoDup path → i < j < n →
  gray_edge i j ∈ ReactFlowGraph.initialEdges n path hes he ↔
  ¬ ∃ e, e ∈ ReactFlowGraph.initialEdges n path hes he ∧
         ReactFlowGraph.style e ≠ ReactFlowGraph.Background ∧
         joins (ReactFlowGraph.source e) (ReactFlowGraph.target e) i j.
Proof.
  intros Hnd Hij. unfold ReactFlowGraph.initialEdges.
  assert (∀ e, e ∈ ReactFlowGraph.exploring hes →
            ReactFlowGraph.style e = ReactFlowGraph.Exploring) as Hsty1.
  { intros e He. unfold ReactFlowGraph.exploring in He.
    apply elem_of_lookup_imap in He as (k & x & -> & _). done. }
  assert (∀ e, e ∈ ReactFlowGraph.current he →
            ReactFlowGraph.style e = ReactFlowGraph.CurrentHighlight) as Hsty2.
  { intros e He. destruct he as [x|]; simpl in He.
    - by apply list_elem_of_singleton in He as ->.
    - by apply elem_of_nil in He. }
  assert (∀ e, e ∈ ReactFlowGraph.solution path →
            ReactFlowGraph.style e = ReactFlowGraph.Solution) as Hsty3.
  { intros e He. rewrite solution_spec in He.
    by apply list_elem_of_fmap in He as (k & -> & _). }
  assert (ReactFlowGraph.isHighlighted hes i j = true ↔
    ∃ e, e ∈ ReactFlowGraph.exploring hes ∧
         joins (ReactFlowGraph.source e) (ReactFlowGraph.target e) i j) as Hhl.
  { unfold ReactFlowGraph.isHighlighted, ReactFlowGraph.exploring.
    rewrite existsb_exists. split.
    - intros (x & Hx & Hj). apply list_elem_of_In in Hx.
      apply list_elem_of_lookup_1 in Hx as [k Hk].
      eexists. split; [apply elem_of_lookup_imap; by exists k, x|].
      simpl. by apply joined_joins.
    - intros (e & He & Hj). apply elem_of_lookup_imap in He as (k & x & -> & Hk).
      exists x. split; [by eapply list_elem_of_In, list_elem_of_lookup_2|].
      by apply joined_joins. }
  assert (ReactFlowGraph.isCurrentHighlight he i j = true ↔
    ∃ e, e ∈ ReactFlowGraph.current he ∧
         joins (ReactFlowGraph.source e) (ReactFlowGraph.target e) i j) as Hcur.
  { destruct he as [x|]; simpl.
    - rewrite joined_joins. split.
      + intros Hj. eexists. split; [by apply list_elem_of_singleton|done].
      + intros (e & He & Hj). by apply list_elem_of_singleton in He as ->.
    - split; [done|]. intros (e & He & _). by apply elem_of_nil in He. }
  pose proof (isInPath_solution path i j Hnd ltac:(lia)) as Hpath.
  rewrite !elem_of_app. split.
  - intros [Hbg|[Hx|[Hx|Hx]]].
    + apply background_spec in Hbg as (i' & j' & _ & He & Hp & Hh & Hc).
      injection He as <- <-.
      intros (e & He & Hsty & Hj). rewrite !elem_of_app in He.
      destruct He as [He|[He|[He|He]]].
      * apply background_spec in He as (? & ? & _ & -> & _). done.
      * rewrite (proj2 Hhl) in Hh; [done|by exists e].
      * rewrite (proj2 Hcur) in Hc; [done|by exists e].
      * rewrite (proj2 Hpath) in Hp; [done|by exists e].
    + by apply Hsty1 in Hx.
    + by apply Hsty2 in Hx.
    + by apply Hsty3 in Hx.
  - intros Hnone. left. apply background_spec. exists i, j.
    split; [done|]. split; [done|].
    split; [|split]; apply not_true_is_false; intros Ht.
    + apply Hpath in Ht as (e & He & Hj). apply Hnone. exists e.
      rewrite !elem_of_app. split; [tauto|]. by rewrite (Hsty3 e He).
    + apply Hhl in Ht as (e & He & Hj). apply Hnone. exists e.
      rewrite !elem_of_app. split; [tauto|]. by rewrite (Hsty1 e He).
    + apply Hcur in Ht as (e & He & Hj). apply Hnone. exists e.
      rewrite !elem_of_app. split; [tauto|]. by rewrite (Hsty2 e He).
Qed.

(** ** The number of steps and the last step on the screen *)

Lemma greedy_steps_length (d : matrix) (i : nat) :
  finite_matrix d → S i ≤ length d →
  length (Greedy.gsteps (Greedy.after d i)) = 1 + 2 * i.
Proof.
  intros Hfin. induction i as [|i IH]; intros Hi; [by destruct (length d)|].
  rewrite greedy_after_succ.
  pose proof (greedy_after_inv d i Hfin ltac:(lia)) as Hinv.
  destruct (greedy_scan_finds d i _ Hfin Hinv Hi) as (m & Hscan & _).
  unfold Greedy.iteration. rewrite Hscan. simpl.
  rewrite length_app, IH by lia. simpl. lia.
Qed.

Lemma step_counts (clkG clkH clkC : clock) (d : matrix) :
  finite_matrix d → 1 ≤ length d →
  ∃ g h c, Greedy.greedyTSP clkG d = Some g ∧
           HeldKarp.heldKarpTSP clkH d = Some h ∧
           Christofides.christofidesTSP clkC d = Some c ∧
           length (steps g) = 2 * length d ∧
           length (steps h) = (if decide (length d ≤ 15) then 3 else 1) ∧
           length (steps c) = 7.
Proof.
  intros Hfin Hn.
  destruct (greedy_result clkG d Hfin Hn) as (g & Hg & _).
  destruct (christofides_result clkC d Hfin Hn) as (c & circuit & Hc & Hcirc & _).
  exists g.
  assert (∃ h, HeldKarp.heldKarpTSP clkH d = Some h ∧
               length (steps h) = if decide (length d ≤ 15) then 3 else 1)
    as (h & Hh & Hlen).
  { case_decide as Hsmall.
    - destruct (heldKarp_small clkH d Hn Hsmall)
        as (t0 & p & minCost & _ & _ & _ & -> & _). by eexists.
    - rewrite heldKarp_large by lia. by eexists. }
  exists h, c. split; [done|]. split; [done|]. split; [done|]. split; [|split].
  - unfold Greedy.greedyTSP in Hg.
    destruct (d !! _) as [row|]; simpl in Hg; [|done].
    destruct (row !! _) as [f|]; simpl in Hg; [|done].
    injection Hg as <-. simpl. rewrite length_app, greedy_steps_length; [|done|lia].
    simpl. lia.
  - done.
  - unfold Christofides.christofidesTSP in Hc. rewrite Hcirc in Hc.
    simpl in Hc. by injection Hc as <-.
Qed.

(** The last step of Greedy carries the closing node in its path, and
    both the stepper and the graph close the path once more. *)
Lemma greedy_last_step_shown (clk : clock) (d : matrix) :
  finite_matrix d → 1 ≤ length d →
  ∃ r st e, Greedy.greedyTSP clk d = Some r ∧ last (steps r) = Some st ∧
    AlgorithmStepper.pathLine st = Some (path r ++ [0; 0]) ∧
    AlgorithmResults.pathText (path r) = AlgorithmResults.Route (path r ++ [0]) ∧
    length (ReactFlowGraph.solution (currentPath st)) = S (length d) ∧
    last (ReactFlowGraph.solution (currentPath st)) = Some e ∧
    ReactFlowGraph.source e = 0 ∧ ReactFlowGraph.target e = 0.
Proof.
  intros Hfin Hn.
  destruct (greedy_result clk d Hfin Hn)
    as (r & Hr & Hpath & _ & _ & st & Hlast & Hcur & _).
  pose proof (greedy_after_inv d (length d - 1) Hfin ltac:(lia))
    as [_ Hlen Hhead _ _ _ _ _ _].
  rewrite <- Hpath in Hlen, Hhead.
  exists r, st, (solution_edge (currentPath st) (length d)).
  split; [done|]. split; [done|]. split; [|split; [|split; [|split; [|split]]]].
  - unfold AlgorithmStepper.pathLine. rewrite Hcur.
    destruct (path r) as [|a [|b q]] eqn:Hp; simpl in *; try done;
      injection Hhead as ->; try done.
    by rewrite <- !app_assoc.
  - unfold AlgorithmResults.pathText.
    destruct (path r) as [|a q]; simpl in *; [done|]. by injection Hhead as ->.
  - rewrite solution_spec, length_fmap, length_seq, Hcur, length_app, Hlen.
    simpl. lia.
  - rewrite solution_spec.
    assert (length (currentPath st) = S (length d)) as ->.
    { rewrite Hcur, length_app, Hlen. simpl. lia. }
    rewrite seq_S, fmap_app. cbn [fmap list_fmap]. by rewrite last_snoc.
  - simpl. rewrite Hcur.
    rewrite lookup_total_app_r by lia.
    by replace (length d - length (path r)) with 0 by lia.
  - simpl. rewrite Hcur.
    rewrite (proj2 (Nat.ltb_ge _ _))
      by (rewrite length_app, Hlen; simpl; lia).
    destruct (path r) as [|a q]; simpl in *; [done|]. by injection Hhead as ->.
Qed.

(** ** More on shortcutting and on [calculatePathCost] *)

Lemma first_visits_filter (seen : gset nat) (c : list nat) :
  first_visits seen c = filter (λ x, x ∉ seen) (first_visits ∅ c).
Proof.
  revert seen. induction c as [|x c IH]; intros seen; [done|].
  simpl. rewrite (decide_False (P := x ∈ (∅ : gset nat)))
    by apply not_elem_of_empty.
  rewrite filter_cons, (IH ({[x]} ∪ ∅)), list_filter_filter.
  destruct (decide (x ∈ seen)) as [Hx|Hx].
  - rewrite decide_False by tauto. rewrite (IH seen).
    apply list_filter_iff. intros y.
    rewrite elem_of_union, elem_of_singleton, elem_of_empty.
    split; [|tauto]. intros Hy. split; [done|]. intros [->|[]]. done.
  - rewrite decide_True by done. f_equal. rewrite (IH ({[x]} ∪ seen)).
    apply list_filter_iff. intros y.
    rewrite !elem_of_union, elem_of_singleton, elem_of_empty. tauto.
Qed.

Lemma first_visits_ext (s s' : gset nat) (c : list nat) :
  (∀ x, x ∈ s ↔ x ∈ s') → first_visits s c = first_visits s' c.
Proof.
  revert s s'. induction c as [|x c IH]; intros s s' H; [done|]. simpl.
  destruct (decide (x ∈ s)) as [Hx|Hx].
  - rewrite decide_True by (by apply H). by apply IH.
  - rewrite decide_False by (by rewrite <- H). f_equal. apply IH.
    intros y. rewrite !elem_of_union, H. tauto.
Qed.

Lemma first_visits_app (seen : gset nat) (c1 c2 : list nat) :
  first_visits seen (c1 ++ c2)
  = first_visits seen c1 ++ first_visits (list_to_set c1 ∪ seen) c2.
Proof.
  revert seen. induction c1 as [|x c1 IH]; intros seen; simpl.
  - apply first_visits_ext. intros y.
    rewrite elem_of_union, elem_of_empty. tauto.
  - destruct (decide (x ∈ seen)) as [Hx|Hx].
    + rewrite IH. f_equal. apply first_visits_ext. intros y.
      rewrite !elem_of_union, elem_of_singleton. split; [tauto|].
      intros [[->|?]|?]; tauto.
    + simpl. rewrite IH. do 2 f_equal. apply first_visits_ext. intros y.
      rewrite !elem_of_union, elem_of_singleton. tauto.
Qed.

Lemma shortcut_app (c1 c2 : list nat) :
  Christofides.shortcut (c1 ++ c2)
  = Christofides.shortcut c1
    ++ filter (λ x, x ∉ c1) (Christofides.shortcut c2).
Proof.
  rewrite !shortcut_first_visits, first_visits_app. f_equal.
  rewrite first_visits_filter. apply list_filter_iff. intros x.
  rewrite elem_of_union, elem_of_list_to_set, elem_of_empty. tauto.
Qed.

(** Once the loop of [calculatePathCost] has thrown it stays thrown. *)
Lemma calculatePathCost_loop_none (d : matrix) (p : list nat) (k lo : nat) :
  for_loop k lo (GraphGenerator.leg d p) None = None.
Proof. revert lo. induction k as [|k IH]; intros lo; simpl; [done|apply IH]. Qed.

Lemma calculatePathCost_loop_throws (d : matrix) (p : list nat) (k i : nat)
    (s : option num) :
  i < k → length d ≤ p !!! i →
  for_loop k 0 (GraphGenerator.leg d p) s = None.
Proof.
  intros Hi Hout. revert i Hi Hout. induction k as [|k IH]; intros i Hi Hout;
    [lia|].
  rewrite for_loop_snoc. simpl.
  destruct (decide (i = k)) as [->|Hne].
  - unfold GraphGenerator.leg. destruct (for_loop _ _ _ _); [simpl|done].
    by rewrite (lookup_ge_None_2 d (p !!! k)).
  - by rewrite (IH i) by (done || lia).
Qed.

Lemma calculatePathCost_spec (p : list nat) (d : matrix) :
  GraphGenerator.calculatePathCost p d
  = if decide (p ≠ [] ∧ Forall (λ x, x < length d) p)
    then Some (tour_cost d p) else None.
Proof.
  case_decide as H.
  - destruct H as [Hne Hall]. apply calculatePathCost_tour_cost; [done|].
    intros x Hx. by apply (proj1 (Forall_forall _ _) Hall).
  - destruct (decide (p = [])) as [->|Hne]; [done|].
    assert (¬ Forall (λ x, x < length d) p) as Hex by tauto.
    apply not_Forall_Exists in Hex; [|apply _].
    apply Exists_exists in Hex as (x & Hx & Hout). unfold compose in Hout.
    apply list_elem_of_lookup_1 in Hx as [i Hi].
    pose proof (lookup_lt_Some _ _ _ Hi) as Hlt.
    unfold GraphGenerator.calculatePathCost.
    destruct (decide (i < length p - 1)) as [Hin|Hlast].
    + rewrite (calculatePathCost_loop_throws d p _ i); [done|done|].
      rewrite (list_lookup_total_correct _ _ _ Hi). lia.
    + destruct (for_loop _ _ _ _) as [c|]; [simpl|done].
      assert (last p = Some x) as ->.
      { rewrite last_lookup, <- Hi. f_equal. lia. }
      simpl. by rewrite (lookup_ge_None_2 d x) by lia.
Qed.

(** ** Greedy: the steps as a function of the path *)

(** The cost of the first [i] legs of [p]. *)
Definition partial_cost (d : matrix) (p : list nat) (i : nat) : num :=
  foldl num_add (Fin 0) (legs d (take (S i) p)).

(** The step pushed at lines 51-59 in round [i], read off the path [p]
    that the solver returns. *)
Definition explore_step (d : matrix) (p : list nat) (i : nat) : AlgorithmStep :=
  mkStep
    [Str "At node "; Node (p !!! i); Str ", exploring unvisited neighbors"]
    (Some (p !!! i)) (take (S i) p) (take (S i) p)
    (Some ((λ j, mkEdge (p !!! i) j)
             <$> filter (λ j, j ∉ take (S i) p) (seq 0 (length d))))
    None (Some (partial_cost d p i))
    (Some [Str "Looking for the nearest unvisited node from "; Node (p !!! i)]).

(** The step pushed at lines 73-81 in round [i]. *)
Definition move_step (d : matrix) (p : list nat) (i : nat) : AlgorithmStep :=
  mkStep
    [Str "Move to nearest node "; Node (p !!! S i); Str " (distance: ";
     Fixed2 (entry d (p !!! i) (p !!! S i)); Str ")"]
    (Some (p !!! S i)) (take (S (S i)) p) (take (S (S i)) p) None
    (Some (mkEdge (p !!! i) (p !!! S i))) (Some (partial_cost d p (S i)))
    (Some [Str "Added edge "; Node (p !!! i); Str " → "; Node (p !!! S i);
           Str " with cost "; Fixed2 (entry d (p !!! i) (p !!! S i))]).

(** The step pushed at lines 89-97. *)
Definition closing_step (d : matrix) (p : list nat) : AlgorithmStep :=
  mkStep
    [Str "Return to start node 0 (distance: ";
     Fixed2 (entry d (last_node p) 0); Str ")"]
    (Some 0) (p ++ [0]) (p ++ [0]) None
    (Some (mkEdge (last_node p) 0)) (Some (tour_cost d p))
    (Some [Str "Complete the tour. Total cost: "; Fixed2 (tour_cost d p)]).

(** The two steps of round [i]. *)
Definition round_steps (d : matrix) (p : list nat) (i : nat)
    : list AlgorithmStep :=
  [explore_step d p i; move_step d p i].

Lemma round_steps_prefix (d : matrix) (p q : list nat) (i : nat) :
  S i < length p → round_steps d (p ++ q) i = round_steps d p i.
Proof.
  intros Hi. unfold round_steps, explore_step, move_step, partial_cost.
  rewrite !take_app_le by lia.
  by rewrite !(lookup_total_app_l p q) by lia.
Qed.

Lemma exploring_spec (vis : list bool) (current n : nat) :
  Greedy.exploring vis current n
  = (λ j, mkEdge current j) <$> filter (λ j, flag vis j = false) (seq 0 n).
Proof.
  unfold Greedy.exploring.
  rewrite (for_loop_collect (λ j, negb (flag vis j)) (λ j, mkEdge current j)).
  simpl. f_equal. apply list_filter_iff. intros j. apply negb_true_iff.
Qed.

Lemma last_node_lookup (p : list nat) (i : nat) :
  length p = S i → last_node p = p !!! i.
Proof.
  intros Hlen. unfold last_node. rewrite last_lookup, Hlen. simpl.
  by rewrite list_lookup_total_alt.
Qed.

Lemma greedy_steps_rounds (d : matrix) (i : nat) :
  finite_matrix d → S i ≤ length d →
  Greedy.gsteps (Greedy.after d i)
  = greedy_start
    :: (seq 0 i ≫= round_steps d (Greedy.gpath (Greedy.after d i))).
Proof.
  intros Hfin. induction i as [|i IH]; intros Hi.
  - unfold Greedy.after. simpl. by destruct (length d).
  - rewrite greedy_after_succ, seq_S, bind_app.
    pose proof (greedy_after_inv d i Hfin ltac:(lia)) as Hinv.
    destruct (greedy_scan_finds d i _ Hfin Hinv Hi) as (m & Hscan & _).
    destruct Hinv as [Hvlen Hlen Hhead Hnd Hrange Hvis Hcost _ _].
    specialize (IH ltac:(lia)).
    set (s := Greedy.after d i) in *.
    unfold Greedy.iteration. rewrite Hscan.
    cbn [Greedy.gsteps Greedy.gpath]. rewrite IH, app_comm_cons. f_equal.
    + f_equal. apply Forall_bind_ext, Forall_forall. intros k Hk.
      apply elem_of_seq in Hk. symmetry. apply round_steps_prefix. lia.
    + cbn [mbind list_bind app Nat.add]. rewrite app_nil_r.
      unfold round_steps, explore_step, move_step, partial_cost.
      rewrite (last_node_lookup _ i Hlen).
      rewrite !lookup_total_app_l by lia.
      rewrite (lookup_total_app_r (Greedy.gpath s)) by lia.
      replace (S i - length (Greedy.gpath s)) with 0 by lia.
      rewrite take_app_le, take_ge by lia.
      rewrite (take_ge (Greedy.gpath s ++ [m]))
        by (rewrite length_app; simpl; lia).
      rewrite legs_snoc, foldl_app by (intros E; by rewrite E in Hlen).
      rewrite (last_node_lookup _ i Hlen), exploring_spec, <- Hcost.
      rewrite (filter_ext_elem (λ j, flag (Greedy.visited s) j = false)
                 (λ j, j ∉ Greedy.gpath s)); [done|].
      intros j Hj. apply elem_of_seq in Hj. apply flag_false_iff, Hvis. lia.
Qed.

Lemma greedy_steps_spec (clk : clock) (d : matrix) :
  finite_matrix d → 1 ≤ length d →
  ∃ r, Greedy.greedyTSP clk d = Some r ∧
       steps r = greedy_start
                 :: (seq 0 (length d - 1) ≫= round_steps d (path r))
                 ++ [closing_step d (path r)].
Proof.
  intros Hfin Hn.
  destruct (greedy_result clk d Hfin Hn) as (r & Hr & Hpath & Hcost & _).
  exists r. split; [done|].
  pose proof (greedy_after_inv d (length d - 1) Hfin ltac:(lia))
    as [_ Hlen Hhead _ Hrange _ _ _ _].
  pose proof (greedy_steps_rounds d (length d - 1) Hfin ltac:(lia)) as Hsteps.
  unfold Greedy.greedyTSP in Hr. rewrite Hhead in Hr. simpl in Hr.
  set (s := Greedy.after d (length d - 1)) in *.
  destruct (d !! last_node (Greedy.gpath s)) as [row|] eqn:Hrow;
    simpl in Hr; [|done].
  destruct (row !! 0) as [f|] eqn:Hf; simpl in Hr; [|done].
  injection Hr as <-. simpl in *. rewrite Hsteps, app_comm_cons. f_equal.
  unfold closing_step.
  assert (entry d (last_node (Greedy.gpath s)) 0 = f) as ->.
  { unfold entry. by rewrite Hrow, Hf. }
  by rewrite <- Hcost.
Qed.

(** ** The paths of the steps *)




(** * Further properties of the solvers, their helpers and their callers *)

(** A triangle as an adjacency array. *)
Definition triangle : list (list nat) := [[1; 2]; [0; 2]; [0; 1]].

(** X1. Whatever the adjacency array, a list that [findEulerianCircuit]
    returns begins with the start vertex, holds exactly the vertices that
    the start reaches along adjacency entries, all of them indices of the
    array, and is no longer than the number of adjacency entries plus
    one. *)
Theorem euler_lists_reachable (g : list (list nat)) (start : nat)
    (c : list nat) :
  Euler.findEulerianCircuit g start = Some c →
  head c = Some start ∧
  (∀ x, x ∈ c ↔ rtc (adjacent g) start x) ∧
  (∀ x, x ∈ c → x < length g) ∧
  length c ≤ 1 + Euler.entries g.
Proof. apply euler_vertices. Qed.

Lemma euler_lists_reachable_witness :
  Euler.findEulerianCircuit triangle 0 = Some [0; 2; 1; 0] ∧
  head [0; 2; 1; 0] = Some 0 ∧ length [0; 2; 1; 0] ≤ 1 + Euler.entries triangle.
Proof.
  split; [reflexivity|].
  destruct (euler_lists_reachable triangle 0 [0; 2; 1; 0] eq_refl)
    as (Hh & _ & _ & Hl).
  split; [exact Hh|exact Hl].
Defined.

(** X2. [findEulerianCircuit] throws exactly when the start vertex reaches
    a vertex that is not an index of the adjacency array; the start vertex
    itself counts. *)
Theorem euler_throws_exactly (g : list (list nat)) (start : nat) :
  Euler.findEulerianCircuit g start = None ↔
  ∃ x, rtc (adjacent g) start x ∧ length g ≤ x.
Proof. apply euler_throws. Qed.

(** X3. On an undirected multigraph without loops in which every vertex
    has an even number of neighbours, [findEulerianCircuit] returns a walk
    that begins and ends at the start vertex and goes along the edge
    between [a] and [b], for every vertex [a] within reach, as often as
    [b] is listed under [a]; when every vertex is within reach the walk
    has one vertex more than the graph has edges. *)
Theorem euler_walks_every_edge_once (g : list (list nat)) (start : nat) :
  undirected g → even_degrees g → start < length g →
  ∃ c, Euler.findEulerianCircuit g start = Some c ∧
       head c = Some start ∧ last c = Some start ∧
       (∀ a b, rtc (adjacent g) start a →
          traversals a b c = occ b (g !!! a)) ∧
       ((∀ a, a < length g → rtc (adjacent g) start a) →
        2 * length c = 2 + Euler.entries g).
Proof. apply euler_circuit_eulerian. Qed.

Lemma euler_walks_every_edge_once_witness :
  ∃ c, Euler.findEulerianCircuit triangle 0 = Some c ∧
       last c = Some 0 ∧ traversals 0 1 c = 1.
Proof.
  assert (undirected triangle) as Hund.
  { split.
    - intros [|[|[|a]]] [|[|[|b]]]; reflexivity.
    - intros [|[|[|a]]] H; apply list_elem_of_In in H; simpl in H;
        intuition discriminate. }
  assert (even_degrees triangle) as Heven.
  { intros [|[|[|a]]]; [exists 1|exists 1|exists 1|exists 0]; reflexivity. }
  destruct (euler_walks_every_edge_once triangle 0 Hund Heven ltac:(simpl; lia))
    as (c & Hc & _ & Hlast & Htrav & _).
  exists c. split; [exact Hc|]. split; [exact Hlast|].
  apply (Htrav 0 1). apply rtc_refl.
Defined.

(** X4. In [christofidesTSP] on a square matrix of finite non-negative
    numbers, the circuit that step 5 shows begins and ends at node 0, has
    one vertex more than step 4 lists edges (tree edges and matching
    pairs), and goes along the edge between two nodes as often as step 4
    lists an edge between them. *)
Theorem christofides_circuit_walks_edges (clk : clock) (d : matrix) :
  square_nonneg d →
  ∃ r E c, Christofides.christofidesTSP clk d = Some r ∧
    exploringEdges <$> steps r !! 4 = Some (Some E) ∧
    currentPath <$> steps r !! 5 = Some c ∧
    head c = Some 0 ∧ last c = Some 0 ∧ length c = S (length E) ∧
    ∀ a b, a < length d → traversals a b c = edge_count a b E.
Proof.
  intros Hd. apply christofides_circuit;
    [by apply square_nonneg_finite|by apply square_nonneg_nonempty].
Qed.

Lemma christofides_circuit_walks_edges_witness :
  square_nonneg square4 ∧
  ∃ r c, Christofides.christofidesTSP clk0 square4 = Some r ∧
         currentPath <$> steps r !! 5 = Some c ∧ last c = Some 0.
Proof.
  split; [reflexivity|].
  destruct (christofides_circuit_walks_edges clk0 square4 eq_refl)
    as (r & E & c & Hr & _ & Hc & _ & Hlast & _).
  exists r, c. split; [exact Hr|]. split; [exact Hc|exact Hlast].
Defined.

(** X5. Shortcutting (lines 296-303) keeps the first visit of every
    vertex: the result is a sub-sequence of the circuit with the same
    first vertex, the shortcut of two circuits in a row is the shortcut of
    the first followed by what the shortcut of the second holds that the
    first does not, and shortcutting twice changes nothing. *)
Theorem shortcut_keeps_first_visits (c1 c2 : list nat) :
  Christofides.shortcut c1 `sublist_of` c1 ∧
  head (Christofides.shortcut c1) = head c1 ∧
  Christofides.shortcut (c1 ++ c2)
  = Christofides.shortcut c1
    ++ filter (λ x, x ∉ c1) (Christofides.shortcut c2) ∧
  Christofides.shortcut (Christofides.shortcut c1) = Christofides.shortcut c1.
Proof.
  split; [apply shortcut_sublist|]. split; [apply shortcut_head|].
  split; [apply shortcut_app|].
  apply shortcut_NoDup_id. apply shortcut_spec.
Qed.

(** X6. [calculatePathCost] throws on the empty path and on a path that
    holds a node which is not a row of the matrix; on every other path it
    returns the sum of the entries between consecutive nodes, added from
    left to right, plus the entry from the last node back to the first. *)
Theorem calculatePathCost_value (p : list nat) (d : matrix) :
  GraphGenerator.calculatePathCost p d
  = if decide (p ≠ [] ∧ Forall (λ x, x < length d) p)
    then Some (tour_cost d p) else None.
Proof. apply calculatePathCost_spec. Qed.






(** X10. On a square matrix of finite non-negative numbers with two to
    fifteen nodes, the cost of Held-Karp is at most the cost of Greedy and
    at most the cost of Christofides. *)
Theorem heldKarp_below_heuristics (clkG clkH clkC : clock) (d : matrix) :
  square_nonneg d → 2 ≤ length d → length d ≤ 15 →
  ∃ g h c, Greedy.greedyTSP clkG d = Some g ∧
           HeldKarp.heldKarpTSP clkH d = Some h ∧
           Christofides.christofidesTSP clkC d = Some c ∧
           num_leb (cost h) (cost g) = true ∧
           num_leb (cost h) (cost c) = true.
Proof.
  intros Hd Hn2 Hn15. pose proof (square_nonneg_finite d Hd) as Hfin.
  destruct (heldKarp_le_greedy clkH clkG d Hfin Hn2 Hn15)
    as (h & g & Hh & Hg & Hle).
  destruct (christofides_tour clkC d Hfin ltac:(lia))
    as (c & Hc & Hperm & Hhead & Hcost).
  destruct (heldKarp_optimal clkH d (path c) Hfin Hn2 Hn15 Hperm Hhead)
    as (h' & z & Hh' & _ & Hle').
  rewrite Hh in Hh'. injection Hh' as <-.
  exists g, h, c. by rewrite Hcost.
Qed.

Lemma heldKarp_below_heuristics_witness :
  square_nonneg square4 ∧
  ∃ h c, HeldKarp.heldKarpTSP clk0 square4 = Some h ∧
         Christofides.christofidesTSP clk0 square4 = Some c ∧
         num_leb (cost h) (cost c) = true.
Proof.
  split; [reflexivity|].
  destruct (heldKarp_below_heuristics clk0 clk0 clk0 square4 eq_refl
              ltac:(simpl; lia) ltac:(simpl; lia))
    as (g & h & c & _ & Hh & Hc & _ & Hle).
  exists h, c. split; [exact Hh|]. split; [exact Hc|exact Hle].
Defined.

(** X11. On a square matrix of finite non-negative numbers [primMST]
    returns a spanning tree rooted at node 0: [n - 1] edges; node 0
    followed by the [to] ends of the edges lists every node once; the
    [from] end of an edge is node 0 or the [to] end of an earlier edge,
    its [to] end is neither; and the weight of an edge is the matrix
    entry between its ends. *)
Theorem prim_builds_spanning_tree (d : matrix) :
  square_nonneg d →
  length (Prim.primMST d) = length d - 1 ∧
  tree_nodes (Prim.primMST d) ≡ₚ seq 0 (length d) ∧
  ∀ k e, Prim.primMST d !! k = Some e →
    wfrom e ∈ tree_nodes (take k (Prim.primMST d)) ∧
    (wto e ∉ tree_nodes (take k (Prim.primMST d))) ∧
    weight e = entry d (wfrom e) (wto e).
Proof.
  intros Hd. pose proof (square_nonneg_finite d Hd) as Hfin.
  pose proof (square_nonneg_nonempty d Hd) as Hn.
  destruct (prim_tree_nodes d Hfin Hn) as [Hlen Hperm].
  split; [done|]. split; [done|]. intros k e Hk.
  by destruct (prim_follows_rule d Hfin Hn k e Hk) as (Hw & Hin & Hout & _).
Qed.

Lemma prim_builds_spanning_tree_witness :
  square_nonneg square4 ∧ length (Prim.primMST square4) = 3.
Proof.
  split; [reflexivity|].
  by destruct (prim_builds_spanning_tree square4 eq_refl) as [Hlen _].
Defined.

(** X12. On a square matrix of finite non-negative numbers every edge of
    [primMST] is a lightest edge from the tree built before it to a node
    outside that tree, and among the lightest ones the first that the
    double loop reads (lowest [from], then lowest [to]). *)
Theorem prim_picks_lightest_edge (d : matrix) (k : nat) (e : wedge) :
  square_nonneg d → Prim.primMST d !! k = Some e →
  ∀ a b, a ∈ tree_nodes (take k (Prim.primMST d)) → b < length d →
    b ∉ tree_nodes (take k (Prim.primMST d)) →
    num_leb (weight e) (entry d a b) = true ∧
    (earlier (wfrom e) (wto e) a b →
     num_ltb (weight e) (entry d a b) = true).
Proof.
  intros Hd Hk. pose proof (square_nonneg_finite d Hd) as Hfin.
  pose proof (square_nonneg_nonempty d Hd) as Hn.
  by destruct (prim_follows_rule d Hfin Hn k e Hk) as (_ & _ & _ & _ & Hmin).
Qed.

Lemma prim_picks_lightest_edge_witness :
  square_nonneg square4 ∧
  Prim.primMST square4 !! 0 = Some (mkWedge 0 1 (Fin 10)) ∧
  num_leb (Fin 10) (entry square4 0 2) = true.
Proof.
  split; [reflexivity|]. split; [reflexivity|].
  destruct (prim_picks_lightest_edge square4 0 (mkWedge 0 1 (Fin 10))
              eq_refl eq_refl 0 2) as [Hle _].
  - by left.
  - simpl; lia.
  - intros H. apply list_elem_of_In in H. simpl in H. intuition discriminate.
  - exact Hle.
Defined.

(** X13. On distinct vertices and a square matrix of finite non-negative
    numbers, [minimumWeightMatching] is greedy: the first end of every
    pair is the first vertex of the list that no earlier pair holds, and
    its second end is, among the vertices further down the list that no
    earlier pair holds, the nearest one to the first end, the first in
    the list among equally near ones. *)
Theorem matching_pairs_nearest_free (d : matrix) (vs : list nat) :
  square_nonneg d → Forall (λ x, x < length d) vs → NoDup vs →
  matching_rule d vs (Matching.minimumWeightMatching vs d).
Proof.
  intros Hd Hrange Hnd.
  apply (match_gen_final d vs (square_nonneg_finite d Hd)); [|done].
  intros x Hx. by apply (proj1 (Forall_forall _ _) Hrange).
Qed.

Lemma matching_pairs_nearest_free_witness :
  square_nonneg square4 ∧
  Matching.minimumWeightMatching [0; 1; 2; 3] square4
  = [mkEdge 0 1; mkEdge 2 3] ∧
  greedy_pair square4 [0; 1; 2; 3] [] (mkEdge 0 1).
Proof.
  split; [reflexivity|]. split; [reflexivity|].
  apply (matching_pairs_nearest_free square4 [0; 1; 2; 3] eq_refl
           ltac:(repeat constructor) ltac:(by apply (bool_decide_unpack _))
           0 (mkEdge 0 1) eq_refl).
Defined.

(** X14. On distinct vertices and a square matrix of finite non-negative
    numbers, [minimumWeightMatching] uses no vertex twice, pairs vertices
    of the list only, and leaves at most one vertex of the list without a
    partner. *)
Theorem matching_leaves_at_most_one (d : matrix) (vs : list nat) :
  square_nonneg d → Forall (λ x, x < length d) vs → NoDup vs →
  let M := Matching.minimumWeightMatching vs d in
  NoDup (endpoints M) ∧ (∀ x, x ∈ endpoints M → x ∈ vs) ∧
  length (filter (λ x, x ∉ endpoints M) vs) ≤ 1 ∧
  length vs = 2 * length M + length (filter (λ x, x ∉ endpoints M) vs).
Proof.
  intros Hd Hrange Hnd M. pose proof (square_nonneg_finite d Hd) as Hfin.
  assert (∀ x, x ∈ vs → x < length d) as Hrange'.
  { intros x Hx. by apply (proj1 (Forall_forall _ _) Hrange). }
  destruct (match_gen_final d vs Hfin Hrange' Hnd) as [Hndm _ _ _ _].
  split; [done|]. split; [intros x; apply matching_range|].
  by apply matching_leftover.
Qed.

Lemma matching_leaves_at_most_one_witness :
  square_nonneg square4 ∧
  length [0; 1; 2]
  = 2 * length (Matching.minimumWeightMatching [0; 1; 2] square4)
    + length (filter (λ x, x ∉ endpoints
                (Matching.minimumWeightMatching [0; 1; 2] square4)) [0; 1; 2]).
Proof.
  split; [reflexivity|].
  by destruct (matching_leaves_at_most_one square4 [0; 1; 2] eq_refl
                 ltac:(repeat constructor; simpl; lia)
                 ltac:(by apply (bool_decide_unpack _)))
    as (_ & _ & _ & Hlen).
Defined.

(** X15. On every matrix, whatever its entries and the lengths of its
    rows, [greedyTSP] throws exactly when the matrix is empty or the row
    of the node it ends on is empty, and a path that it returns begins
    with node 0 and holds distinct indices of the matrix. *)
Theorem greedy_on_any_matrix (clk : clock) (d : matrix) :
  (Greedy.greedyTSP clk d = None ↔
   length d = 0 ∨
   d !! last_node (Greedy.gpath (Greedy.after d (length d - 1))) = Some []) ∧
  ∀ r, Greedy.greedyTSP clk d = Some r →
    head (path r) = Some 0 ∧ NoDup (path r) ∧ ∀ x, x ∈ path r → x < length d.
Proof. apply greedy_any_matrix. Qed.

(** X16. On every matrix, whatever its entries and the lengths of its
    rows, [christofidesTSP] throws exactly when the matrix is empty, and a
    path that it returns begins with node 0 and holds distinct indices of
    the matrix. *)
Theorem christofides_on_any_matrix (clk : clock) (d : matrix) :
  (Christofides.christofidesTSP clk d = None ↔ length d = 0) ∧
  ∀ r, Christofides.christofidesTSP clk d = Some r →
    head (path r) = Some 0 ∧ NoDup (path r) ∧ ∀ x, x ∈ path r → x < length d.
Proof. apply christofides_any_matrix. Qed.

(** X17. Whatever the distance function, [createDistanceMatrix] returns
    as many rows as there are points, each of that length, with 0 on the
    diagonal and the distance between the two points elsewhere. *)
Theorem createDistanceMatrix_entries
    (dist : GraphGenerator.Point → GraphGenerator.Point → num)
    (points : list GraphGenerator.Point) :
  let m := GraphGenerator.createDistanceMatrix dist points in
  length m = length points ∧
  Forall (λ row, length row = length points) m ∧
  ∀ i j, i < length points → j < length points →
    m !! i ≫= (.!! j)
    = Some (if decide (i = j) then Fin 0
            else dist (points !!! i) (points !!! j)).
Proof. apply createDistanceMatrix_spec. Qed.

(** X18. With a distance function that is symmetric and yields finite
    non-negative numbers, the matrix that [createDistanceMatrix] returns
    for one point or more is a valid distance matrix: square, symmetric,
    non-negative, zero on the diagonal. *)
Theorem createDistanceMatrix_is_valid
    (dist : GraphGenerator.Point → GraphGenerator.Point → num)
    (points : list GraphGenerator.Point) :
  (∀ p q, dist p q = dist q p) → (∀ p q, is_dist (dist p q) = true) →
  points ≠ [] →
  valid_matrix (GraphGenerator.createDistanceMatrix dist points).
Proof. apply createDistanceMatrix_valid. Qed.

Lemma createDistanceMatrix_is_valid_witness :
  valid_matrix
    (GraphGenerator.createDistanceMatrix (λ _ _, Fin 1)
       [GraphGenerator.mkPoint (Fin 0) (Fin 0) 0;
        GraphGenerator.mkPoint (Fin 1) (Fin 0) 1]).
Proof.
  apply (createDistanceMatrix_is_valid (λ _ _, Fin 1)); [done|done|done].
Defined.

(** X19. [runAlgorithms] on the matrix that [createDistanceMatrix] builds,
    whatever the distance function: without points the guard returns
    before any solver runs; with one point or more each of the three
    solvers returns and none throws. *)
Theorem runAlgorithms_never_throws
    (dist : GraphGenerator.Point → GraphGenerator.Point → num)
    (points : list GraphGenerator.Point) (clkG clkH clkC : clock) :
  let d := GraphGenerator.createDistanceMatrix dist points in
  (points = [] ∧ App.runAlgorithms clkG clkH clkC d = App.Skipped) ∨
  (points ≠ [] ∧
   ∃ g h c, Greedy.greedyTSP clkG d = Some g ∧
            HeldKarp.heldKarpTSP clkH d = Some h ∧
            Christofides.christofidesTSP clkC d = Some c ∧
            App.runAlgorithms clkG clkH clkC d = App.Ran g h c).
Proof.
  intros d.
  destruct (createDistanceMatrix_spec dist points) as (Hlen & Hrows & _).
  fold d in Hlen, Hrows.
  destruct (runAlgorithms_total clkG clkH clkC d) as [[Hz Hrun]|[Hn Hrun]].
  - intros row Hrow E. subst row.
    pose proof (proj1 (Forall_forall _ _) Hrows [] Hrow) as Hl. simpl in Hl.
    apply list_elem_of_lookup_1 in Hrow as [i Hi].
    apply lookup_lt_Some in Hi. lia.
  - left. split; [|done]. destruct points; [done|]. simpl in *. lia.
  - right. split; [|done]. intros ->. simpl in *. lia.
Qed.

(** X20. The step index of a solver's player stays an index of [steps]:
    from an index of [steps], whatever the user does with the buttons and
    whatever the interval does, as long as the slider only reports
    indices of [steps]. *)
Theorem stepper_stays_in_range (steps : list AlgorithmStep)
    (events : list App.event) (p : App.player) :
  App.stepIndex p < length steps →
  (∀ v, App.Slide v ∈ events → v < length steps) →
  App.stepIndex (foldl (App.react steps) p events) < length steps ∧
  AlgorithmStepper.shown steps
    (App.stepIndex (foldl (App.react steps) p events))
  = steps !! App.stepIndex (foldl (App.react steps) p events).
Proof.
  intros Hp Hslide.
  pose proof (events_in_range steps events p Hp Hslide) as Hlt.
  split; [done|]. unfold AlgorithmStepper.shown.
  by destruct (lookup_lt_is_Some_2 steps _ Hlt) as [s ->].
Qed.

Lemma stepper_stays_in_range_witness :
  App.stepIndex
    (foldl (App.react [greedy_start; christofides_start])
       (App.mkPlayer 0 true)
       [App.Next; App.Next; App.Tick; App.Slide 1; App.Previous; App.Tick;
        App.Tick; App.Reset; App.PlayPause]) < 2.
Proof.
  apply (stepper_stays_in_range [greedy_start; christofides_start]).
  - simpl. lia.
  - intros v Hv. apply list_elem_of_In in Hv. simpl in Hv.
    destruct Hv as [Hv|[Hv|[Hv|[Hv|Hv]]]]; try discriminate.
    + injection Hv as <-. simpl. lia.
    + repeat (destruct Hv as [Hv|Hv]; [discriminate|]). destruct Hv.
Defined.

(** X21. Auto-play: from step [i] with the play flag set, [k] rounds of
    the interval lead to step [i + k] as long as that is a step; the round
    after the last step clears the play flag and later rounds change
    nothing. *)
Theorem autoplay_reaches_last_step (steps : list AlgorithmStep) (k : nat)
    (p : App.player) :
  App.stepIndex p < length steps → App.isPlaying p = true →
  ticks steps k p
  = App.mkPlayer
      (App.stepIndex p + k `min` (length steps - 1 - App.stepIndex p))
      (bool_decide (k ≤ length steps - 1 - App.stepIndex p)).
Proof. apply ticks_spec. Qed.

Lemma autoplay_reaches_last_step_witness :
  ticks [greedy_start; christofides_start; greedy_start] 5 (App.mkPlayer 0 true)
  = App.mkPlayer 2 false.
Proof.
  apply (autoplay_reaches_last_step
           [greedy_start; christofides_start; greedy_start] 5
           (App.mkPlayer 0 true)); [simpl; lia|reflexivity].
Defined.



(** X23. In the drawing of a path without repeated nodes, two nodes
    [i < j] are joined by their gray edge exactly when no coloured edge
    (exploring, current or solution) joins them in either direction. *)
Theorem gray_edge_iff_no_coloured_edge (n : nat) (path : list nat)
    (highlightEdges : list edge) (highlightEdge : option edge) (i j : nat) :
  NoDup path → i < j < n →
  gray_edge i j ∈ ReactFlowGraph.initialEdges n path highlightEdges highlightEdge
  ↔ ¬ ∃ e, e ∈ ReactFlowGraph.initialEdges n path highlightEdges highlightEdge ∧
           ReactFlowGraph.style e ≠ ReactFlowGraph.Background ∧
           joins (ReactFlowGraph.source e) (ReactFlowGraph.target e) i j.
Proof. apply gray_iff_uncoloured. Qed.

Lemma gray_edge_iff_no_coloured_edge_witness :
  gray_edge 0 2 ∈ ReactFlowGraph.initialEdges 4 [0; 1; 2; 3] [] None.
Proof.
  apply (gray_edge_iff_no_coloured_edge 4 [0; 1; 2; 3] [] None 0 2).
  - by apply (bool_decide_unpack _).
  - lia.
  - intros (e & He & Hs & Hj). apply list_elem_of_In in He.
    vm_compute in He. unfold joins in Hj.
    repeat (destruct He as [<-|He];
            [first [by destruct Hs|simpl in Hj; lia]|]).
    destruct He.
Defined.

(** X24. On a square matrix of finite non-negative numbers Greedy returns
    [2 n] steps, Held-Karp three steps up to fifteen nodes and one step
    above, Christofides seven steps. *)
Theorem solver_step_counts (clkG clkH clkC : clock) (d : matrix) :
  square_nonneg d →
  ∃ g h c, Greedy.greedyTSP clkG d = Some g ∧
           HeldKarp.heldKarpTSP clkH d = Some h ∧
           Christofides.christofidesTSP clkC d = Some c ∧
           length (steps g) = 2 * length d ∧
           length (steps h) = (if decide (length d ≤ 15) then 3 else 1) ∧
           length (steps c) = 7.
Proof.
  intros Hd. apply step_counts;
    [by apply square_nonneg_finite|by apply square_nonneg_nonempty].
Qed.

Lemma solver_step_counts_witness :
  square_nonneg square4 ∧
  ∃ g, Greedy.greedyTSP clk0 square4 = Some g ∧ length (steps g) = 8.
Proof.
  split; [reflexivity|].
  destruct (solver_step_counts clk0 clk0 clk0 square4 eq_refl)
    as (g & _ & _ & Hg & _ & _ & Hlen & _).
  exists g. split; [exact Hg|exact Hlen].
Defined.

(** X25. The last step of Greedy holds the path followed by node 0, and
    the stepper and the graph close the path they are given once more: on
    a square matrix of finite non-negative numbers the stepper's path
    line ends with node 0 twice, while the card shows it once, and the
    graph draws [n + 1] solution edges, the last one from node 0 to
    itself. *)
Theorem greedy_last_step_closed_twice (clk : clock) (d : matrix) :
  square_nonneg d →
  ∃ r st e, Greedy.greedyTSP clk d = Some r ∧ last (steps r) = Some st ∧
    AlgorithmStepper.pathLine st = Some (path r ++ [0; 0]) ∧
    AlgorithmResults.pathText (path r) = AlgorithmResults.Route (path r ++ [0]) ∧
    length (ReactFlowGraph.solution (currentPath st)) = S (length d) ∧
    last (ReactFlowGraph.solution (currentPath st)) = Some e ∧
    ReactFlowGraph.source e = 0 ∧ ReactFlowGraph.target e = 0.
Proof.
  intros Hd. apply greedy_last_step_shown;
    [by apply square_nonneg_finite|by apply square_nonneg_nonempty].
Qed.

Lemma greedy_last_step_closed_twice_witness :
  square_nonneg square4 ∧
  ∃ r st, Greedy.greedyTSP clk0 square4 = Some r ∧ last (steps r) = Some st ∧
          AlgorithmStepper.pathLine st = Some (path r ++ [0; 0]).
Proof.
  split; [reflexivity|].
  destruct (greedy_last_step_closed_twice clk0 square4 eq_refl)
    as (r & st & e & Hr & Hst & Hline & _).
  exists r, st. split; [exact Hr|]. split; [exact Hst|exact Hline].
Defined.

(** X26. The steps of Greedy are a function of the path it returns.  On a
    square matrix of finite non-negative numbers the list is: the start
    step; then, for each leg [i] of the path, a step that shows the path up
    to node [i], its cost and one candidate edge from that node to every
    node not yet on the path, in ascending order, followed by a step that
    shows the path up to node [i + 1], the edge taken and the cost so far;
    then the step that closes the tour. *)
Theorem greedy_steps_follow_path (clk : clock) (d : matrix) :
  square_nonneg d →
  ∃ r, Greedy.greedyTSP clk d = Some r ∧
       steps r = greedy_start
                 :: (seq 0 (length d - 1) ≫= round_steps d (path r))
                 ++ [closing_step d (path r)].
Proof.
  intros Hd. apply greedy_steps_spec;
    [by apply square_nonneg_finite|by apply square_nonneg_nonempty].
Qed.

Lemma greedy_steps_follow_path_witness :
  square_nonneg square4 ∧
  ∃ r, Greedy.greedyTSP clk0 square4 = Some r ∧
       steps r !! 3 = Some (explore_step square4 (path r) 1) ∧
       steps r !! 4 = Some (move_step square4 (path r) 1).
Proof.
  split; [reflexivity|].
  destruct (greedy_steps_follow_path clk0 square4 eq_refl) as (r & Hr & Hsteps).
  exists r. split; [exact Hr|]. rewrite Hsteps. split; reflexivity.
Defined.


